(** * redis-manager: response cache and deployment metrics over Redis

    Shallow embedding of [api/script/redis-manager.ts] in its two
    revisions: the one built on Q promises and the one built on
    [async]/[await].  The module [Utilities] and the string constants are
    identical in both revisions and are embedded once. *)

From Stdlib Require Import ZArith String Ascii List Lia Bool.
From Stdlib Require Import DecimalString DecimalZ DecimalPos.
From stdpp Require Import base option gmap strings list fin_maps relations.

Local Open Scope string_scope.
Local Open Scope Z_scope.

(** ** Exported constants *)

Definition DEPLOYMENT_SUCCEEDED : string := "DeploymentSucceeded".
Definition DEPLOYMENT_FAILED : string := "DeploymentFailed".
Definition ACTIVE : string := "Active".
Definition DOWNLOADED : string := "Downloaded".

(** A JavaScript string used as a condition is true exactly when it is not
    empty. *)
Definition truthy (s : string) : bool :=
  match s with
  | EmptyString => false
  | String _ _ => true
  end.

(** A value of TypeScript type [string] that the code lets be [null] is an
    [option string]; [null] is falsy. *)
Definition truthy_opt (o : option string) : bool :=
  match o with
  | Some s => truthy s
  | None => false
  end.

(** ** module Utilities *)

Module Utilities.

Definition isValidDeploymentStatus (status : string) : bool :=
  String.eqb status DEPLOYMENT_SUCCEEDED
  || String.eqb status DEPLOYMENT_FAILED
  || String.eqb status DOWNLOADED.

Definition getLabelStatusField (label status : string) : option string :=
  if isValidDeploymentStatus status
  then Some (label +:+ ":" +:+ status)
  else None.

Definition getLabelActiveCountField (label : string) : option string :=
  if truthy label then Some (label +:+ ":" +:+ ACTIVE) else None.

Definition getDeploymentKeyHash (deploymentKey : string) : string :=
  "deploymentKey:" +:+ deploymentKey.

Definition getDeploymentKeyLabelsHash (deploymentKey : string) : string :=
  "deploymentKeyLabels:" +:+ deploymentKey.

Definition getDeploymentKeyClientsHash (deploymentKey : string) : string :=
  "deploymentKeyClients:" +:+ deploymentKey.

End Utilities.

(** ** JavaScript values

    Strings are sequences of bytes (UTF-8, as Redis stores them).  An
    exception or rejection reason is an error object with its constructor's
    name and its message. *)

Record JsError := mkError { err_name : string; err_message : string }.

Definition Error_new (message : string) : JsError := mkError "Error" message.
Definition TypeError_undefined : JsError :=
  mkError "TypeError" "Cannot read properties of undefined".

(** *** Numbers and [parseInt(s, 10)]

    [parseInt] returns an IEEE double.  Only integral values arise, so a
    number is [NaN], an infinity, the negative zero or an integer that a
    double represents exactly. *)

Inductive number :=
| NaN
| Infinity (negative : bool)
| NegZero
| Num (z : Z).

(** Round a natural number to the nearest double, ties to even. *)
Definition round_to_double (n : Z) : Z :=
  if n <? 2 ^ 53 then n
  else
    let e := Z.log2 n - 52 in
    let q := n / 2 ^ e in
    let r := n mod 2 ^ e in
    let half := 2 ^ (e - 1) in
    let q' := if (half <? r) || ((r =? half) && Z.odd q) then q + 1 else q in
    q' * 2 ^ e.

Definition number_of_mathint (negative : bool) (n : Z) : number :=
  if n =? 0 then (if negative then NegZero else Num 0)
  else
    let d := round_to_double n in
    if 2 ^ 1024 <=? d then Infinity negative
    else Num (if negative then - d else d).

(** [StrWhiteSpaceChar]: white space and line terminators, in their UTF-8
    encodings.  [skip_white_space] removes them from the front. *)
Fixpoint skip_white_space (s : string) : string :=
  match s with
  | String "009" t | String "010" t | String "011" t | String "012" t
  | String "013" t | String " " t => skip_white_space t
  | String "194" (String "160" t) => skip_white_space t          (* U+00A0 *)
  | String "225" (String "154" (String "128" t)) => skip_white_space t (* U+1680 *)
  | String "226" (String "128" (String c t)) =>
      let n := nat_of_ascii c in                         (* U+2000..200A, 2028, 2029, 202F *)
      if ((128 <=? n) && (n <=? 138) || (n =? 168) || (n =? 169) || (n =? 175))%nat
      then skip_white_space t else s
  | String "226" (String "129" (String "159" t)) => skip_white_space t (* U+205F *)
  | String "227" (String "128" (String "128" t)) => skip_white_space t (* U+3000 *)
  | String "239" (String "187" (String "191" t)) => skip_white_space t (* U+FEFF *)
  | _ => s
  end.

Definition digit_value (c : ascii) : option Z :=
  let n := Z.of_nat (nat_of_ascii c) in
  if (48 <=? n) && (n <=? 57) then Some (n - 48) else None.

(** The longest prefix of decimal digits: its value and whether it holds
    at least one digit. *)
Fixpoint leading_digits (s : string) (acc : Z) (seen : bool) : Z * bool :=
  match s with
  | EmptyString => (acc, seen)
  | String c t =>
      match digit_value c with
      | Some d => leading_digits t (10 * acc + d) true
      | None => (acc, seen)
      end
  end.

Definition parseInt10 (input : string) : number :=
  let s := skip_white_space input in
  let '(negative, s) :=
    match s with
    | String "-" t => (true, t)
    | String "+" t => (false, t)
    | _ => (false, s)
    end in
  match leading_digits s 0 false with
  | (n, true) => number_of_mathint negative n
  | (_, false) => NaN
  end.

(** ** The store client (ioredis)

    The client library is not part of the repository either.  A [Redis]
    object is a connection to one logical database of the server.  Each
    method call sends one command and returns a promise for its reply. *)

Record Redis := Redis_new { db : N }.

(** Replies: a command's value, or the error its promise rejects with. *)
Inductive Reply (R : Type) :=
| Ok (value : R)
| Failed (reason : JsError).
Arguments Ok {R} value.
Arguments Failed {R} reason.

(** A command queued on a [multi()] pipeline.  The field of [hincrby] is
    whatever the caller derived, [null] included. *)
Inductive Queued :=
| Q_hset (key field value : string)
| Q_hincrby (key : string) (field : option string) (increment : Z).

(** The commands this module sends, indexed by the type of their reply.
    [EXEC] stands for the whole transaction that [multi().exec()] writes:
    MULTI, the queued commands, EXEC. *)
Inductive Cmd : Type -> Type :=
| PING : Cmd string
| QUIT : Cmd string
| HGET (key field : string) : Cmd (option string)
| HSET (key field value : string) : Cmd Z
| HGETALL (key : string) : Cmd (gmap string string)
| HINCRBY (key : string) (field : option string) (increment : Z) : Cmd Z
| HDEL (key field : string) : Cmd Z
| EXISTS (key : string) : Cmd Z
| EXPIRE (key : string) (seconds : Z) : Cmd Z
| DEL (keys : list string) : Cmd Z
| EXEC (queued : list Queued) : Cmd (list (Reply Z)).

(** One command on the wire: the connection it goes through and the
    command. *)
Inductive Request :=
| Req {R : Type} (conn : Redis) (cmd : Cmd R).

(** ** Promises

    A call of a method of the manager is a tree: it settles (fulfilled or
    rejected), or throws before any promise exists, or sends a command and
    goes on with the reply. *)

Inductive Promise (A : Type) : Type :=
| Resolve (value : A)
| Reject (reason : JsError)
| Throw (exn : JsError)
| Send {R : Type} (conn : Redis) (cmd : Cmd R) (k : Reply R -> Promise A).
Arguments Resolve {A} value.
Arguments Reject {A} reason.
Arguments Throw {A} exn.
Arguments Send {A R} conn cmd k.

(** [p.then(f)]; in an [async] body, [x = await p; f x]. *)
Fixpoint bind {A B} (p : Promise A) (f : A -> Promise B) : Promise B :=
  match p with
  | Resolve a => f a
  | Reject e => Reject e
  | Throw e => Throw e
  | Send conn cmd k => Send conn cmd (fun r => bind (k r) f)
  end.

#[global] Instance Promise_ret : MRet Promise := @Resolve.
#[global] Instance Promise_bind : MBind Promise := fun A B f p => bind p f.

(** [try { p } catch (err) { h err }] in an [async] body, where a rejected
    [await] is an exception like any other; also [p.catch(h)]. *)
Fixpoint try_catch {A} (p : Promise A) (h : JsError -> Promise A) : Promise A :=
  match p with
  | Resolve a => Resolve a
  | Reject e => h e
  | Throw e => h e
  | Send conn cmd k => Send conn cmd (fun r => try_catch (k r) h)
  end.

(** The promise an [async] function returns, and the promise
    [Q.Promise(resolver)] returns: whatever the body throws rejects it. *)
Definition async {A} (body : Promise A) : Promise A := try_catch body Reject.
Definition Q_Promise {A} (resolver : Promise A) : Promise A := try_catch resolver Reject.

(** [conn.cmd(...)]: the command is sent, the promise settles with the
    reply.  [Q(conn.cmd(...))] wraps the same promise. *)
Definition call {R} (conn : Redis) (cmd : Cmd R) : Promise R :=
  Send conn cmd (fun r => match r with Ok v => Resolve v | Failed e => Reject e end).

(** [this._client.method(...)] where the field may be undefined. *)
Definition deref {A} (client : option Redis) (k : Redis -> Promise A) : Promise A :=
  match client with
  | Some conn => k conn
  | None => Throw TypeError_undefined
  end.

(** [Promise.all] and [Q.all] over an array literal whose entries are
    method calls on a client or promises that are fulfilled already.  The
    entries are evaluated left to right, each call sending its command, so
    every command is sent before any reply is looked at; a call on an
    undefined client throws while the array is built.  The result is
    rejected with the first rejection, replies taken in the order sent. *)
Inductive Entry :=
| Method (client : option Redis) (cmd : Cmd string)
| Settled.

Fixpoint all_from (first_failure : option JsError) (entries : list Entry)
    : Promise unit :=
  match entries with
  | [] => match first_failure with
          | None => Resolve tt
          | Some e => Reject e
          end
  | Settled :: rest => all_from first_failure rest
  | Method None _ :: _ => Throw TypeError_undefined
  | Method (Some conn) cmd :: rest =>
      Send conn cmd (fun r =>
        match r, first_failure with
        | Failed e, None => all_from (Some e) rest
        | _, _ => all_from first_failure rest
        end)
  end.

Definition all (entries : list Entry) : Promise unit := all_from None entries.

(** *** Running a call against a store

    The store is anything that answers commands and has a state.  A run
    gives the commands sent, in order, how the call ended, and the state
    left behind. *)

Inductive Outcome (A : Type) :=
| Fulfilled (value : A)
| Rejected (reason : JsError)
| Threw (exn : JsError).
Arguments Fulfilled {A} value.
Arguments Rejected {A} reason.
Arguments Threw {A} exn.

Section Run.
Context {State : Type}.
Variable answer : forall R, Redis -> Cmd R -> State -> Reply R * State.

Fixpoint run {A} (p : Promise A) (st : State) : list Request * Outcome A * State :=
  match p with
  | Resolve a => ([], Fulfilled a, st)
  | Reject e => ([], Rejected e, st)
  | Throw e => ([], Threw e, st)
  | Send conn cmd k =>
      let '(r, st1) := answer _ conn cmd st in
      let '(sent, out, st2) := run (k r) st1 in
      (Req conn cmd :: sent, out, st2)
  end.
End Run.

(** [p.then(f)] on a promise: what [f] throws rejects the result. *)
Definition then_ {A B} (p : Promise A) (f : A -> Promise B) : Promise B :=
  bind p (fun a => try_catch (f a) Reject).

(** [multi.hset(...)], [multi.hincrby(...)]: the command joins the queue of
    the pipeline; nothing is sent. *)
Definition queue (multi : list Queued) (cmd : Queued) : list Queued :=
  (multi ++ [cmd])%list.

(** [multi.exec(callback)]: the transaction is sent and the callback gets
    [(err, results)]. *)
Definition exec_callback {A} (conn : Redis) (multi : list Queued)
    (callback : option JsError -> list (Reply Z) -> Promise A) : Promise A :=
  Send conn (EXEC multi) (fun r =>
    match r with
    | Failed err => callback (Some err) []
    | Ok results => callback None results
    end).

(** *** JSON

    [JSON.stringify] and [JSON.parse] belong to the platform.  The module
    passes responses through them and never looks inside a response, so
    the values and the codec are an interface.  Both functions can throw.
    The text of a value is never the empty string. *)
Class JSON (V : Type) := {
  JSON_stringify : V -> JsError + string;
  JSON_parse : string -> JsError + V;
  JSON_text_nonempty : forall v s, JSON_stringify v = inr s -> s <> "";
}.

Definition stringify `{JSON V} (v : V) : Promise string :=
  match JSON_stringify v with
  | inr s => Resolve s
  | inl e => Throw e
  end.

Definition parse `{JSON V} (s : string) : Promise V :=
  match JSON_parse s with
  | inr v => Resolve v
  | inl e => Throw e
  end.

(** ** class RedisManager: the state both revisions share *)

Definition DEFAULT_EXPIRY : Z := 3600.
Definition METRICS_DB : N := 1%N.

Record RedisManager := {
  _opsClient : option Redis;
  _metricsClient : option Redis;
  _isEnabled : bool;
}.

Definition isEnabled (this : RedisManager) : bool := _isEnabled this.

(** [new Redis()] connects to database 0. *)
Definition Redis_default : Redis := Redis_new 0%N.

(** A response's metrics: field name to number. *)
Abbreviation DeploymentMetrics := (gmap string number).

(** *** Plain objects used as maps

    [obj[key] = value] on an object that starts as the literal [{}], for a
    [value] that is not an object: the key becomes an own property, unless
    it is [__proto__]; that key reaches the setter [Object.prototype] has
    for it, which ignores a value that is neither an object nor [null], so
    nothing is stored and nothing is thrown. *)
Definition set_property {A} (key : string) (value : A) (obj : gmap string A)
    : gmap string A :=
  if decide (key = "__proto__") then obj else <[key := value]> obj.

(** [for (const key in source) body]: the body runs once for each
    enumerable property of the reply, with the key and with [source[key]]. *)
Definition for_in {A B} (source : gmap string A) (body : string -> A -> B -> B)
    (init : B) : B :=
  map_fold body init source.
Arguments for_in : simpl never.

(** ** class RedisManager, revision on Q promises ([redis-manager.ts]) *)

Module QManager.
Import Utilities.

(** The constructor creates both clients and enables the manager,
    whatever the environment. *)
Definition constructor_ : RedisManager :=
  {| _opsClient := Some Redis_default;
     _metricsClient := Some (Redis_new METRICS_DB);
     _isEnabled := true |}.

Definition checkHealth (this : RedisManager) : Promise unit :=
  if negb (isEnabled this) then Reject (Error_new "Redis manager is not enabled")
  else
    then_ (all [Method (_opsClient this) PING; Method (_metricsClient this) PING])
          (fun _ => Resolve tt).

Definition getCachedResponse `{JSON V} (this : RedisManager)
    (expiryKey url : string) : Promise (option V) :=
  if negb (isEnabled this) then Resolve None
  else
    Q_Promise
      (deref (_opsClient this) (fun ops =>
         try_catch
           (then_ (call ops (HGET expiryKey url)) (fun serialized =>
              match serialized with
              | Some s =>
                  if truthy s
                  then try_catch (bind (parse s) (fun v => Resolve (Some v)))
                                 (fun err => Reject err)
                  else Resolve None
              | None => Resolve None
              end))
           Reject)).

Definition setCachedResponse `{JSON V} (this : RedisManager)
    (expiryKey url : string) (response : V) : Promise unit :=
  if negb (isEnabled this) then Resolve tt
  else
    Q_Promise
      (try_catch
         (serialized ← stringify response;
          existed ← deref (_opsClient this) (fun ops => call ops (EXISTS expiryKey));
          let isNewKey := existed =? 0 in
          _ ← deref (_opsClient this) (fun ops =>
                call ops (HSET expiryKey url serialized));
          _ ← (if isNewKey
               then deref (_opsClient this) (fun ops =>
                      call ops (EXPIRE expiryKey DEFAULT_EXPIRY))
               else Resolve 0);
          Resolve tt)
         (fun err => Reject err)).

Definition incrementLabelStatusCount (this : RedisManager)
    (deploymentKey label status : string) : Promise unit :=
  if negb (isEnabled this) then Resolve tt
  else
    let hash := getDeploymentKeyLabelsHash deploymentKey in
    let field := getLabelStatusField label status in
    if negb (truthy_opt field) then Resolve tt
    else
      then_ (deref (_metricsClient this) (fun metrics =>
               call metrics (HINCRBY hash field 1)))
            (fun _ => Resolve tt).

Definition clearMetricsForDeploymentKey (this : RedisManager)
    (deploymentKey : string) : Promise unit :=
  if negb (isEnabled this) then Resolve tt
  else
    then_ (deref (_metricsClient this) (fun metrics =>
             call metrics (DEL [getDeploymentKeyLabelsHash deploymentKey;
                                getDeploymentKeyClientsHash deploymentKey])))
          (fun _ => Resolve tt).

Definition getMetricsWithDeploymentKey (this : RedisManager)
    (deploymentKey : string) : Promise (option DeploymentMetrics) :=
  if negb (isEnabled this) then Resolve None
  else
    Q_Promise
      (deref (_metricsClient this) (fun metrics =>
         try_catch
           (then_ (call metrics (HGETALL (getDeploymentKeyLabelsHash deploymentKey)))
                  (fun rawMetrics =>
                     let parsed : DeploymentMetrics := ∅ in
                     let parsed :=
                       for_in rawMetrics (fun key value parsed =>
                         set_property key (parseInt10 value) parsed) parsed in
                     Resolve (Some parsed)))
           Reject)).

Definition recordUpdate (this : RedisManager)
    (currentDeploymentKey currentLabel : string)
    (previousDeploymentKey previousLabel : option string) : Promise unit :=
  if negb (isEnabled this) then Resolve tt
  else
    deref (_metricsClient this) (fun metrics =>
      let multi : list Queued := [] in
      let currentHash := getDeploymentKeyLabelsHash currentDeploymentKey in
      let multi :=
        queue multi (Q_hincrby currentHash (getLabelActiveCountField currentLabel) 1) in
      let multi :=
        queue multi (Q_hincrby currentHash
                    (getLabelStatusField currentLabel DEPLOYMENT_SUCCEEDED) 1) in
      let multi :=
        match previousDeploymentKey, previousLabel with
        | Some previousKey, Some previous =>
            if truthy previousKey && truthy previous
            then
              let previousHash := getDeploymentKeyLabelsHash previousKey in
              queue multi (Q_hincrby previousHash (getLabelActiveCountField previous) (-1))
            else multi
        | _, _ => multi
        end in
      then_ (Q_Promise
               (exec_callback metrics multi (fun err results =>
                  match err with
                  | Some e => Reject e
                  | None => Resolve results
                  end)))
            (fun _ => Resolve tt)).

Definition removeDeploymentKeyClientActiveLabel (this : RedisManager)
    (deploymentKey clientUniqueId : string) : Promise unit :=
  if negb (isEnabled this) then Resolve tt
  else
    then_ (deref (_metricsClient this) (fun metrics =>
             call metrics (HDEL (getDeploymentKeyClientsHash deploymentKey)
                                clientUniqueId)))
          (fun _ => Resolve tt).

Definition invalidateCache (this : RedisManager) (expiryKey : string)
    : Promise unit :=
  if negb (isEnabled this) then Resolve tt
  else
    then_ (deref (_opsClient this) (fun ops => call ops (DEL [expiryKey])))
          (fun _ => Resolve tt).

Definition close (this : RedisManager) : Promise unit :=
  then_ (all [match _opsClient this with
              | Some ops => Method (Some ops) QUIT
              | None => Settled
              end;
              match _metricsClient this with
              | Some metrics => Method (Some metrics) QUIT
              | None => Settled
              end])
        (fun _ => Resolve tt).

(* deprecated *)
Definition getCurrentActiveLabel (this : RedisManager)
    (deploymentKey clientUniqueId : string) : Promise (option string) :=
  if negb (isEnabled this) then Resolve None
  else
    deref (_metricsClient this) (fun metrics =>
      call metrics (HGET (getDeploymentKeyClientsHash deploymentKey) clientUniqueId)).

(* deprecated *)
Definition updateActiveAppForClient (this : RedisManager)
    (deploymentKey clientUniqueId toLabel : string) (fromLabel : option string)
    : Promise unit :=
  if negb (isEnabled this) then Resolve tt
  else
    deref (_metricsClient this) (fun metrics =>
      let multi : list Queued := [] in
      let deploymentKeyClientsHash := getDeploymentKeyClientsHash deploymentKey in
      let deploymentKeyLabelsHash := getDeploymentKeyLabelsHash deploymentKey in
      let multi := queue multi (Q_hset deploymentKeyClientsHash clientUniqueId toLabel) in
      let multi :=
        queue multi (Q_hincrby deploymentKeyLabelsHash (getLabelActiveCountField toLabel) 1) in
      let multi :=
        match fromLabel with
        | Some from =>
            if truthy from
            then queue multi (Q_hincrby deploymentKeyLabelsHash
                             (getLabelActiveCountField from) (-1))
            else multi
        | None => multi
        end in
      then_ (Q_Promise
               (exec_callback metrics multi (fun err results =>
                  match err with
                  | Some e => Reject e
                  | None => Resolve results
                  end)))
            (fun _ => Resolve tt)).

End QManager.

(** ** class RedisManager, revision on [async]/[await] *)

Module AsyncManager.
Import Utilities.

(** The constructor creates the clients and enables the manager only when
    [REDIS_HOST] and [REDIS_PORT] are both set in the environment. *)
Definition constructor_ (REDIS_HOST REDIS_PORT : option string) : RedisManager :=
  if truthy_opt REDIS_HOST && truthy_opt REDIS_PORT
  then {| _opsClient := Some Redis_default;
          _metricsClient := Some (Redis_new METRICS_DB);
          _isEnabled := true |}
  else {| _opsClient := None; _metricsClient := None; _isEnabled := false |}.

Definition checkHealth (this : RedisManager) : Promise unit :=
  async
    (if negb (isEnabled this) then Throw (Error_new "Redis manager is not enabled")
     else
       _ ← all [Method (_opsClient this) PING; Method (_metricsClient this) PING];
       Resolve tt).

Definition getCachedResponse `{JSON V} (this : RedisManager)
    (expiryKey url : string) : Promise (option V) :=
  async
    (if negb (isEnabled this) then Resolve None
     else
       serialized ← deref (_opsClient this) (fun ops => call ops (HGET expiryKey url));
       match serialized with
       | Some s => if truthy s then v ← parse s; Resolve (Some v) else Resolve None
       | None => Resolve None
       end).

Definition setCachedResponse `{JSON V} (this : RedisManager)
    (expiryKey url : string) (response : V) : Promise unit :=
  async
    (if negb (isEnabled this) then Resolve tt
     else
       serialized ← stringify response;
       existed ← deref (_opsClient this) (fun ops => call ops (EXISTS expiryKey));
       let isNewKey := existed =? 0 in
       _ ← deref (_opsClient this) (fun ops => call ops (HSET expiryKey url serialized));
       if isNewKey
       then _ ← deref (_opsClient this) (fun ops =>
                  call ops (EXPIRE expiryKey DEFAULT_EXPIRY));
            Resolve tt
       else Resolve tt).

Definition incrementLabelStatusCount (this : RedisManager)
    (deploymentKey label status : string) : Promise unit :=
  async
    (if negb (isEnabled this) then Resolve tt
     else
       let hash := getDeploymentKeyLabelsHash deploymentKey in
       let field := getLabelStatusField label status in
       if truthy_opt field
       then _ ← deref (_metricsClient this) (fun metrics =>
                  call metrics (HINCRBY hash field 1));
            Resolve tt
       else Resolve tt).

Definition clearMetricsForDeploymentKey (this : RedisManager)
    (deploymentKey : string) : Promise unit :=
  async
    (if negb (isEnabled this) then Resolve tt
     else
       _ ← deref (_metricsClient this) (fun metrics =>
             call metrics (DEL [getDeploymentKeyLabelsHash deploymentKey;
                                getDeploymentKeyClientsHash deploymentKey]));
       Resolve tt).

Definition getMetricsWithDeploymentKey (this : RedisManager)
    (deploymentKey : string) : Promise (option DeploymentMetrics) :=
  async
    (if negb (isEnabled this) then Resolve None
     else
       rawMetrics ← deref (_metricsClient this) (fun metrics =>
                      call metrics (HGETALL (getDeploymentKeyLabelsHash deploymentKey)));
       let parsed : DeploymentMetrics := ∅ in
       let parsed :=
         for_in rawMetrics (fun key value parsed =>
           set_property key (parseInt10 value) parsed) parsed in
       Resolve (Some parsed)).

Definition recordUpdate (this : RedisManager)
    (currentDeploymentKey currentLabel : string)
    (previousDeploymentKey previousLabel : option string) : Promise unit :=
  async
    (if negb (isEnabled this) then Resolve tt
     else
       deref (_metricsClient this) (fun metrics =>
         let multi : list Queued := [] in
         let currentHash := getDeploymentKeyLabelsHash currentDeploymentKey in
         let multi :=
           queue multi (Q_hincrby currentHash (getLabelActiveCountField currentLabel) 1) in
         let multi :=
           queue multi (Q_hincrby currentHash
                          (getLabelStatusField currentLabel DEPLOYMENT_SUCCEEDED) 1) in
         let multi :=
           match previousDeploymentKey, previousLabel with
           | Some previousKey, Some previous =>
               if truthy previousKey && truthy previous
               then
                 let previousHash := getDeploymentKeyLabelsHash previousKey in
                 queue multi (Q_hincrby previousHash
                                (getLabelActiveCountField previous) (-1))
               else multi
           | _, _ => multi
           end in
         _ ← call metrics (EXEC multi);
         Resolve tt)).

Definition removeDeploymentKeyClientActiveLabel (this : RedisManager)
    (deploymentKey clientUniqueId : string) : Promise unit :=
  async
    (if negb (isEnabled this) then Resolve tt
     else
       _ ← deref (_metricsClient this) (fun metrics =>
             call metrics (HDEL (getDeploymentKeyClientsHash deploymentKey)
                                clientUniqueId));
       Resolve tt).

Definition invalidateCache (this : RedisManager) (expiryKey : string)
    : Promise unit :=
  async
    (if negb (isEnabled this) then Resolve tt
     else
       _ ← deref (_opsClient this) (fun ops => call ops (DEL [expiryKey]));
       Resolve tt).

Definition close (this : RedisManager) : Promise unit :=
  async
    (_ ← match _opsClient this with
         | Some ops => _ ← call ops QUIT; Resolve tt
         | None => Resolve tt
         end;
     _ ← match _metricsClient this with
         | Some metrics => _ ← call metrics QUIT; Resolve tt
         | None => Resolve tt
         end;
     Resolve tt).

(* deprecated *)
Definition getCurrentActiveLabel (this : RedisManager)
    (deploymentKey clientUniqueId : string) : Promise (option string) :=
  async
    (if negb (isEnabled this) then Resolve None
     else
       deref (_metricsClient this) (fun metrics =>
         call metrics (HGET (getDeploymentKeyClientsHash deploymentKey)
                            clientUniqueId))).

(* deprecated *)
Definition updateActiveAppForClient (this : RedisManager)
    (deploymentKey clientUniqueId toLabel : string) (fromLabel : option string)
    : Promise unit :=
  async
    (if negb (isEnabled this) then Resolve tt
     else
       deref (_metricsClient this) (fun metrics =>
         let multi : list Queued := [] in
         let deploymentKeyClientsHash := getDeploymentKeyClientsHash deploymentKey in
         let deploymentKeyLabelsHash := getDeploymentKeyLabelsHash deploymentKey in
         let multi :=
           queue multi (Q_hset deploymentKeyClientsHash clientUniqueId toLabel) in
         let multi :=
           queue multi (Q_hincrby deploymentKeyLabelsHash
                          (getLabelActiveCountField toLabel) 1) in
         let multi :=
           match fromLabel with
           | Some from =>
               if truthy from
               then queue multi (Q_hincrby deploymentKeyLabelsHash
                                   (getLabelActiveCountField from) (-1))
               else multi
           | None => multi
           end in
         _ ← call metrics (EXEC multi);
         Resolve tt)).

End AsyncManager.

(** ** The store (Redis server)

    The server is not part of the repository.  This is what it does with
    the commands above, after its documentation, as far as this module can
    tell: a database maps keys to hashes (the only type of value the
    module creates) and some keys to a remaining time to live, in
    seconds.  The connection never fails here; commands the server
    refuses are answered with an error reply. *)

Record Db := mkDb {
  hashes : gmap string (gmap string string);
  ttl : gmap string Z;
}.

Definition empty_db : Db := mkDb ∅ ∅.

Abbreviation Server := (gmap N Db).

Definition database (srv : Server) (index : N) : Db :=
  default empty_db (srv !! index).

(** The client writes a [null] or [undefined] argument as the empty
    string. *)
Definition toArg (arg : option string) : string := default "" arg.

(** Counters are stored in decimal; the server reads back only the
    canonical form of a signed 64-bit integer. *)
Definition LLONG_MIN : Z := - 2 ^ 63.
Definition LLONG_MAX : Z := 2 ^ 63 - 1.

Definition ll2string (z : Z) : string := NilZero.string_of_int (Z.to_int z).

Definition string2ll (s : string) : option Z :=
  match NilZero.int_of_string s with
  | Some d =>
      let z := Z.of_int d in
      if String.eqb (ll2string z) s && (LLONG_MIN <=? z) && (z <=? LLONG_MAX)
      then Some z else None
  | None => None
  end.

Definition ReplyError (message : string) : JsError := mkError "ReplyError" message.

Definition hash_at (d : Db) (key : string) : gmap string string :=
  default ∅ (hashes d !! key).

Definition remove_key (key : string) (d : Db) : Db :=
  mkDb (delete key (hashes d)) (delete key (ttl d)).

Definition hset (key field value : string) (d : Db) : Reply Z * Db :=
  let h := hash_at d key in
  (Ok (if h !! field is Some _ then 0 else 1),
   mkDb (<[key := <[field := value]> h]> (hashes d)) (ttl d)).

Definition hincrby (key field : string) (increment : Z) (d : Db) : Reply Z * Db :=
  let h := hash_at d key in
  match (match h !! field with Some s => string2ll s | None => Some 0 end) with
  | None => (Failed (ReplyError "ERR hash value is not an integer"), d)
  | Some value =>
      let value' := value + increment in
      if (LLONG_MIN <=? value') && (value' <=? LLONG_MAX)
      then (Ok value',
            mkDb (<[key := <[field := ll2string value']> h]> (hashes d)) (ttl d))
      else (Failed (ReplyError "ERR increment or decrement would overflow"), d)
  end.

Definition hdel (key field : string) (d : Db) : Reply Z * Db :=
  let h := hash_at d key in
  match h !! field with
  | None => (Ok 0, d)
  | Some _ =>
      let h' := delete field h in
      (Ok 1,
       if decide (h' = ∅) then remove_key key d
       else mkDb (<[key := h']> (hashes d)) (ttl d))
  end.

Definition exists_ (key : string) (d : Db) : Z :=
  if hashes d !! key is Some _ then 1 else 0.

Definition expire (key : string) (seconds : Z) (d : Db) : Reply Z * Db :=
  match hashes d !! key with
  | None => (Ok 0, d)
  | Some _ =>
      (Ok 1,
       if seconds <=? 0 then remove_key key d
       else mkDb (hashes d) (<[key := seconds]> (ttl d)))
  end.

Fixpoint del (keys : list string) (d : Db) : Z * Db :=
  match keys with
  | [] => (0, d)
  | key :: rest =>
      let '(n, d') := del rest (remove_key key d) in
      (exists_ key d + n, d')
  end.

Definition queued_exec (q : Queued) (d : Db) : Reply Z * Db :=
  match q with
  | Q_hset key field value => hset key field value d
  | Q_hincrby key field increment => hincrby key (toArg field) increment d
  end.

(** A transaction runs its commands one after the other with nothing in
    between, and answers with one reply for each.  A command that fails
    does not undo or stop the others. *)
Fixpoint exec (queued : list Queued) (d : Db) : list (Reply Z) * Db :=
  match queued with
  | [] => ([], d)
  | q :: rest =>
      let '(r, d1) := queued_exec q d in
      let '(rs, d2) := exec rest d1 in
      (r :: rs, d2)
  end.

Definition db_answer {R} (cmd : Cmd R) (d : Db) : Reply R * Db :=
  match cmd in Cmd R return Reply R * Db with
  | PING => (Ok "PONG", d)
  | QUIT => (Ok "OK", d)
  | HGET key field => (Ok (hash_at d key !! field), d)
  | HSET key field value => hset key field value d
  | HGETALL key => (Ok (hash_at d key), d)
  | HINCRBY key field increment => hincrby key (toArg field) increment d
  | HDEL key field => hdel key field d
  | EXISTS key => (Ok (exists_ key d), d)
  | EXPIRE key seconds => expire key seconds d
  | DEL keys => let '(n, d') := del keys d in (Ok n, d')
  | EXEC queued => let '(rs, d') := exec queued d in (Ok rs, d')
  end.

Definition redis (R : Type) (conn : Redis) (cmd : Cmd R) (srv : Server)
    : Reply R * Server :=
  let '(r, d) := db_answer cmd (database srv (db conn)) in
  (r, <[db conn := d]> srv).

(** Time passing: keys whose time to live runs out disappear, the others
    have less of it left. *)
Definition expired (seconds : Z) (d : Db) (key : string) : bool :=
  match ttl d !! key with
  | Some t => t <=? seconds
  | None => false
  end.

Definition elapse (seconds : Z) (d : Db) : Db :=
  mkDb (filter (fun kv => expired seconds d kv.1 = false) (hashes d))
       ((fun t => t - seconds) <$>
          filter (fun kv => expired seconds d kv.1 = false) (ttl d)).

(** * Notions the properties are stated with *)

(** ** A concrete JSON codec

    Responses with an integer status code and a null body, written the way
    [JSON.stringify] writes them: [{"statusCode":200,"body":null}].  The
    parser accepts the texts of that shape and throws on the others.  It
    serves where a property is instantiated. *)

Module StatusResponse.

Definition dquote : string := String "034"%char "".

Definition opening : string := "{" +:+ dquote +:+ "statusCode" +:+ dquote +:+ ":".
Definition closing : string := "," +:+ dquote +:+ "body" +:+ dquote +:+ ":null}".

Fixpoint strip_prefix (prefix s : string) : option string :=
  match prefix, s with
  | EmptyString, _ => Some s
  | String a prefix', String b s' =>
      if Ascii.eqb a b then strip_prefix prefix' s' else None
  | String _ _, EmptyString => None
  end.

Fixpoint until_comma (s : string) : string * string :=
  match s with
  | EmptyString => (EmptyString, EmptyString)
  | String c t =>
      if Ascii.eqb c ","%char then (EmptyString, s)
      else let '(a, b) := until_comma t in (String c a, b)
  end.

Definition SyntaxError : JsError := mkError "SyntaxError" "Unexpected token".

Definition to_text (statusCode : Z) : JsError + string :=
  inr (opening +:+ NilZero.string_of_int (Z.to_int statusCode) +:+ closing).

Definition of_text (s : string) : JsError + Z :=
  match strip_prefix opening s with
  | None => inl SyntaxError
  | Some rest =>
      let '(digits, tail) := until_comma rest in
      if String.eqb tail closing
      then match NilZero.int_of_string digits with
           | Some d => inr (Z.of_int d)
           | None => inl SyntaxError
           end
      else inl SyntaxError
  end.

#[global] Instance codec : JSON Z :=
  {| JSON_stringify := to_text;
     JSON_parse := of_text;
     JSON_text_nonempty :=
       ltac:(intros v s [= <-]; cbv [opening String.append]; discriminate) |}.

End StatusResponse.

(** ** JSON as the platform has it

    [JSON.stringify] and [JSON.parse] after ECMA-262, on the values that
    are plain data: [null], booleans, Numbers, strings, arrays and plain
    objects of these.  Numbers are IEEE doubles, written by
    [Number::toString] (the shortest decimal that reads back as the
    Number) and read by the correct rounding of the decimal; strings are
    written by [QuoteJSONString] and read with their escapes; an object is
    its members in the order of its properties (array indices ascending,
    then the other keys in the order of their creation).  What
    [JSON.stringify] leaves out or turns into [null] ([undefined],
    functions, symbols) is no value here, and neither is an object with a
    [toJSON] method. *)

Module Json.

(** *** Numbers

    A Number is an IEEE double: [NaN], an infinity, a zero of either sign,
    or [mantissa * 2 ^ exponent] with a sign, where either
    [2^52 <= mantissa < 2^53] and [-1074 <= exponent <= 971], or
    [mantissa < 2^52] and [exponent = -1074]. *)
Inductive double :=
| Not_a_number
| Infinite (negative : bool)
| Zero (negative : bool)
| Finite (negative : bool) (mantissa : positive) (exponent : Z).

#[global] Instance double_eq_dec : EqDecision double.
Proof. solve_decision. Defined.

(** [floor (log2 (p / q))] for positive [p] and [q]. *)
Definition binade (p q : Z) : Z :=
  let l := Z.log2 p - Z.log2 q in
  if (if 0 <=? l then q * 2 ^ l <=? p else q <=? p * 2 ^ (- l)) then l else l - 1.

(** The Number value for the positive rational [p / q]: the double
    nearest to it, the one with an even mantissa when two are as near;
    an infinity from [2^1024 - 2^970] on. *)
Definition round_ratio (negative : bool) (p q : Z) : double :=
  let e := Z.max (binade p q - 52) (-1074) in
  let num := if 0 <=? e then p else p * 2 ^ (- e) in
  let den := if 0 <=? e then q * 2 ^ e else q in
  let m := num / den in
  let r := num mod den in
  let m := if (den <? 2 * r) || ((2 * r =? den) && Z.odd m) then m + 1 else m in
  let e := if m =? 2 ^ 53 then e + 1 else e in
  let m := if m =? 2 ^ 53 then 2 ^ 52 else m in
  if m =? 0 then Zero negative
  else if 971 <? e then Infinite negative
  else Finite negative (Z.to_pos m) e.

(** The Number value for [s * 10 ^ t]. *)
Definition round_decimal (negative : bool) (s : N) (t : Z) : double :=
  if (s =? 0)%N then Zero negative
  else if 0 <=? t then round_ratio negative (Z.of_N s * 10 ^ t) 1
  else round_ratio negative (Z.of_N s) (10 ^ (- t)).


(** The decimal digits of a positive integer, most significant first. *)
Fixpoint digits_from (fuel : nat) (n : N) (rest : string) : string :=
  let rest := String (ascii_of_N (48 + n mod 10)) rest in
  match fuel with
  | O => rest
  | S fuel => if (n / 10 =? 0)%N then rest else digits_from fuel (n / 10) rest
  end.

Definition digits (n : N) : string := digits_from (N.to_nat (N.log2 n)) n "".

Fixpoint zeros (n : nat) : string :=
  match n with
  | O => ""
  | S n => String "0" (zeros n)
  end.

(** The first [n] characters and the others. *)
Fixpoint split_at (n : nat) (s : string) : string * string :=
  match n, s with
  | S n, String c t => let '(a, b) := split_at n t in (String c a, b)
  | _, _ => ("", s)
  end.

(** [Number::toString], steps 5 to 11, for [s * 10 ^ t] where [s] has the
    digits [ds], the last of them not 0: with [k] the number of digits and
    [n = k + t], the digits followed by zeros, or with a point inside, or
    after [0.] and zeros, or in exponential notation. *)
Definition format (ds : string) (t : Z) : string :=
  let k := Z.of_nat (String.length ds) in
  let n := k + t in
  if (k <=? n) && (n <=? 21) then ds +:+ zeros (Z.to_nat (n - k))
  else if (0 <? n) && (n <=? 21) then
    let '(int, frac) := split_at (Z.to_nat n) ds in int +:+ "." +:+ frac
  else if (-6 <? n) && (n <=? 0) then "0." +:+ zeros (Z.to_nat (- n)) +:+ ds
  else
    let e := n - 1 in
    let exponent :=
      "e" +:+ (if 0 <=? e then "+" else "-") +:+ digits (Z.to_N (Z.abs e)) in
    match ds with
    | String d EmptyString => ds +:+ exponent
    | String d more => String d ("." +:+ more) +:+ exponent
    | EmptyString => exponent
    end.

(** [s] is not 0, is not divisible by 10, and [s * 10 ^ t] has the Number
    value [x]. *)
Definition fits (x : double) (t : Z) (s : N) : bool :=
  negb (s =? 0)%N && negb (s mod 10 =? 0)%N
  && bool_decide (round_decimal false s t = x).

(** A candidate for step 5 of [Number::toString]: an integer [s], not
    divisible by 10, next to [x / 10 ^ t], for which [s * 10 ^ t] has the
    Number value [x]; when both neighbours will do, the nearer, the even
    one when they are as near. *)
Definition candidate (x : double) (num den : Z) (t : Z) : option N :=
  let lo := Z.to_N (num / den) in
  let hi := (lo + 1)%N in
  let r := num mod den in
  match fits x t lo, fits x t hi with
  | true, true =>
      if (2 * r <? den) || ((2 * r =? den) && N.even lo) then Some lo else Some hi
  | true, false => Some lo
  | false, true => Some hi
  | false, false => None
  end.

(** The search for the shortest such decimal: exponents are tried from
    above, so that the first candidate found has the fewest digits. *)
Fixpoint search (fuel : nat) (x : double) (p q : Z) (t : Z) : option (N * Z) :=
  match fuel with
  | O => None
  | S fuel =>
      let num := if 0 <=? t then p else p * 10 ^ (- t) in
      let den := if 0 <=? t then q * 10 ^ t else q in
      match candidate x num den t with
      | Some s => Some (s, t)
      | None => search fuel x p q (t - 1)
      end
  end.

(** [m * 2 ^ e] written out in full, for the case that the search ends
    without a candidate (it does not, for a double: seventeen digits are
    always enough). *)
Definition exact_decimal (m : positive) (e : Z) : N * Z :=
  if 0 <=? e then (Z.to_N (Z.pos m * 2 ^ e), 0)
  else (Z.to_N (Z.pos m * 5 ^ (- e)), e).

Definition shortest_decimal (m : positive) (e : Z) : option (N * Z) :=
  let p := if 0 <=? e then Z.pos m * 2 ^ e else Z.pos m in
  let q := if 0 <=? e then 1 else 2 ^ (- e) in
  let t0 := Z.of_nat (String.length (digits (Z.to_N (p / q)))) in
  search (Z.to_nat (t0 + 345)) (Finite false m e) p q t0.

(** [JSON.stringify] of a Number: [null] for what is not finite, and
    [Number::toString] otherwise, where both zeros are [0]. *)
Definition number_text (x : double) : string :=
  match x with
  | Not_a_number | Infinite _ => "null"
  | Zero _ => "0"
  | Finite negative m e =>
      let '(s, t) := default (exact_decimal m e) (shortest_decimal m e) in
      (if negative then "-" else "") +:+ format (digits s) t
  end.


(** *** Reading a number

    [JSONNumber]: an optional minus, [0] or digits that do not start with
    0, an optional fraction, an optional exponent.  The value is the
    Number value of the decimal. *)
Definition is_digit (c : ascii) : bool :=
  let n := N_of_ascii c in ((48 <=? n) && (n <=? 57))%N.

Fixpoint span_digits (s : string) : string * string :=
  match s with
  | String c t =>
      if is_digit c then let '(a, b) := span_digits t in (String c a, b)
      else ("", s)
  | EmptyString => ("", "")
  end.

Fixpoint digits_value (s : string) (acc : N) : N :=
  match s with
  | EmptyString => acc
  | String c t => digits_value t (10 * acc + (N_of_ascii c - 48))%N
  end.

(** The digits without the zeros at the end, and how many there were. *)
Fixpoint strip_trailing_zeros (s : string) : string * nat :=
  match s with
  | EmptyString => ("", O)
  | String c t =>
      let '(t', n) := strip_trailing_zeros t in
      match t' with
      | EmptyString => if Ascii.eqb c "0" then ("", S n) else (String c "", n)
      | _ => (String c t', n)
      end
  end.

Definition parse_fraction (s : string) : option (string * string) :=
  match s with
  | String c t =>
      if Ascii.eqb c "." then
        let '(frac, rest) := span_digits t in
        match frac with
        | EmptyString => None
        | _ => Some (frac, rest)
        end
      else Some ("", s)
  | EmptyString => Some ("", s)
  end.

Definition parse_exponent_digits (negative : bool) (s : string) : option (Z * string) :=
  let '(ds, rest) := span_digits s in
  match ds with
  | EmptyString => None
  | _ => let e := Z.of_N (digits_value ds 0) in Some (if negative then - e else e, rest)
  end.

Definition parse_exponent (s : string) : option (Z * string) :=
  match s with
  | String c t =>
      if Ascii.eqb c "e" || Ascii.eqb c "E" then
        match t with
        | String sign u =>
            if Ascii.eqb sign "-" then parse_exponent_digits true u
            else if Ascii.eqb sign "+" then parse_exponent_digits false u
            else parse_exponent_digits false t
        | EmptyString => None
        end
      else Some (0, s)
  | EmptyString => Some (0, s)
  end.

(** [0] followed by more digits. *)
Definition leading_zero (int : string) : bool :=
  match int with
  | String c (String _ _) => Ascii.eqb c "0"
  | _ => false
  end.

Definition parse_unsigned (negative : bool) (s : string) : option (double * string) :=
  let '(int, s) := span_digits s in
  match int with
  | EmptyString => None
  | _ =>
      if leading_zero int then None
      else
        match parse_fraction s with
        | None => None
        | Some (frac, s) =>
            match parse_exponent s with
            | None => None
            | Some (e, s) =>
                let '(ds, zeros) := strip_trailing_zeros (int +:+ frac) in
                Some (round_decimal negative (digits_value ds 0)
                        (e - Z.of_nat (String.length frac) + Z.of_nat zeros),
                      s)
            end
        end
  end.

Definition parse_number (s : string) : option (double * string) :=
  match s with
  | String c t =>
      if Ascii.eqb c "-" then parse_unsigned true t else parse_unsigned false s
  | EmptyString => None
  end.

(** *** Strings

    A string is the sequence of the bytes of its UTF-8 encoding, as
    everywhere in this development.  [QuoteJSONString] escapes the double
    quote, the backslash and the control characters, the usual ones by
    their letter and the others as [\u00xx], and copies the rest. *)
Definition dquote : ascii := "034".
Definition backslash : ascii := "092".

Definition hex_digit (n : N) : ascii :=
  if (n <? 10)%N then ascii_of_N (48 + n) else ascii_of_N (87 + n).

Definition unicode_escape (c : ascii) : string :=
  let n := N_of_ascii c in
  String backslash
    (String "u" (String "0" (String "0"
       (String (hex_digit (n / 16)) (String (hex_digit (n mod 16)) ""))))).

Definition quote_char (c : ascii) : string :=
  if Ascii.eqb c "008" then String backslash "b"
  else if Ascii.eqb c "009" then String backslash "t"
  else if Ascii.eqb c "010" then String backslash "n"
  else if Ascii.eqb c "012" then String backslash "f"
  else if Ascii.eqb c "013" then String backslash "r"
  else if Ascii.eqb c dquote then String backslash (String dquote "")
  else if Ascii.eqb c backslash then String backslash (String backslash "")
  else if (N_of_ascii c <? 32)%N then unicode_escape c
  else String c "".

Fixpoint quote_chars (s : string) : string :=
  match s with
  | EmptyString => ""
  | String c t => quote_char c +:+ quote_chars t
  end.

Definition quote (s : string) : string :=
  String dquote (quote_chars s +:+ String dquote "").

(** Reading a [JSONString] after its opening quote: up to the closing
    quote, with the escapes [JSON.parse] knows; a control character that
    is not escaped is an error.  A [\uXXXX] escape is a UTF-16 code unit;
    it is written as the UTF-8 bytes of its code point, two escapes that
    are a surrogate pair as the four bytes of theirs. *)
Definition hex_value (c : ascii) : option N :=
  let n := N_of_ascii c in
  if ((48 <=? n) && (n <=? 57))%N then Some (n - 48)%N
  else if ((65 <=? n) && (n <=? 70))%N then Some (n - 55)%N
  else if ((97 <=? n) && (n <=? 102))%N then Some (n - 87)%N
  else None.

Definition hex4 (a b c d : ascii) : option N :=
  match hex_value a, hex_value b, hex_value c, hex_value d with
  | Some a, Some b, Some c, Some d => Some (((a * 16 + b) * 16 + c) * 16 + d)%N
  | _, _, _, _ => None
  end.

Definition utf8 (cp : N) : string :=
  let byte (n : N) := ascii_of_N n in
  (if cp <? 128 then String (byte cp) ""
   else if cp <? 2048 then
     String (byte (192 + cp / 64)) (String (byte (128 + cp mod 64)) "")
   else if cp <? 65536 then
     String (byte (224 + cp / 4096))
       (String (byte (128 + (cp / 64) mod 64)) (String (byte (128 + cp mod 64)) ""))
   else
     String (byte (240 + cp / 262144))
       (String (byte (128 + (cp / 4096) mod 64))
          (String (byte (128 + (cp / 64) mod 64))
             (String (byte (128 + cp mod 64)) ""))))%N.

Definition is_high_surrogate (u : N) : bool := ((55296 <=? u) && (u <=? 56319))%N.
Definition is_low_surrogate (u : N) : bool := ((56320 <=? u) && (u <=? 57343))%N.

Definition simple_escape (c : ascii) : option ascii :=
  if Ascii.eqb c dquote then Some dquote
  else if Ascii.eqb c backslash then Some backslash
  else if Ascii.eqb c "/" then Some "/"%char
  else if Ascii.eqb c "b" then Some "008"%char
  else if Ascii.eqb c "f" then Some "012"%char
  else if Ascii.eqb c "n" then Some "010"%char
  else if Ascii.eqb c "r" then Some "013"%char
  else if Ascii.eqb c "t" then Some "009"%char
  else None.

Definition prepend (front : string) (r : option (string * string))
    : option (string * string) :=
  match r with
  | Some (s, rest) => Some (front +:+ s, rest)
  | None => None
  end.

Fixpoint unquote (s : string) : option (string * string) :=
  match s with
  | EmptyString => None
  | String c t =>
      if Ascii.eqb c dquote then Some ("", t)
      else if Ascii.eqb c backslash then
        match t with
        | String e u =>
            if Ascii.eqb e "u" then
              match u with
              | String h1 (String h2 (String h3 (String h4 v))) =>
                  match hex4 h1 h2 h3 h4 with
                  | Some unit =>
                      if is_high_surrogate unit then
                        match v with
                        | String b (String e' (String l1 (String l2 (String l3 (String l4 w))))) =>
                            match hex4 l1 l2 l3 l4 with
                            | Some low =>
                                if Ascii.eqb b backslash && Ascii.eqb e' "u"
                                   && is_low_surrogate low
                                then
                                  prepend
                                    (utf8 (65536 + (unit - 55296) * 1024 + (low - 56320)))
                                    (unquote w)
                                else prepend (utf8 unit) (unquote v)
                            | None => prepend (utf8 unit) (unquote v)
                            end
                        | _ => prepend (utf8 unit) (unquote v)
                        end
                      else prepend (utf8 unit) (unquote v)
                  | None => None
                  end
              | _ => None
              end
            else
              match simple_escape e with
              | Some x => prepend (String x "") (unquote u)
              | None => None
              end
        | EmptyString => None
        end
      else if (N_of_ascii c <? 32)%N then None
      else prepend (String c "") (unquote t)
  end.

(** *** Values

    What [JSON.parse] can give and [JSON.stringify] takes without a
    [toJSON] or a replacer: [null], the booleans, the Numbers, the strings,
    arrays, and objects, whose members are in the order JavaScript keeps
    the properties of an object in. *)
#[warnings="-register-all"]
Inductive value :=
| JNull
| JBool (b : bool)
| JNumber (x : double)
| JString (s : string)
| JArray (elements : list value)
| JObject (members : list (string * value)).

Fixpoint join (texts : list string) : string :=
  match texts with
  | [] => ""
  | [t] => t
  | t :: rest => t +:+ "," +:+ join rest
  end.

(** [JSON.stringify(v)], with no indentation. *)
Fixpoint print (v : value) : string :=
  match v with
  | JNull => "null"
  | JBool true => "true"
  | JBool false => "false"
  | JNumber x => number_text x
  | JString s => quote s
  | JArray elements => "[" +:+ join (map print elements) +:+ "]"
  | JObject members =>
      "{" +:+ join (map (fun m => quote m.1 +:+ ":" +:+ print m.2) members) +:+ "}"
  end.

(** *** Objects: the order of the properties

    A key is an array index when it is the decimal numeral, without
    leading zeros, of an integer below [2^32 - 1].  An object keeps its
    array indices first, in ascending order, and the other keys after
    them in the order of their creation.  [obj[key] = v] replaces the
    value of a key that is there, in place. *)
Fixpoint all_digitsb (s : string) : bool :=
  match s with
  | EmptyString => true
  | String c t => is_digit c && all_digitsb t
  end.

Definition array_index (key : string) : option N :=
  match key with
  | EmptyString => None
  | _ =>
      if all_digitsb key && negb (leading_zero key)
         && (digits_value key 0 <? 2 ^ 32 - 1)%N
      then Some (digits_value key 0)
      else None
  end.

Fixpoint insert_index (key : string) (i : N) (v : value)
    (members : list (string * value)) : list (string * value) :=
  match members with
  | [] => [(key, v)]
  | m :: rest =>
      match array_index m.1 with
      | Some j => if (j <? i)%N then m :: insert_index key i v rest
                  else (key, v) :: members
      | None => (key, v) :: members
      end
  end.

Definition set_member (key : string) (v : value) (members : list (string * value))
    : list (string * value) :=
  if existsb (fun m => String.eqb key m.1) members
  then map (fun m => if String.eqb key m.1 then (key, v) else m) members
  else
    match array_index key with
    | Some i => insert_index key i v members
    | None => (members ++ [(key, v)])%list
    end.

(** *** [JSON.parse] *)
Definition is_white_space (c : ascii) : bool :=
  Ascii.eqb c " " || Ascii.eqb c "009" || Ascii.eqb c "010" || Ascii.eqb c "013".

Fixpoint skip_ws (s : string) : string :=
  match s with
  | String c t => if is_white_space c then skip_ws t else s
  | EmptyString => ""
  end.

Fixpoint after (word s : string) : option string :=
  match word, s with
  | EmptyString, _ => Some s
  | String a word, String b s => if Ascii.eqb a b then after word s else None
  | String _ _, EmptyString => None
  end.

Definition literal (word : string) (v : value) (s : string) : option (value * string) :=
  match after word s with
  | Some rest => Some (v, rest)
  | None => None
  end.

(** The parser goes down one unit of [fuel] with every value, element and
    member it starts on; the length of the text is enough. *)
Fixpoint parse_value (fuel : nat) (s : string) : option (value * string) :=
  match fuel with
  | O => None
  | S fuel =>
      match skip_ws s with
      | EmptyString => None
      | String c t =>
          if Ascii.eqb c "n" then literal "null" JNull (String c t)
          else if Ascii.eqb c "t" then literal "true" (JBool true) (String c t)
          else if Ascii.eqb c "f" then literal "false" (JBool false) (String c t)
          else if Ascii.eqb c dquote then
            match unquote t with
            | Some (x, rest) => Some (JString x, rest)
            | None => None
            end
          else if Ascii.eqb c "[" then
            match skip_ws t with
            | EmptyString => None
            | String c' t' =>
                if Ascii.eqb c' "]" then Some (JArray [], t')
                else parse_elements fuel [] t
            end
          else if Ascii.eqb c "{" then
            match skip_ws t with
            | EmptyString => None
            | String c' t' =>
                if Ascii.eqb c' "}" then Some (JObject [], t')
                else parse_members fuel [] t
            end
          else
            match parse_number (String c t) with
            | Some (x, rest) => Some (JNumber x, rest)
            | None => None
            end
      end
  end
with parse_elements (fuel : nat) (seen : list value) (s : string)
    : option (value * string) :=
  match fuel with
  | O => None
  | S fuel =>
      match parse_value fuel s with
      | None => None
      | Some (v, rest) =>
          match skip_ws rest with
          | EmptyString => None
          | String c t =>
              if Ascii.eqb c "," then parse_elements fuel (v :: seen) t
              else if Ascii.eqb c "]" then Some (JArray (rev (v :: seen)), t)
              else None
          end
      end
  end
with parse_members (fuel : nat) (seen : list (string * value)) (s : string)
    : option (value * string) :=
  match fuel with
  | O => None
  | S fuel =>
      match skip_ws s with
      | EmptyString => None
      | String c t =>
          if Ascii.eqb c dquote then
            match unquote t with
            | None => None
            | Some (key, rest) =>
                match skip_ws rest with
                | EmptyString => None
                | String c' t' =>
                    if Ascii.eqb c' ":" then
                      match parse_value fuel t' with
                      | None => None
                      | Some (v, rest') =>
                          match skip_ws rest' with
                          | EmptyString => None
                          | String c'' t'' =>
                              if Ascii.eqb c'' "," then
                                parse_members fuel (set_member key v seen) t''
                              else if Ascii.eqb c'' "}" then
                                Some (JObject (set_member key v seen), t'')
                              else None
                          end
                      end
                    else None
                end
            end
          else None
      end
  end.

Definition parse (text : string) : option value :=
  match parse_value (S (String.length text)) text with
  | Some (v, rest) =>
      match skip_ws rest with
      | EmptyString => Some v
      | _ => None
      end
  | None => None
  end.

(** The Number for an integer (the nearest double when it is too large to
    be held exactly). *)
Definition integer (z : Z) : double :=
  round_decimal (z <? 0) (Z.to_N (Z.abs z)) 0.

(** The Numbers that [JSON.stringify] writes as themselves: the positive
    zero, and the finite ones for which the search of [Number::toString]
    ends with a decimal (as it does for every double). *)
Definition printable (x : double) : Prop :=
  match x with
  | Zero negative => negative = false
  | Finite _ m e => is_Some (shortest_decimal m e)
  | _ => False
  end.

(** *** The values [JSON.stringify] and [JSON.parse] carry unchanged

    A later key is in its place after an earlier one when the two differ
    and the later is not an array index that belongs before the
    earlier. *)
Definition follows (k k' : string) : Prop :=
  k <> k'
  /\ match array_index k, array_index k' with
     | Some i, Some j => (i < j)%N
     | None, Some _ => False
     | _, None => True
     end.

Fixpoint ordered_keys (keys : list string) : Prop :=
  match keys with
  | [] => True
  | k :: rest => Forall (follows k) rest /\ ordered_keys rest
  end.

(** A value is serializable when its Numbers are, and the members of its
    objects are in the order of the properties of an object. *)
Fixpoint serializable (v : value) : Prop :=
  match v with
  | JNumber x => printable x
  | JArray elements => fold_right (fun x rest => serializable x /\ rest) True elements
  | JObject members =>
      ordered_keys (map fst members)
      /\ fold_right (fun m rest => serializable m.2 /\ rest) True members
  | _ => True
  end.

(** The fuel the parser needs for a value. *)
Fixpoint size (v : value) : nat :=
  match v with
  | JArray elements => S (fold_right (fun x n => S (size x) + n)%nat O elements)
  | JObject members => S (fold_right (fun m n => S (size m.2) + n)%nat O members)
  | _ => 1%nat
  end.

(** *** Notions for the facts about the codec *)

Fixpoint all_digits (s : string) : Prop :=
  match s with
  | EmptyString => True
  | String c t => is_digit c = true /\ all_digits t
  end.

(** The text goes on with something that is not a digit. *)
Definition no_digit_ahead (s : string) : Prop :=
  match s with
  | EmptyString => True
  | String c _ => is_digit c = false
  end.

(** The text after a number: none of the characters a number goes on
    with. *)
Definition number_ends (s : string) : Prop :=
  match s with
  | EmptyString => True
  | String c _ =>
      is_digit c = false /\ Ascii.eqb c "." = false
      /\ Ascii.eqb c "e" = false /\ Ascii.eqb c "E" = false
  end.

(** What the round trip needs of a value, for the induction. *)
Definition reads_back (v : value) : Prop :=
  serializable v ->
  forall fuel rest,
    (size v <= fuel)%nat -> number_ends rest ->
    parse_value fuel (print v +:+ rest) = Some (v, rest).

(** Induction on values, through the lists of elements and members. *)
Section value_induction.
Variable P : value -> Prop.
Hypothesis Hnull : P JNull.
Hypothesis Hbool : forall b, P (JBool b).
Hypothesis Hnumber : forall x, P (JNumber x).
Hypothesis Hstring : forall s, P (JString s).
Hypothesis Harray : forall elements, Forall P elements -> P (JArray elements).
Hypothesis Hobject : forall members, Forall (fun m => P m.2) members -> P (JObject members).

Fixpoint value_induction (v : value) : P v :=
  match v with
  | JNull => Hnull
  | JBool b => Hbool b
  | JNumber x => Hnumber x
  | JString s => Hstring s
  | JArray elements =>
      Harray elements
        ((fix all (l : list value) : Forall P l :=
            match l with
            | [] => @List.Forall_nil _ P
            | x :: rest => @List.Forall_cons _ P x rest (value_induction x) (all rest)
            end) elements)
  | JObject members =>
      Hobject members
        ((fix all (l : list (string * value)) : Forall (fun m => P m.2) l :=
            match l with
            | [] => @List.Forall_nil _ _
            | m :: rest => @List.Forall_cons _ _ m rest (value_induction m.2) (all rest)
            end) members)
  end.
End value_induction.

(** The text of a value is not empty. *)
Lemma append_cons c (a b : string) : String c a +:+ b = String c (a +:+ b).
Proof. reflexivity. Qed.

Lemma append_nil_l (b : string) : "" +:+ b = b.
Proof. reflexivity. Qed.

Lemma append_nil_r (s : string) : s +:+ "" = s.
Proof. induction s as [|c s IH]; [reflexivity|]. rewrite ?append_cons, ?append_nil_l. now rewrite IH. Qed.

Lemma append_assoc (a b c : string) : (a +:+ b) +:+ c = a +:+ (b +:+ c).
Proof. induction a as [|x a IH]; [reflexivity|]. rewrite ?append_cons, ?append_nil_l. now rewrite IH. Qed.

Lemma length_append (a b : string) :
  String.length (a +:+ b) = (String.length a + String.length b)%nat.
Proof. induction a as [|x a IH]; [reflexivity|]. rewrite ?append_cons, ?append_nil_l. cbn. now rewrite IH. Qed.

Lemma digits_from_nonempty fuel n rest : digits_from fuel n rest <> "".
Proof.
  revert n rest. induction fuel as [|fuel IH]; intros n rest; cbn [digits_from];
    [discriminate|].
  destruct (n / 10 =? 0)%N; [discriminate | apply IH].
Qed.

Lemma print_nonempty v : print v <> "".
Proof.
  destruct v as [|[]|x|s|elements|members]; try discriminate.
  destruct x as [| | |negative m e]; try discriminate.
  cbn [print number_text]. destruct (default _ _) as [s t].
  assert (Hf : format (digits s) t <> "").
  { pose proof (digits_from_nonempty (N.to_nat (N.log2 s)) s "") as Hds.
    fold (digits s) in Hds. unfold format.
    destruct (digits s) as [|c more]; [congruence|].
    repeat match goal with
      | |- context [if ?b then _ else _] => destruct b
      | |- context [split_at ?n ?x] => destruct (split_at n x)
      | |- context [match ?m with EmptyString => _ | String _ _ => _ end] => destruct m
      end;
      intros H; apply (f_equal String.length) in H;
      repeat rewrite length_append in H; cbn [String.length] in H; lia. }
  destruct negative; [discriminate|]. exact Hf.
Qed.

(** The codec: [JSON.stringify] never throws on these values; [JSON.parse]
    throws a SyntaxError on a text that is not JSON. *)
Definition SyntaxError : JsError := mkError "SyntaxError" "Unexpected token".

#[global] Instance codec : JSON value :=
  {| JSON_stringify := fun v => inr (print v);
     JSON_parse := fun text =>
       match parse text with
       | Some v => inr v
       | None => inl SyntaxError
       end;
     JSON_text_nonempty :=
       ltac:(intros v s [= <-]; apply print_nonempty) |}.

(** A response as the callers build it: [{statusCode, body}]. *)
Definition response (statusCode : Z) (body : value) : value :=
  JObject [("statusCode", JNumber (integer statusCode)); ("body", body)].

(** A response with a body of every kind of value:
    [{"statusCode":200,"body":{"0":true,"items":[-1.5,"a",null]}}]. *)
Definition sample : value :=
  response 200
    (JObject
       [("0", JBool true);
        ("items", JArray [JNumber (round_decimal true 15 (-1)); JString "a"; JNull])]).

End Json.

(** ** Stores that fail *)

(** A connection that is down: every command on database [down] is
    rejected and the store is left as it was; the other databases answer
    as usual. *)
Definition connection_closed : JsError := mkError "Error" "Connection is closed.".

Definition redis_outage (down : N) (R : Type) (conn : Redis) (cmd : Cmd R)
    (srv : Server) : Reply R * Server :=
  if (db conn =? down)%N then (Failed connection_closed, srv)
  else redis R conn cmd srv.

(** ** Equivalence of calls *)

(** Two calls are alike when they send the same commands and, on the same
    replies, go on alike and end alike. *)
Inductive alike {A : Type} : Promise A -> Promise A -> Prop :=
| alike_resolve a : alike (Resolve a) (Resolve a)
| alike_reject e : alike (Reject e) (Reject e)
| alike_throw e : alike (Throw e) (Throw e)
| alike_send R conn (cmd : Cmd R) k1 k2 :
    (forall r, alike (k1 r) (k2 r)) ->
    alike (Send conn cmd k1) (Send conn cmd k2).

(** The same commands in the same order with the same result, against
    every store, whatever it answers. *)
Definition same_behaviour {A} (p q : Promise A) : Prop :=
  forall (State : Type)
         (answer : forall R, Redis -> Cmd R -> State -> Reply R * State) (st : State),
    run answer p st = run answer q st.

(** What both constructors establish and no method changes: an enabled
    manager has its two clients. *)
Definition constructed (this : RedisManager) : Prop :=
  isEnabled this = true ->
  is_Some (_opsClient this) /\ is_Some (_metricsClient this).

(** The two revisions of a method, where a property holds of both. *)
Definition is_setCachedResponse `{JSON V} this key url (response : V)
    (p : Promise unit) : Prop :=
  p = QManager.setCachedResponse this key url response
  \/ p = AsyncManager.setCachedResponse this key url response.

Definition is_getCachedResponse `{JSON V} this key url (p : Promise (option V)) : Prop :=
  p = QManager.getCachedResponse this key url
  \/ p = AsyncManager.getCachedResponse this key url.

Definition is_recordUpdate this currentKey currentLabel previousKey previousLabel
    (p : Promise unit) : Prop :=
  p = QManager.recordUpdate this currentKey currentLabel previousKey previousLabel
  \/ p = AsyncManager.recordUpdate this currentKey currentLabel previousKey previousLabel.

(** ** Reading the store *)

(** The integer a field of a hash stands for; a field that is not there
    counts as 0, a value the server cannot read as an integer as nothing. *)
Definition counter (d : Db) (key field : string) : option Z :=
  match hash_at d key !! field with
  | Some s => string2ll s
  | None => Some 0
  end.

(** The database with one field of one hash set, the hash created if need
    be. *)
Definition set_field (key field value : string) (d : Db) : Db :=
  mkDb (<[key := <[field := value]> (hash_at d key)]> (hashes d)) (ttl d).

(** Two servers hold the same data when each database is the same. *)
Definition same_data (s1 s2 : Server) : Prop :=
  forall i, database s1 i = database s2 i.

(** A labels hash with two values that are not integers. *)
Definition malformed_store : Server :=
  {[ METRICS_DB :=
       mkDb {[ "deploymentKeyLabels:D" :=
                 {[ "v1:Active" := "n/a"; "v1:Downloaded" := "12abc" ]} ]} ∅ ]}.

(** A labels hash with a field named [__proto__] beside a counter. *)
Definition proto_store : Server :=
  {[ METRICS_DB :=
       mkDb {[ "deploymentKeyLabels:D" :=
                 {[ "__proto__" := "7"; "v1:Active" := "3" ]} ]} ∅ ]}.

(** A store where the active count of [v2] under [D2] is the largest value
    a counter can hold. *)
Definition saturated_store : Server :=
  {[ METRICS_DB :=
       mkDb {[ "deploymentKeyLabels:D2" := {[ "v2:Active" := "9223372036854775807" ]} ]}
            ∅ ]}.

(** ** The response cache *)

(** The database a write to a scope key leaves: the field is set, and a
    key that was not there gets the default expiry. *)
Definition cached (key url serialized : string) (d : Db) : Db :=
  let written := set_field key url serialized d in
  if hashes d !! key is Some _ then written
  else mkDb (hashes written) (<[key := DEFAULT_EXPIRY]> (ttl written)).

(** The commands of such a write. *)
Definition cache_commands (ops : Redis) (key url serialized : string) (d : Db)
    : list Request :=
  Req ops (EXISTS key) :: Req ops (HSET key url serialized) ::
    (if hashes d !! key is Some _ then [] else [Req ops (EXPIRE key DEFAULT_EXPIRY)]).

(** ** Calls in flight together

    The store takes one command at a time.  Between two commands of a
    call, commands of other calls may be served.  A configuration is the
    store, the call under study and the calls of the concurrent readers;
    a step serves the next command of one of them. *)

Definition advance {A} (p : Promise A) (srv : Server) : option (Server * Promise A) :=
  match p with
  | Send conn cmd k => let '(r, srv') := redis _ conn cmd srv in Some (srv', k r)
  | _ => None
  end.

Inductive step {B : Type}
  : Server * Promise unit * list (Promise B) ->
    Server * Promise unit * list (Promise B) -> Prop :=
| step_writer srv w readers srv' w' :
    advance w srv = Some (srv', w') ->
    step (srv, w, readers) (srv', w', readers)
| step_reader srv w readers i r srv' r' :
    readers !! i = Some r ->
    advance r srv = Some (srv', r') ->
    step (srv, w, readers) (srv', w, <[i := r']> readers).

(** Commands that leave the store as it is, and calls that send no
    others. *)
Definition is_read {R} (cmd : Cmd R) : bool :=
  match cmd with
  | PING | HGET _ _ | HGETALL _ | EXISTS _ => true
  | _ => false
  end.

Fixpoint reads_only {A} (p : Promise A) : Prop :=
  match p with
  | Send _ cmd k => is_read cmd = true /\ forall r, reads_only (k r)
  | _ => True
  end.

(** ** The transaction of a transition *)

(** The three increments of a transition from [previousLabel] under
    [previousKey] to [currentLabel] under [currentKey]. *)
Definition transition (currentKey currentLabel previousKey previousLabel : string)
    : list Queued :=
  [Q_hincrby (Utilities.getDeploymentKeyLabelsHash currentKey)
     (Some (currentLabel +:+ ":Active")) 1;
   Q_hincrby (Utilities.getDeploymentKeyLabelsHash currentKey)
     (Some (currentLabel +:+ ":DeploymentSucceeded")) 1;
   Q_hincrby (Utilities.getDeploymentKeyLabelsHash previousKey)
     (Some (previousLabel +:+ ":Active")) (-1)].

(** The store after the whole transaction. *)
Definition committed (metrics : Redis) (batch : list Queued) (srv : Server) : Server :=
  <[db metrics := (exec batch (database srv (db metrics))).2]> srv.

(** What a configuration can look like while [recordUpdate] is in flight
    among readers: not started, with the data as it was; or done, with the
    data as the whole transaction leaves it. *)
Definition before_or_after (p : Promise unit) (batch : list Queued) (metrics : Redis)
    (srv : Server) {B} (c : Server * Promise unit * list (Promise B)) : Prop :=
  Forall reads_only c.2
  /\ ((c.1.2 = p /\ same_data c.1.1 srv)
      \/ (c.1.2 = Resolve tt /\ same_data c.1.1 (committed metrics batch srv))).

(** The sum of the increments a batch aims at a field of a hash. *)
Fixpoint net_delta (batch : list Queued) (key field : string) : Z :=
  match batch with
  | [] => 0
  | Q_hincrby key' field' increment :: rest =>
      (if decide (key' = key /\ toArg field' = field) then increment else 0)
      + net_delta rest key field
  | Q_hset _ _ _ :: rest => net_delta rest key field
  end.

(** A queued command writes to this field of this hash. *)
Definition aims_at (key field : string) (q : Queued) : Prop :=
  match q with
  | Q_hincrby key' field' _ => key' = key /\ toArg field' = field
  | Q_hset key' field' _ => key' = key /\ field' = field
  end.

(** The store carried the command out. *)
Definition accepted (r : Reply Z) : Prop :=
  match r with Ok _ => True | Failed _ => False end.

(** The last character of a string. *)
Fixpoint last_char (s : string) : option ascii :=
  match s with
  | EmptyString => None
  | String c EmptyString => Some c
  | String _ t => last_char t
  end.

(** The value of a decimal numeral read from the left, [acc] being the
    value of the digits already read. *)
Fixpoint numeral_value (d : Decimal.uint) (acc : Z) : Z :=
  match d with
  | Decimal.Nil => acc
  | Decimal.D0 l => numeral_value l (10 * acc)
  | Decimal.D1 l => numeral_value l (10 * acc + 1)
  | Decimal.D2 l => numeral_value l (10 * acc + 2)
  | Decimal.D3 l => numeral_value l (10 * acc + 3)
  | Decimal.D4 l => numeral_value l (10 * acc + 4)
  | Decimal.D5 l => numeral_value l (10 * acc + 5)
  | Decimal.D6 l => numeral_value l (10 * acc + 6)
  | Decimal.D7 l => numeral_value l (10 * acc + 7)
  | Decimal.D8 l => numeral_value l (10 * acc + 8)
  | Decimal.D9 l => numeral_value l (10 * acc + 9)
  end.

(** A string without a comma. *)
Fixpoint no_comma (s : string) : Prop :=
  match s with
  | EmptyString => True
  | String c t => Ascii.eqb c ","%char = false /\ no_comma t
  end.

(** ** Notions of the further properties *)

(** ** A codec with values JSON cannot carry

    Status responses as before, and BigInt values, on which
    [JSON.stringify] throws a TypeError. *)
Module Payload.

Inductive payload :=
| Status (statusCode : Z)
| BigInt (n : Z).

Definition TypeError_BigInt : JsError :=
  mkError "TypeError" "Do not know how to serialize a BigInt".

Definition to_text (v : payload) : JsError + string :=
  match v with
  | Status statusCode => StatusResponse.to_text statusCode
  | BigInt _ => inl TypeError_BigInt
  end.

Definition of_text (s : string) : JsError + payload :=
  match StatusResponse.of_text s with
  | inr statusCode => inr (Status statusCode)
  | inl e => inl e
  end.

#[global] Instance codec : JSON payload :=
  {| JSON_stringify := to_text;
     JSON_parse := of_text;
     JSON_text_nonempty :=
       ltac:(intros [z|n] s; [intros [= <-]; cbv [StatusResponse.opening String.append];
                              discriminate | discriminate]) |}.

End Payload.

(** One of the two revisions of a call. *)
Definition one_of {A} (q a p : Promise A) : Prop := p = q \/ p = a.

(** *** Stores to try the properties on *)

(** A cache whose entry is not JSON. *)
Definition garbled_cache : Server :=
  {[ 0%N := mkDb {[ "scope" := {[ "/a" := "oops" ]} ]} ∅ ]}.

(** A store with the metrics of one deployment key and one client. *)
Definition busy_store : Server :=
  {[ METRICS_DB :=
       mkDb {[ "deploymentKeyLabels:D" := {[ "v1:Active" := "5"; "v1:Downloaded" := "7" ]};
               "deploymentKeyClients:D" := {[ "c1" := "v1" ]} ]} ∅ ]}.

(** The transaction [updateActiveAppForClient] queues. *)
Definition client_update (deploymentKey clientUniqueId toLabel : string)
    (fromLabel : option string) : list Queued :=
  [Q_hset (Utilities.getDeploymentKeyClientsHash deploymentKey) clientUniqueId toLabel;
   Q_hincrby (Utilities.getDeploymentKeyLabelsHash deploymentKey)
     (Utilities.getLabelActiveCountField toLabel) 1]
  ++ (if truthy_opt fromLabel
      then [Q_hincrby (Utilities.getDeploymentKeyLabelsHash deploymentKey)
              (Utilities.getLabelActiveCountField (default "" fromLabel)) (-1)]
      else []).

(** *** Which connection a call uses, and what it may do *)

(** The connection a request goes through. *)
Definition connection (req : Request) : Redis :=
  match req with Req conn _ => conn end.

(** Every command of the call goes through this client. *)
Fixpoint sent_through {A} (client : option Redis) (p : Promise A) : Prop :=
  match p with
  | Send conn _ k => client = Some conn /\ forall r, sent_through client (k r)
  | _ => True
  end.

(** The calls of the methods that keep the metrics, in either revision. *)
Inductive metrics_call (this : RedisManager) : forall A, Promise A -> Prop :=
| call_incrementLabelStatusCount deploymentKey label status p :
    one_of (QManager.incrementLabelStatusCount this deploymentKey label status)
           (AsyncManager.incrementLabelStatusCount this deploymentKey label status) p ->
    metrics_call this unit p
| call_clearMetricsForDeploymentKey deploymentKey p :
    one_of (QManager.clearMetricsForDeploymentKey this deploymentKey)
           (AsyncManager.clearMetricsForDeploymentKey this deploymentKey) p ->
    metrics_call this unit p
| call_getMetricsWithDeploymentKey deploymentKey p :
    one_of (QManager.getMetricsWithDeploymentKey this deploymentKey)
           (AsyncManager.getMetricsWithDeploymentKey this deploymentKey) p ->
    metrics_call this (option DeploymentMetrics) p
| call_recordUpdate currentKey currentLabel previousKey previousLabel p :
    is_recordUpdate this currentKey currentLabel previousKey previousLabel p ->
    metrics_call this unit p
| call_removeDeploymentKeyClientActiveLabel deploymentKey clientUniqueId p :
    one_of (QManager.removeDeploymentKeyClientActiveLabel this deploymentKey clientUniqueId)
           (AsyncManager.removeDeploymentKeyClientActiveLabel this deploymentKey
              clientUniqueId) p ->
    metrics_call this unit p
| call_getCurrentActiveLabel deploymentKey clientUniqueId p :
    one_of (QManager.getCurrentActiveLabel this deploymentKey clientUniqueId)
           (AsyncManager.getCurrentActiveLabel this deploymentKey clientUniqueId) p ->
    metrics_call this (option string) p
| call_updateActiveAppForClient deploymentKey clientUniqueId toLabel fromLabel p :
    one_of (QManager.updateActiveAppForClient this deploymentKey clientUniqueId toLabel
              fromLabel)
           (AsyncManager.updateActiveAppForClient this deploymentKey clientUniqueId
              toLabel fromLabel) p ->
    metrics_call this unit p.

Section Calls.
Context `{JSON V}.

(** The calls of the methods of the response cache, in either revision. *)
Inductive cache_call (this : RedisManager) : forall A, Promise A -> Prop :=
| call_getCachedResponse key url p :
    is_getCachedResponse this key url p -> cache_call this (option V) p
| call_setCachedResponse key url (response : V) p :
    is_setCachedResponse this key url response p -> cache_call this unit p
| call_invalidateCache key p :
    one_of (QManager.invalidateCache this key) (AsyncManager.invalidateCache this key) p ->
    cache_call this unit p.

(** The calls of the methods that only ask, in either revision. *)
Inductive read_call (this : RedisManager) : forall A, Promise A -> Prop :=
| read_checkHealth p :
    one_of (QManager.checkHealth this) (AsyncManager.checkHealth this) p ->
    read_call this unit p
| read_getCachedResponse key url p :
    is_getCachedResponse this key url p -> read_call this (option V) p
| read_getMetricsWithDeploymentKey deploymentKey p :
    one_of (QManager.getMetricsWithDeploymentKey this deploymentKey)
           (AsyncManager.getMetricsWithDeploymentKey this deploymentKey) p ->
    read_call this (option DeploymentMetrics) p
| read_getCurrentActiveLabel deploymentKey clientUniqueId p :
    one_of (QManager.getCurrentActiveLabel this deploymentKey clientUniqueId)
           (AsyncManager.getCurrentActiveLabel this deploymentKey clientUniqueId) p ->
    read_call this (option string) p.

(** Every call of a method of the manager, in either revision. *)
Inductive method_call (this : RedisManager) : forall A, Promise A -> Prop :=
| call_metrics A p : metrics_call this A p -> method_call this A p
| call_cache A p : cache_call this A p -> method_call this A p
| call_checkHealth p :
    one_of (QManager.checkHealth this) (AsyncManager.checkHealth this) p ->
    method_call this unit p
| call_close p :
    one_of (QManager.close this) (AsyncManager.close this) p ->
    method_call this unit p.

End Calls.

(** The call throws on no reply. *)
Fixpoint never_throws {A} (p : Promise A) : Prop :=
  match p with
  | Throw _ => False
  | Send _ _ k => forall r, never_throws (k r)
  | _ => True
  end.

(** * Properties *)

(** ** Key namespacing *)

Section KeyNamespacing.
Import Utilities.

Lemma getDeploymentKeyHash_inj a b :
  getDeploymentKeyHash a = getDeploymentKeyHash b -> a = b.
Proof. cbv. congruence. Qed.

Lemma getDeploymentKeyLabelsHash_inj a b :
  getDeploymentKeyLabelsHash a = getDeploymentKeyLabelsHash b -> a = b.
Proof. cbv. congruence. Qed.

Lemma getDeploymentKeyClientsHash_inj a b :
  getDeploymentKeyClientsHash a = getDeploymentKeyClientsHash b -> a = b.
Proof. cbv. congruence. Qed.

(** C5. Each of the three hash-key derivations (scope-hash key,
    labels-hash key, clients-hash key) is a function of the deployment
    key and is injective: two distinct deployment keys never get the same
    derived key from the same derivation. *)
Theorem hash_key_derivations_injective (a b : string) :
  a <> b ->
  getDeploymentKeyHash a <> getDeploymentKeyHash b
  /\ getDeploymentKeyLabelsHash a <> getDeploymentKeyLabelsHash b
  /\ getDeploymentKeyClientsHash a <> getDeploymentKeyClientsHash b.
Proof.
  intros Hab. repeat split; intros Heq; apply Hab.
  - exact (getDeploymentKeyHash_inj _ _ Heq).
  - exact (getDeploymentKeyLabelsHash_inj _ _ Heq).
  - exact (getDeploymentKeyClientsHash_inj _ _ Heq).
Qed.

Lemma hash_key_derivations_injective_witness :
  getDeploymentKeyHash "D1" <> getDeploymentKeyHash "D2"
  /\ getDeploymentKeyLabelsHash "D1" <> getDeploymentKeyLabelsHash "D2"
  /\ getDeploymentKeyClientsHash "D1" <> getDeploymentKeyClientsHash "D2".
Proof. apply (hash_key_derivations_injective "D1" "D2"). discriminate. Defined.

(** C9, as the claim states it, fails: the scope-hash key of
    ["Labels:" + s] is ["deploymentKey:Labels:" + s], with a colon after
    [deploymentKey], and not the labels-hash key of [s]. *)
Lemma derivation_ranges_overlap_refuted :
  ~ (forall s : string,
       getDeploymentKeyHash ("Labels:" +:+ s) = getDeploymentKeyLabelsHash s
       /\ getDeploymentKeyHash ("Clients:" +:+ s) = getDeploymentKeyClientsHash s).
Proof. intros H. destruct (H "") as [H1 _]. discriminate H1. Qed.

(** C9, amended. The ranges of the three key derivations are pairwise
    disjoint: whatever the deployment keys, a scope-hash key, a
    labels-hash key and a clients-hash key are three different strings
    (after [deploymentKey] comes [:], [L] or [C]). *)
Theorem derivation_ranges_disjoint (a b : string) :
  getDeploymentKeyHash a <> getDeploymentKeyLabelsHash b
  /\ getDeploymentKeyHash a <> getDeploymentKeyClientsHash b
  /\ getDeploymentKeyLabelsHash a <> getDeploymentKeyClientsHash b.
Proof. repeat split; cbv; congruence. Qed.

End KeyNamespacing.

Lemma alike_refl {A} (p : Promise A) : alike p p.
Proof. induction p; constructor; auto. Qed.

Lemma run_alike {A State}
    (answer : forall R, Redis -> Cmd R -> State -> Reply R * State)
    (p q : Promise A) :
  alike p q -> forall st, run answer p st = run answer q st.
Proof.
  induction 1 as [a|e|e|R conn cmd k1 k2 _ IH]; intros st; try reflexivity.
  cbn. destruct (answer R conn cmd st) as [r st1]. now rewrite IH.
Qed.

Lemma alike_same_behaviour {A} (p q : Promise A) : alike p q -> same_behaviour p q.
Proof. intros H State answer st. now apply run_alike. Qed.

Lemma QManager_constructed : constructed QManager.constructor_.
Proof. intros _. split; eexists; reflexivity. Qed.

Lemma AsyncManager_constructed host port :
  constructed (AsyncManager.constructor_ host port).
Proof.
  unfold AsyncManager.constructor_.
  destruct (truthy_opt host && truthy_opt port); intros He.
  - split; eexists; reflexivity.
  - discriminate He.
Qed.

Ltac alike_tac :=
  repeat first
    [ apply alike_refl
    | apply alike_send; intros [?|?]
    | progress cbn
    | progress unfold parse, stringify, mbind, Promise_bind
    | match goal with
      | |- context [match ?x with _ => _ end] =>
          destruct x eqn:?; cbn in *; try congruence
      end ].

(** Case analysis on a constructed manager: disabled, or enabled with both
    clients. *)
Ltac by_cases this Hc :=
  destruct this as [[?ops|] [?metrics|] [|]]; intros Hc;
  try (destruct (Hc eq_refl) as [[? ?] [? ?]]; discriminate).

(** ** The disabled manager *)

(** C8. When the manager is disabled, every cache and metrics method, the
    deprecated ones included, is fulfilled at once with its default ([null]
    for the reads, nothing for the writes): the call is the settled promise
    itself, so no command is sent and nothing is thrown.  [checkHealth] is
    the only one that fails, rejected with the error "Redis manager is not
    enabled".  This holds in both revisions. *)
Theorem disabled_manager_defaults `{JSON V} (this : RedisManager) :
  isEnabled this = false ->
  (AsyncManager.checkHealth this = Reject (Error_new "Redis manager is not enabled")
   /\ (forall expiryKey url,
         AsyncManager.getCachedResponse (V:=V) this expiryKey url = Resolve None)
   /\ (forall expiryKey url response,
         AsyncManager.setCachedResponse (V:=V) this expiryKey url response = Resolve tt)
   /\ (forall expiryKey, AsyncManager.invalidateCache this expiryKey = Resolve tt)
   /\ (forall deploymentKey label status,
         AsyncManager.incrementLabelStatusCount this deploymentKey label status
         = Resolve tt)
   /\ (forall deploymentKey,
         AsyncManager.clearMetricsForDeploymentKey this deploymentKey = Resolve tt)
   /\ (forall deploymentKey,
         AsyncManager.getMetricsWithDeploymentKey this deploymentKey = Resolve None)
   /\ (forall currentKey currentLabel previousKey previousLabel,
         AsyncManager.recordUpdate this currentKey currentLabel previousKey previousLabel
         = Resolve tt)
   /\ (forall deploymentKey clientUniqueId,
         AsyncManager.removeDeploymentKeyClientActiveLabel this deploymentKey clientUniqueId
         = Resolve tt)
   /\ (forall deploymentKey clientUniqueId,
         AsyncManager.getCurrentActiveLabel this deploymentKey clientUniqueId
         = Resolve None)
   /\ (forall deploymentKey clientUniqueId toLabel fromLabel,
         AsyncManager.updateActiveAppForClient this deploymentKey clientUniqueId
           toLabel fromLabel = Resolve tt))
  /\
  (QManager.checkHealth this = Reject (Error_new "Redis manager is not enabled")
   /\ (forall expiryKey url,
         QManager.getCachedResponse (V:=V) this expiryKey url = Resolve None)
   /\ (forall expiryKey url response,
         QManager.setCachedResponse (V:=V) this expiryKey url response = Resolve tt)
   /\ (forall expiryKey, QManager.invalidateCache this expiryKey = Resolve tt)
   /\ (forall deploymentKey label status,
         QManager.incrementLabelStatusCount this deploymentKey label status
         = Resolve tt)
   /\ (forall deploymentKey,
         QManager.clearMetricsForDeploymentKey this deploymentKey = Resolve tt)
   /\ (forall deploymentKey,
         QManager.getMetricsWithDeploymentKey this deploymentKey = Resolve None)
   /\ (forall currentKey currentLabel previousKey previousLabel,
         QManager.recordUpdate this currentKey currentLabel previousKey previousLabel
         = Resolve tt)
   /\ (forall deploymentKey clientUniqueId,
         QManager.removeDeploymentKeyClientActiveLabel this deploymentKey clientUniqueId
         = Resolve tt)
   /\ (forall deploymentKey clientUniqueId,
         QManager.getCurrentActiveLabel this deploymentKey clientUniqueId
         = Resolve None)
   /\ (forall deploymentKey clientUniqueId toLabel fromLabel,
         QManager.updateActiveAppForClient this deploymentKey clientUniqueId
           toLabel fromLabel = Resolve tt)).
Proof.
  intros Hoff.
  split; repeat split; intros;
    unfold AsyncManager.checkHealth, AsyncManager.getCachedResponse,
      AsyncManager.setCachedResponse, AsyncManager.invalidateCache,
      AsyncManager.incrementLabelStatusCount,
      AsyncManager.clearMetricsForDeploymentKey,
      AsyncManager.getMetricsWithDeploymentKey, AsyncManager.recordUpdate,
      AsyncManager.removeDeploymentKeyClientActiveLabel,
      AsyncManager.getCurrentActiveLabel, AsyncManager.updateActiveAppForClient,
      QManager.checkHealth, QManager.getCachedResponse,
      QManager.setCachedResponse, QManager.invalidateCache,
      QManager.incrementLabelStatusCount,
      QManager.clearMetricsForDeploymentKey,
      QManager.getMetricsWithDeploymentKey, QManager.recordUpdate,
      QManager.removeDeploymentKeyClientActiveLabel,
      QManager.getCurrentActiveLabel, QManager.updateActiveAppForClient;
    rewrite Hoff; reflexivity.
Qed.

(** The manager the [async] revision builds in an empty environment is
    disabled; its methods answer with their defaults. *)
Lemma disabled_manager_defaults_witness :
  isEnabled (AsyncManager.constructor_ None None) = false
  /\ AsyncManager.checkHealth (AsyncManager.constructor_ None None)
     = Reject (Error_new "Redis manager is not enabled")
  /\ AsyncManager.getCachedResponse (V:=Z) (AsyncManager.constructor_ None None)
       "scope" "/v0.1/public/codepush/update_check" = Resolve None
  /\ AsyncManager.recordUpdate (AsyncManager.constructor_ None None)
       "D2" "v2" (Some "D1") (Some "v1") = Resolve tt.
Proof.
  split; [reflexivity|].
  destruct (disabled_manager_defaults (V:=Z) (AsyncManager.constructor_ None None)
              eq_refl) as [(Hhealth & Hget & _ & _ & _ & _ & _ & Hrec & _) _].
  split; [exact Hhealth | split; [apply Hget | apply Hrec]].
Defined.

(** ** The two revisions side by side *)

Section Revisions.
Context `{JSON V}.

Lemma checkHealth_alike this :
  constructed this -> alike (QManager.checkHealth this) (AsyncManager.checkHealth this).
Proof. by_cases this Hc; alike_tac. Qed.

Lemma getCachedResponse_alike this expiryKey url :
  constructed this ->
  alike (QManager.getCachedResponse (V:=V) this expiryKey url)
        (AsyncManager.getCachedResponse this expiryKey url).
Proof. by_cases this Hc; alike_tac. Qed.

Lemma setCachedResponse_alike this expiryKey url (response : V) :
  constructed this ->
  alike (QManager.setCachedResponse this expiryKey url response)
        (AsyncManager.setCachedResponse this expiryKey url response).
Proof. by_cases this Hc; alike_tac. Qed.

Lemma incrementLabelStatusCount_alike this deploymentKey label status :
  constructed this ->
  alike (QManager.incrementLabelStatusCount this deploymentKey label status)
        (AsyncManager.incrementLabelStatusCount this deploymentKey label status).
Proof. by_cases this Hc; alike_tac. Qed.

Lemma clearMetricsForDeploymentKey_alike this deploymentKey :
  constructed this ->
  alike (QManager.clearMetricsForDeploymentKey this deploymentKey)
        (AsyncManager.clearMetricsForDeploymentKey this deploymentKey).
Proof. by_cases this Hc; alike_tac. Qed.

Lemma getMetricsWithDeploymentKey_alike this deploymentKey :
  constructed this ->
  alike (QManager.getMetricsWithDeploymentKey this deploymentKey)
        (AsyncManager.getMetricsWithDeploymentKey this deploymentKey).
Proof. by_cases this Hc; alike_tac. Qed.

Lemma recordUpdate_alike this currentKey currentLabel previousKey previousLabel :
  constructed this ->
  alike (QManager.recordUpdate this currentKey currentLabel previousKey previousLabel)
        (AsyncManager.recordUpdate this currentKey currentLabel previousKey previousLabel).
Proof. by_cases this Hc; alike_tac. Qed.

Lemma removeDeploymentKeyClientActiveLabel_alike this deploymentKey clientUniqueId :
  constructed this ->
  alike (QManager.removeDeploymentKeyClientActiveLabel this deploymentKey clientUniqueId)
        (AsyncManager.removeDeploymentKeyClientActiveLabel this deploymentKey
           clientUniqueId).
Proof. by_cases this Hc; alike_tac. Qed.

Lemma invalidateCache_alike this expiryKey :
  constructed this ->
  alike (QManager.invalidateCache this expiryKey)
        (AsyncManager.invalidateCache this expiryKey).
Proof. by_cases this Hc; alike_tac. Qed.

Lemma getCurrentActiveLabel_alike this deploymentKey clientUniqueId :
  constructed this ->
  alike (QManager.getCurrentActiveLabel this deploymentKey clientUniqueId)
        (AsyncManager.getCurrentActiveLabel this deploymentKey clientUniqueId).
Proof. by_cases this Hc; alike_tac. Qed.

Lemma updateActiveAppForClient_alike this deploymentKey clientUniqueId toLabel fromLabel :
  constructed this ->
  alike (QManager.updateActiveAppForClient this deploymentKey clientUniqueId
           toLabel fromLabel)
        (AsyncManager.updateActiveAppForClient this deploymentKey clientUniqueId
           toLabel fromLabel).
Proof. by_cases this Hc; alike_tac. Qed.

(** [close] sends the same commands in both revisions as long as the
    first [quit] is answered. *)
Lemma close_same_when_first_quit_answered this {State}
    (answer : forall R, Redis -> Cmd R -> State -> Reply R * State) st :
  (forall ops, _opsClient this = Some ops ->
               exists v, (answer string ops QUIT st).1 = Ok v) ->
  run answer (QManager.close this) st = run answer (AsyncManager.close this) st.
Proof.
  destruct this as [[ops|] [metrics|] enabled]; intros Hq; cbn.
  - destruct (Hq ops eq_refl) as [v Hv]. cbn in Hv.
    destruct (answer string ops QUIT st) as [r st1]. cbn in Hv. subst r. cbn.
    destruct (answer string metrics QUIT st1) as [[v2|e2] st2]; reflexivity.
  - destruct (Hq ops eq_refl) as [v Hv]. cbn in Hv.
    destruct (answer string ops QUIT st) as [r st1]. cbn in Hv. subst r.
    reflexivity.
  - destruct (answer string metrics QUIT st) as [[v2|e2] st2]; reflexivity.
  - reflexivity.
Qed.

(** C10, amended. For every public method other than the constructor
    and [close], on a manager as its constructor leaves it (its clients
    exist when it is enabled), the revision on Q promises and the
    revision on [async]/[await] send the same commands in the same order,
    with the same keys and fields, and end with the same result, against
    every store and whatever it answers.  For [close] this holds whenever
    the [quit] of the first client is answered without error, or there is
    no first client. *)
Theorem revisions_same_behaviour (this : RedisManager) :
  constructed this ->
  same_behaviour (QManager.checkHealth this) (AsyncManager.checkHealth this)
  /\ (forall expiryKey url,
        same_behaviour (QManager.getCachedResponse (V:=V) this expiryKey url)
                       (AsyncManager.getCachedResponse this expiryKey url))
  /\ (forall expiryKey url (response : V),
        same_behaviour (QManager.setCachedResponse this expiryKey url response)
                       (AsyncManager.setCachedResponse this expiryKey url response))
  /\ (forall deploymentKey label status,
        same_behaviour
          (QManager.incrementLabelStatusCount this deploymentKey label status)
          (AsyncManager.incrementLabelStatusCount this deploymentKey label status))
  /\ (forall deploymentKey,
        same_behaviour (QManager.clearMetricsForDeploymentKey this deploymentKey)
                       (AsyncManager.clearMetricsForDeploymentKey this deploymentKey))
  /\ (forall deploymentKey,
        same_behaviour (QManager.getMetricsWithDeploymentKey this deploymentKey)
                       (AsyncManager.getMetricsWithDeploymentKey this deploymentKey))
  /\ (forall currentKey currentLabel previousKey previousLabel,
        same_behaviour
          (QManager.recordUpdate this currentKey currentLabel previousKey previousLabel)
          (AsyncManager.recordUpdate this currentKey currentLabel previousKey
             previousLabel))
  /\ (forall deploymentKey clientUniqueId,
        same_behaviour
          (QManager.removeDeploymentKeyClientActiveLabel this deploymentKey
             clientUniqueId)
          (AsyncManager.removeDeploymentKeyClientActiveLabel this deploymentKey
             clientUniqueId))
  /\ (forall expiryKey,
        same_behaviour (QManager.invalidateCache this expiryKey)
                       (AsyncManager.invalidateCache this expiryKey))
  /\ (forall deploymentKey clientUniqueId,
        same_behaviour
          (QManager.getCurrentActiveLabel this deploymentKey clientUniqueId)
          (AsyncManager.getCurrentActiveLabel this deploymentKey clientUniqueId))
  /\ (forall deploymentKey clientUniqueId toLabel fromLabel,
        same_behaviour
          (QManager.updateActiveAppForClient this deploymentKey clientUniqueId
             toLabel fromLabel)
          (AsyncManager.updateActiveAppForClient this deploymentKey clientUniqueId
             toLabel fromLabel))
  /\ (forall (State : Type)
             (answer : forall R, Redis -> Cmd R -> State -> Reply R * State)
             (st : State),
        (forall ops, _opsClient this = Some ops ->
                     exists v, (answer string ops QUIT st).1 = Ok v) ->
        run answer (QManager.close this) st = run answer (AsyncManager.close this) st).
Proof.
  intros Hc.
  repeat match goal with |- _ /\ _ => split end; intros.
  - now apply alike_same_behaviour, checkHealth_alike.
  - now apply alike_same_behaviour, getCachedResponse_alike.
  - now apply alike_same_behaviour, setCachedResponse_alike.
  - now apply alike_same_behaviour, incrementLabelStatusCount_alike.
  - now apply alike_same_behaviour, clearMetricsForDeploymentKey_alike.
  - now apply alike_same_behaviour, getMetricsWithDeploymentKey_alike.
  - now apply alike_same_behaviour, recordUpdate_alike.
  - now apply alike_same_behaviour, removeDeploymentKeyClientActiveLabel_alike.
  - now apply alike_same_behaviour, invalidateCache_alike.
  - now apply alike_same_behaviour, getCurrentActiveLabel_alike.
  - now apply alike_same_behaviour, updateActiveAppForClient_alike.
  - now apply close_same_when_first_quit_answered.
Qed.

End Revisions.

(** C10, as the claim states it, fails for [close]: when the [quit] of the
    first client is rejected, the revision on Q promises has already sent
    the second [quit], and the [async] revision never sends it. *)
Lemma close_differs_between_revisions :
  (run (redis_outage 0) (QManager.close QManager.constructor_) ∅).1.1
  = [Req Redis_default QUIT; Req (Redis_new METRICS_DB) QUIT]
  /\ (run (redis_outage 0) (AsyncManager.close QManager.constructor_) ∅).1.1
     = [Req Redis_default QUIT]
  /\ ~ same_behaviour (QManager.close QManager.constructor_)
                      (AsyncManager.close QManager.constructor_).
Proof.
  split; [reflexivity|]. split; [reflexivity|].
  intros Hsame.
  specialize (Hsame Server (redis_outage 0) ∅).
  apply (f_equal (fun r => length r.1.1)) in Hsame.
  discriminate Hsame.
Qed.

Lemma revisions_same_behaviour_witness :
  constructed QManager.constructor_
  /\ same_behaviour
       (QManager.recordUpdate QManager.constructor_ "D2" "v2" (Some "D1") (Some "v1"))
       (AsyncManager.recordUpdate QManager.constructor_ "D2" "v2" (Some "D1") (Some "v1"))
  /\ run redis (QManager.close QManager.constructor_) ∅
     = run redis (AsyncManager.close QManager.constructor_) ∅.
Proof.
  assert (Hc : constructed QManager.constructor_)
    by (intros _; split; eexists; reflexivity).
  split; [exact Hc|].
  destruct (revisions_same_behaviour (V:=Z) QManager.constructor_ Hc)
    as (_ & _ & _ & _ & _ & _ & Hrec & _ & _ & _ & _ & Hclose).
  split; [apply Hrec|].
  apply Hclose. intros ops _. eexists. reflexivity.
Defined.

(** ** Counters in the store *)

Lemma to_int_not_nil z :
  Z.to_int z <> Decimal.Pos Decimal.Nil /\ Z.to_int z <> Decimal.Neg Decimal.Nil.
Proof.
  destruct z as [|p|p]; cbn; split; try discriminate.
  - intros [= Hp]. now apply (Unsigned.to_uint_nonnil p).
  - intros [= Hp]. now apply (Unsigned.to_uint_nonnil p).
Qed.

Lemma string2ll_ll2string z :
  LLONG_MIN <= z <= LLONG_MAX -> string2ll (ll2string z) = Some z.
Proof.
  intros [Hlo Hhi]. unfold string2ll, ll2string.
  destruct (to_int_not_nil z) as [Hp Hn].
  rewrite NilZero.isi by assumption. cbn zeta.
  rewrite DecimalZ.of_to, String.eqb_refl.
  destruct (Z.leb_spec LLONG_MIN z); [|lia].
  destruct (Z.leb_spec z LLONG_MAX); [|lia]. reflexivity.
Qed.

Lemma database_insert (srv : Server) i j d :
  database (<[i := d]> srv) j = if decide (i = j) then d else database srv j.
Proof. unfold database. rewrite lookup_insert. now destruct (decide (i = j)). Qed.

Lemma database_insert_eq (srv : Server) i d : database (<[i := d]> srv) i = d.
Proof. rewrite database_insert. now rewrite decide_True. Qed.

Lemma database_insert_ne (srv : Server) i j d :
  i <> j -> database (<[i := d]> srv) j = database srv j.
Proof. intros. rewrite database_insert. now rewrite decide_False. Qed.

Lemma lookup_set_field key field value d key' field' :
  hash_at (set_field key field value d) key' !! field'
  = if decide (key = key' /\ field = field') then Some value
    else hash_at d key' !! field'.
Proof.
  unfold set_field, hash_at at 1. cbn.
  rewrite lookup_insert. destruct (decide (key = key')) as [->|Hk]; cbn.
  - rewrite lookup_insert. destruct (decide (field = field')) as [->|Hf].
    + rewrite decide_True by done. done.
    + rewrite decide_False by (intros [_ ?]; done). done.
  - rewrite decide_False by (intros [? _]; done). done.
Qed.

Lemma hincrby_accepted d key field delta v :
  counter d key field = Some v ->
  LLONG_MIN <= v + delta <= LLONG_MAX ->
  hincrby key field delta d
  = (Ok (v + delta), set_field key field (ll2string (v + delta)) d).
Proof.
  unfold counter, hincrby. intros -> [Hlo Hhi]. cbn zeta.
  destruct (Z.leb_spec LLONG_MIN (v + delta)); [|lia].
  destruct (Z.leb_spec (v + delta) LLONG_MAX); [|lia]. reflexivity.
Qed.

Lemma counter_set_field key field z d key' field' :
  LLONG_MIN <= z <= LLONG_MAX ->
  counter (set_field key field (ll2string z) d) key' field'
  = if decide (key = key' /\ field = field') then Some z else counter d key' field'.
Proof.
  intros Hz. unfold counter. rewrite lookup_set_field.
  destruct (decide _); [now apply string2ll_ll2string | reflexivity].
Qed.

Lemma counter_range d key field v :
  counter d key field = Some v -> LLONG_MIN <= v <= LLONG_MAX.
Proof.
  unfold counter. destruct (hash_at d key !! field) as [s|].
  - unfold string2ll. destruct (NilZero.int_of_string s); [|discriminate].
    destruct (_ && _) eqn:Hb; [|discriminate]. intros [= <-].
    apply andb_prop in Hb as [Hb Hhi]. apply andb_prop in Hb as [_ Hlo].
    apply Z.leb_le in Hhi, Hlo. lia.
  - intros [= <-]. unfold LLONG_MIN, LLONG_MAX. lia.
Qed.

Lemma isValidDeploymentStatus_false status :
  status <> DEPLOYMENT_SUCCEEDED -> status <> DEPLOYMENT_FAILED ->
  status <> DOWNLOADED ->
  Utilities.isValidDeploymentStatus status = false.
Proof.
  intros H1 H2 H3. unfold Utilities.isValidDeploymentStatus.
  apply String.eqb_neq in H1, H2, H3. now rewrite H1, H2, H3.
Qed.

Lemma isValidDeploymentStatus_true status :
  status = DEPLOYMENT_SUCCEEDED \/ status = DEPLOYMENT_FAILED \/ status = DOWNLOADED ->
  Utilities.isValidDeploymentStatus status = true.
Proof. intros [->|[->| ->]]; reflexivity. Qed.

Lemma truthy_label_colon label rest : truthy (label +:+ ":" +:+ rest) = true.
Proof. destruct label; reflexivity. Qed.

(** ** incrementLabelStatusCount *)

(** C7. With a status that is none of [DeploymentSucceeded],
    [DeploymentFailed], [Downloaded], [incrementLabelStatusCount] does
    nothing, against any store: no command is sent, the store is as it
    was (no field appears in the labels hash) and the promise is fulfilled.
    With one of the three, on an enabled manager, exactly one command is
    sent, the increment by 1 of the field [label:status] of the labels hash
    of the deployment key, and the counter goes from [v] to [v + 1].  Both
    revisions. *)
Theorem incrementLabelStatusCount_by_status
    (this : RedisManager) (deploymentKey label status : string) :
  (status <> DEPLOYMENT_SUCCEEDED -> status <> DEPLOYMENT_FAILED ->
   status <> DOWNLOADED ->
   forall (State : Type)
          (answer : forall R, Redis -> Cmd R -> State -> Reply R * State) (st : State),
     run answer (QManager.incrementLabelStatusCount this deploymentKey label status) st
     = ([], Fulfilled tt, st)
     /\ run answer (AsyncManager.incrementLabelStatusCount this deploymentKey label status) st
        = ([], Fulfilled tt, st))
  /\
  (status = DEPLOYMENT_SUCCEEDED \/ status = DEPLOYMENT_FAILED \/ status = DOWNLOADED ->
   isEnabled this = true ->
   forall metrics (srv : Server) (v : Z),
     _metricsClient this = Some metrics ->
     let hash := Utilities.getDeploymentKeyLabelsHash deploymentKey in
     let field := label +:+ ":" +:+ status in
     counter (database srv (db metrics)) hash field = Some v ->
     v < LLONG_MAX ->
     let after :=
       <[db metrics := set_field hash field (ll2string (v + 1))
                         (database srv (db metrics))]> srv in
     run redis (QManager.incrementLabelStatusCount this deploymentKey label status) srv
     = ([Req metrics (HINCRBY hash (Some field) 1)], Fulfilled tt, after)
     /\ run redis (AsyncManager.incrementLabelStatusCount this deploymentKey label status) srv
        = ([Req metrics (HINCRBY hash (Some field) 1)], Fulfilled tt, after)
     /\ counter (database after (db metrics)) hash field = Some (v + 1)).
Proof.
  split.
  - intros H1 H2 H3 State answer st.
    unfold QManager.incrementLabelStatusCount, AsyncManager.incrementLabelStatusCount,
      Utilities.getLabelStatusField.
    rewrite (isValidDeploymentStatus_false _ H1 H2 H3).
    destruct (isEnabled this); split; reflexivity.
  - intros Hvalid Hon metrics srv v Hm hash field Hv Hmax after.
    assert (Hrange : LLONG_MIN <= v + 1 <= LLONG_MAX)
      by (pose proof (counter_range _ _ _ _ Hv); lia).
    unfold QManager.incrementLabelStatusCount, AsyncManager.incrementLabelStatusCount,
      Utilities.getLabelStatusField.
    rewrite (isValidDeploymentStatus_true _ Hvalid), Hon, Hm.
    cbn [negb truthy_opt]. rewrite truthy_label_colon. cbn.
    unfold redis. cbn [db_answer toArg default].
    fold hash field.
    change (id field) with field.
    rewrite (hincrby_accepted _ _ _ _ _ Hv Hrange). cbn.
    repeat split.
    subst after. rewrite database_insert, decide_True by done.
    rewrite counter_set_field by done. now rewrite decide_True.
Qed.

Lemma incrementLabelStatusCount_by_status_witness :
  run redis (QManager.incrementLabelStatusCount QManager.constructor_
               "D" "v1" "bogus-status") ∅
  = ([], Fulfilled tt, ∅)
  /\ counter (database ∅ METRICS_DB) "deploymentKeyLabels:D" "v1:DeploymentSucceeded"
     = Some 0
  /\ (run redis (QManager.incrementLabelStatusCount QManager.constructor_
                   "D" "v1" DEPLOYMENT_SUCCEEDED) ∅).1
     = ([Req (Redis_new METRICS_DB)
           (HINCRBY "deploymentKeyLabels:D" (Some "v1:DeploymentSucceeded") 1)],
        Fulfilled tt).
Proof.
  split.
  - apply (incrementLabelStatusCount_by_status QManager.constructor_
             "D" "v1" "bogus-status"); discriminate.
  - split; [reflexivity|].
    destruct (incrementLabelStatusCount_by_status QManager.constructor_
                "D" "v1" DEPLOYMENT_SUCCEEDED) as [_ Hvalid].
    pose proof (Hvalid (or_introl eq_refl) eq_refl (Redis_new METRICS_DB) ∅ 0
                  eq_refl) as Hrun.
    cbv zeta in Hrun.
    destruct Hrun as [Hrun _]; [vm_compute; reflexivity | reflexivity |].
    now rewrite Hrun.
Defined.

(** ** recordUpdate with an empty label *)

(** C4, at the failing input. With the empty string as current label the
    active-count field is [null], and [recordUpdate] queues it all the
    same: the transaction is sent and the labels hash of the deployment key
    gets the fields [:DeploymentSucceeded] and (for the [null] field) the
    empty name, each at 1.  Both revisions. *)
Lemma recordUpdate_empty_label_writes :
  Utilities.getLabelActiveCountField "" = None
  /\ run redis (QManager.recordUpdate QManager.constructor_ "D" "" None None) ∅
     = run redis (AsyncManager.recordUpdate QManager.constructor_ "D" "" None None) ∅
  /\ (run redis (QManager.recordUpdate QManager.constructor_ "D" "" None None) ∅).1
     = ([Req (Redis_new METRICS_DB)
           (EXEC [Q_hincrby "deploymentKeyLabels:D" None 1;
                  Q_hincrby "deploymentKeyLabels:D" (Some ":DeploymentSucceeded") 1])],
        Fulfilled tt)
  /\ (let after :=
        (run redis (QManager.recordUpdate QManager.constructor_ "D" "" None None) ∅).2 in
      hash_at (database after METRICS_DB) "deploymentKeyLabels:D" !! ":DeploymentSucceeded"
      = Some "1"
      /\ hash_at (database after METRICS_DB) "deploymentKeyLabels:D" !! "" = Some "1").
Proof. repeat split; vm_compute; reflexivity. Qed.

(** ** Reading numbers back *)

Lemma leading_digits_numeral d acc seen :
  leading_digits (NilEmpty.string_of_uint d) acc seen
  = (numeral_value d acc, match d with Decimal.Nil => seen | _ => true end).
Proof.
  revert acc seen.
  induction d as [|d IH|d IH|d IH|d IH|d IH|d IH|d IH|d IH|d IH|d IH];
    intros acc seen; [reflexivity|..];
    cbn [NilEmpty.string_of_uint leading_digits];
    change (digit_value _) with (Some 0) || change (digit_value _) with (Some 1)
    || change (digit_value _) with (Some 2) || change (digit_value _) with (Some 3)
    || change (digit_value _) with (Some 4) || change (digit_value _) with (Some 5)
    || change (digit_value _) with (Some 6) || change (digit_value _) with (Some 7)
    || change (digit_value _) with (Some 8) || change (digit_value _) with (Some 9);
    cbv iota beta; rewrite IH; cbn [numeral_value]; rewrite ?Z.add_0_r;
    destruct d; reflexivity.
Qed.

Lemma numeral_value_acc d acc :
  numeral_value d (Z.pos acc) = Z.pos (Pos.of_uint_acc d acc).
Proof.
  revert acc. induction d; intros acc; cbn [numeral_value Pos.of_uint_acc];
    [reflexivity|..];
    (etransitivity; [|apply IHd]); f_equal; lia.
Qed.

Lemma numeral_value_0 d : numeral_value d 0 = Z.of_N (Pos.of_uint d).
Proof.
  induction d; cbn [numeral_value Pos.of_uint]; [reflexivity| exact IHd |..];
    cbn [Z.mul Z.add Z.of_N]; apply numeral_value_acc.
Qed.

Lemma numeral_value_to_uint p : numeral_value (Pos.to_uint p) 0 = Z.pos p.
Proof. now rewrite numeral_value_0, Unsigned.of_to. Qed.

Lemma parseInt10_numeral d :
  d <> Decimal.Nil ->
  parseInt10 (NilEmpty.string_of_uint d) = number_of_mathint false (numeral_value d 0)
  /\ parseInt10 (String "-" (NilEmpty.string_of_uint d))
     = number_of_mathint true (numeral_value d 0).
Proof.
  intros Hd. pose proof (leading_digits_numeral d 0 false) as Hl.
  destruct d; [congruence|..]; split; unfold parseInt10;
    cbn [NilEmpty.string_of_uint skip_white_space] in *; rewrite Hl; reflexivity.
Qed.

Lemma number_of_small_mathint negative n :
  0 < n < 2 ^ 53 ->
  number_of_mathint negative n = Num (if negative then - n else n).
Proof.
  intros [Hpos Hlt]. unfold number_of_mathint, round_to_double.
  destruct (Z.eqb_spec n 0); [lia|].
  destruct (Z.ltb_spec n (2 ^ 53)); [|lia].
  destruct (Z.leb_spec (2 ^ 1024) n); [|reflexivity].
  assert (2 ^ 53 < 2 ^ 1024) by (apply Z.pow_lt_mono_r; lia). lia.
Qed.

(** A counter as the store writes it reads back through [parseInt] as the
    same integer, as long as a double holds it exactly. *)
Lemma parseInt10_ll2string z :
  - 2 ^ 53 < z < 2 ^ 53 -> parseInt10 (ll2string z) = Num z.
Proof.
  intros Hz. unfold ll2string. destruct z as [|p|p]; [reflexivity|..].
  - cbn [Z.to_int NilZero.string_of_int].
    pose proof (Unsigned.to_uint_nonnil p) as Hn.
    replace (NilZero.string_of_uint (Pos.to_uint p))
      with (NilEmpty.string_of_uint (Pos.to_uint p))
      by (unfold NilZero.string_of_uint; now destruct (Pos.to_uint p)).
    destruct (parseInt10_numeral _ Hn) as [-> _].
    rewrite numeral_value_to_uint. apply number_of_small_mathint. lia.
  - cbn [Z.to_int NilZero.string_of_int].
    pose proof (Unsigned.to_uint_nonnil p) as Hn.
    replace (NilZero.string_of_uint (Pos.to_uint p))
      with (NilEmpty.string_of_uint (Pos.to_uint p))
      by (unfold NilZero.string_of_uint; now destruct (Pos.to_uint p)).
    destruct (parseInt10_numeral _ Hn) as [_ ->].
    rewrite numeral_value_to_uint.
    rewrite number_of_small_mathint by lia. reflexivity.
Qed.

(** ** getMetricsWithDeploymentKey *)

(** What the loop of [getMetricsWithDeploymentKey] leaves in [parsed]:
    the number of every field, except that a field named [__proto__] is
    dropped. *)
Lemma for_in_set_property {A B} (f : A -> B) (source : gmap string A) :
  for_in source (fun key value target => set_property key (f value) target) ∅
  = f <$> delete "__proto__" source.
Proof.
  unfold for_in.
  apply (map_fold_weak_ind (fun target m => target = f <$> delete "__proto__" m)).
  - now rewrite delete_empty, fmap_empty.
  - intros key value m target Hfresh ->. unfold set_property.
    destruct (decide (key = "__proto__")) as [->|Hne].
    + now rewrite delete_insert_eq.
    + now rewrite delete_insert_ne, fmap_insert by congruence.
Qed.

(** C2, as the claim states it, fails: with stored values that are not
    integers the read is fulfilled all the same; [parseInt] gives [NaN] for
    the one and the leading 12 for the other. *)
Lemma getMetrics_malformed_value_is_no_error :
  string2ll "n/a" = None
  /\ (run redis (QManager.getMetricsWithDeploymentKey QManager.constructor_ "D")
        malformed_store).1.2
     = Fulfilled (Some {[ "v1:Active" := NaN; "v1:Downloaded" := Num 12 ]})
  /\ (run redis (AsyncManager.getMetricsWithDeploymentKey QManager.constructor_ "D")
        malformed_store).1.2
     = Fulfilled (Some {[ "v1:Active" := NaN; "v1:Downloaded" := Num 12 ]}).
Proof. repeat split; vm_compute; reflexivity. Qed.

(** C2, amended. On an enabled manager [getMetricsWithDeploymentKey]
    sends one HGETALL on the labels hash of the deployment key and is
    fulfilled with the hash it gets, every value passed through
    [parseInt(value, 10)], less the field named [__proto__] if the hash
    has one: the assignment to that key of a plain object stores nothing.
    No stored value makes the call fail.  It is rejected only when the
    command is, with the rejection of the command.  Both revisions,
    against every store.  A counter as the store writes it, of magnitude
    below 2^53, comes back as the same integer. *)
Theorem getMetricsWithDeploymentKey_parses
    (this : RedisManager) (metrics : Redis) (deploymentKey : string)
    {State : Type} (answer : forall R, Redis -> Cmd R -> State -> Reply R * State)
    (st : State) :
  isEnabled this = true ->
  _metricsClient this = Some metrics ->
  let request := HGETALL (Utilities.getDeploymentKeyLabelsHash deploymentKey) in
  let expected :=
    ([Req metrics request],
     match (answer _ metrics request st).1 with
     | Ok rawMetrics => Fulfilled (Some (parseInt10 <$> delete "__proto__" rawMetrics))
     | Failed reason => Rejected reason
     end,
     (answer _ metrics request st).2) in
  run answer (QManager.getMetricsWithDeploymentKey this deploymentKey) st = expected
  /\ run answer (AsyncManager.getMetricsWithDeploymentKey this deploymentKey) st = expected
  /\ (forall z, - 2 ^ 53 < z < 2 ^ 53 -> parseInt10 (ll2string z) = Num z).
Proof.
  intros Hon Hm request expected. subst expected.
  split; [|split; [|exact parseInt10_ll2string]];
    unfold QManager.getMetricsWithDeploymentKey, AsyncManager.getMetricsWithDeploymentKey;
    rewrite Hon, Hm; cbn; fold request;
    destruct (answer _ metrics request st) as [[raw|e] st1]; cbn;
    rewrite ?for_in_set_property; reflexivity.
Qed.

Lemma getMetricsWithDeploymentKey_parses_witness :
  run redis (QManager.getMetricsWithDeploymentKey QManager.constructor_ "D") malformed_store
  = ([Req (Redis_new METRICS_DB) (HGETALL "deploymentKeyLabels:D")],
     match (redis _ (Redis_new METRICS_DB) (HGETALL "deploymentKeyLabels:D")
              malformed_store).1 with
     | Ok rawMetrics => Fulfilled (Some (parseInt10 <$> delete "__proto__" rawMetrics))
     | Failed reason => Rejected reason
     end,
     (redis _ (Redis_new METRICS_DB) (HGETALL "deploymentKeyLabels:D") malformed_store).2).
Proof.
  apply (proj1 (getMetricsWithDeploymentKey_parses QManager.constructor_
                  (Redis_new METRICS_DB) "D" redis malformed_store eq_refl eq_refl)).
Defined.

(** A field named [__proto__] is sent back by the store and is not in
    the result. *)
Lemma getMetrics_drops_proto_field :
  (redis _ (Redis_new METRICS_DB) (HGETALL "deploymentKeyLabels:D") proto_store).1
  = Ok {[ "__proto__" := "7"; "v1:Active" := "3" ]}
  /\ (run redis (QManager.getMetricsWithDeploymentKey QManager.constructor_ "D")
        proto_store).1.2
     = Fulfilled (Some {[ "v1:Active" := Num 3 ]})
  /\ (run redis (AsyncManager.getMetricsWithDeploymentKey QManager.constructor_ "D")
        proto_store).1.2
     = Fulfilled (Some {[ "v1:Active" := Num 3 ]}).
Proof. repeat split; vm_compute; reflexivity. Qed.

(** ** The codec of status responses *)

Lemma until_comma_append digits rest :
  no_comma digits ->
  StatusResponse.until_comma (digits +:+ String ","%char rest)
  = (digits, String ","%char rest).
Proof.
  induction digits as [|c t IH]; intros Hn.
  - reflexivity.
  - destruct Hn as [Hc Ht].
    change (String c t +:+ String "," rest) with (String c (t +:+ String "," rest)).
    cbn [StatusResponse.until_comma]. rewrite Hc, (IH Ht). reflexivity.
Qed.

Lemma no_comma_uint d : no_comma (NilEmpty.string_of_uint d).
Proof. induction d; cbn; auto. Qed.

Lemma no_comma_int d : no_comma (NilZero.string_of_int d).
Proof.
  destruct d as [d|d]; cbn; [|split; [reflexivity|]];
    (destruct d; [cbn; auto | apply (no_comma_uint (_ d)) ..]).
Qed.

(** The codec reads back what it writes, whatever the status code. *)
Lemma StatusResponse_round_trip (statusCode : Z) :
  exists text, StatusResponse.to_text statusCode = inr text
               /\ StatusResponse.of_text text = inr statusCode.
Proof.
  eexists. split; [reflexivity|].
  unfold StatusResponse.of_text.
  change (StatusResponse.strip_prefix StatusResponse.opening
            (StatusResponse.opening +:+ ?x)) with (Some x).
  cbv zeta beta iota.
  change StatusResponse.closing
    with (String ","%char (StatusResponse.dquote +:+ "body" +:+ StatusResponse.dquote
                             +:+ ":null}")) at 1.
  rewrite until_comma_append by apply no_comma_int.
  change (String ","%char _) with StatusResponse.closing.
  rewrite String.eqb_refl.
  destruct (to_int_not_nil statusCode) as [Hp Hn].
  rewrite NilZero.isi by assumption.
  now rewrite DecimalZ.of_to.
Qed.

(** ** The response cache *)

Lemma expire_live key seconds d h :
  hashes d !! key = Some h -> 0 < seconds ->
  expire key seconds d = (Ok 1, mkDb (hashes d) (<[key := seconds]> (ttl d))).
Proof.
  intros Hk Hs. unfold expire. rewrite Hk.
  destruct (Z.leb_spec seconds 0); [lia | reflexivity].
Qed.

Lemma elapse_live t d key h remaining :
  hashes d !! key = Some h -> ttl d !! key = Some remaining -> t < remaining ->
  hashes (elapse t d) !! key = Some h
  /\ ttl (elapse t d) !! key = Some (remaining - t).
Proof.
  intros Hk Ht Hlt.
  assert (Hlive : expired t d key = false).
  { unfold expired. rewrite Ht. apply Z.leb_gt. lia. }
  unfold elapse. cbn. split.
  - apply map_lookup_filter_Some. split; [assumption | exact Hlive].
  - rewrite lookup_fmap.
    assert (Hf : filter (fun kv : string * Z => expired t d kv.1 = false) (ttl d) !! key
                 = Some remaining).
    { apply map_lookup_filter_Some. split; [assumption | exact Hlive]. }
    now rewrite Hf.
Qed.

Lemma hash_at_cached key url serialized d :
  hash_at (cached key url serialized d) key !! url = Some serialized.
Proof.
  unfold cached. destruct (hashes d !! key); unfold hash_at; cbn;
    rewrite lookup_insert_eq; cbn; apply lookup_insert_eq.
Qed.

Lemma hashes_cached key url serialized d :
  hashes (cached key url serialized d) !! key
  = Some (<[url := serialized]> (hash_at d key)).
Proof. unfold cached. destruct (hashes d !! key); cbn; apply lookup_insert_eq. Qed.

Section Cache.
Context `{JSON V}.

Lemma run_setCachedResponse this ops key url (response : V) serialized (srv : Server) p :
  isEnabled this = true -> _opsClient this = Some ops ->
  JSON_stringify response = inr serialized ->
  is_setCachedResponse this key url response p ->
  let d := database srv (db ops) in
  (run redis p srv).1 = (cache_commands ops key url serialized d, Fulfilled tt)
  /\ database (run redis p srv).2 (db ops) = cached key url serialized d
  /\ forall i, i <> db ops -> database (run redis p srv).2 i = database srv i.
Proof.
  intros Hon Hops Hs Hp d.
  assert (Hset : forall d0, hashes (set_field key url serialized d0) !! key
                 = Some (<[url := serialized]> (hash_at d0 key))).
  { intros d0. cbn. apply lookup_insert_eq. }
  destruct Hp as [-> | ->];
    unfold QManager.setCachedResponse, AsyncManager.setCachedResponse;
    rewrite Hon, Hops; unfold stringify; rewrite Hs; cbn;
    rewrite !database_insert_eq; fold d;
    unfold cache_commands, cached, exists_;
    destruct (hashes d !! key) as [h|] eqn:Hk; cbn;
    unfold redis; cbn [db_answer]; rewrite ?database_insert_eq;
    fold (set_field key url serialized d);
    try rewrite (expire_live _ _ _ _ (Hset d)) by reflexivity; cbn;
    (split; [reflexivity|]);
    (split; [rewrite ?database_insert_eq; reflexivity|]);
    intros i Hi; rewrite !database_insert_ne by done; reflexivity.
Qed.

Lemma run_getCachedResponse this ops key url (srv : Server) p :
  isEnabled this = true -> _opsClient this = Some ops ->
  is_getCachedResponse this key url p ->
  (run redis p srv).1
  = ([Req ops (HGET key url)],
     match hash_at (database srv (db ops)) key !! url with
     | Some s =>
         if truthy s
         then match JSON_parse s with
              | inr v => Fulfilled (Some v)
              | inl e => Rejected e
              end
         else Fulfilled None
     | None => Fulfilled None
     end).
Proof.
  intros Hon Hops Hp.
  destruct Hp as [-> | ->];
    unfold QManager.getCachedResponse, AsyncManager.getCachedResponse;
    rewrite Hon, Hops; cbn;
    destruct (hash_at (database srv (db ops)) key !! url) as [s|]; cbn;
    try reflexivity;
    destruct (truthy s); cbn; try reflexivity;
    unfold parse; destruct (JSON_parse s); reflexivity.
Qed.

(** C3. On an enabled manager, with a response that [JSON.stringify]
    accepts, [setCachedResponse] is fulfilled and the field holds the text
    afterwards, whether the scope key existed or not.  When the key did
    not exist, the commands are EXISTS, HSET and one EXPIRE of 3600
    seconds, and the key has 3600 seconds to live.  When it existed, the
    commands are EXISTS and HSET and no EXPIRE, and the time the key has
    left is what it was.  So a second write, [elapsed] seconds after the
    first one created the key, sends no EXPIRE and leaves the key with
    [3600 - elapsed] seconds.  Both revisions. *)
Theorem setCachedResponse_expiry this ops key url (response : V) serialized
    (srv : Server) p :
  isEnabled this = true -> _opsClient this = Some ops ->
  JSON_stringify response = inr serialized ->
  is_setCachedResponse this key url response p ->
  let before := database srv (db ops) in
  let after := database (run redis p srv).2 (db ops) in
  (run redis p srv).1.2 = Fulfilled tt
  /\ hash_at after key !! url = Some serialized
  /\ (hashes before !! key = None ->
      (run redis p srv).1.1
      = [Req ops (EXISTS key); Req ops (HSET key url serialized);
         Req ops (EXPIRE key 3600)]
      /\ ttl after !! key = Some 3600)
  /\ (is_Some (hashes before !! key) ->
      (run redis p srv).1.1 = [Req ops (EXISTS key); Req ops (HSET key url serialized)]
      /\ ttl after !! key = ttl before !! key)
  /\ (forall elapsed url' (response' : V) serialized' p',
        hashes before !! key = None ->
        0 <= elapsed < 3600 ->
        JSON_stringify response' = inr serialized' ->
        is_setCachedResponse this key url' response' p' ->
        let later := <[db ops := elapse elapsed after]> (run redis p srv).2 in
        (run redis p' later).1.1
        = [Req ops (EXISTS key); Req ops (HSET key url' serialized')]
        /\ ttl (database (run redis p' later).2 (db ops)) !! key = Some (3600 - elapsed)).
Proof.
  intros Hon Hops Hs Hp before after.
  destruct (run_setCachedResponse this ops key url response serialized srv p
              Hon Hops Hs Hp) as (Hrun & Hafter & _).
  fold before in Hrun, Hafter. fold after in Hafter.
  rewrite Hafter.
  assert (Hnew : hashes before !! key = None ->
                 ttl (cached key url serialized before) !! key = Some 3600).
  { intros Hk. unfold cached. rewrite Hk. cbn. apply lookup_insert_eq. }
  split; [now rewrite Hrun|]. split; [apply hash_at_cached|].
  split; [|split].
  - intros Hk. split; [|now apply Hnew].
    rewrite Hrun. unfold cache_commands. now rewrite Hk.
  - intros [h Hk]. rewrite Hrun. unfold cache_commands, cached. rewrite Hk. done.
  - intros elapsed url' response' serialized' p' Hk Hel Hs' Hp' later.
    destruct (run_setCachedResponse this ops key url' response' serialized' later p'
                Hon Hops Hs' Hp') as (Hrun' & Hafter' & _).
    assert (Hlater : database later (db ops) = elapse elapsed (cached key url serialized before)).
    { unfold later. now rewrite database_insert_eq. }
    rewrite Hlater in Hrun', Hafter'.
    destruct (elapse_live elapsed (cached key url serialized before) key _ 3600
                (hashes_cached key url serialized before) (Hnew Hk) ltac:(lia))
      as [Hlive Httl].
    rewrite Hrun', Hafter'.
    set (d1 := elapse elapsed (cached key url serialized before)) in *.
    unfold cache_commands, cached. rewrite Hlive. cbn.
    split; [reflexivity | exact Httl].
Qed.

(** What was written is what is read: after [setCachedResponse],
    [getCachedResponse] on the same key and url hands the text that
    [JSON.stringify] gave to [JSON.parse], and settles as [JSON.parse]
    does. *)
Lemma get_after_set this ops key url (response : V) serialized
    (srv : Server) set get :
  isEnabled this = true -> _opsClient this = Some ops ->
  JSON_stringify response = inr serialized ->
  is_setCachedResponse this key url response set ->
  is_getCachedResponse this key url get ->
  (run redis get (run redis set srv).2).1.2
  = match JSON_parse serialized with
    | inr v => Fulfilled (Some v)
    | inl e => Rejected e
    end.
Proof.
  intros Hon Hops Hs Hset Hget.
  destruct (run_setCachedResponse this ops key url response serialized srv set
              Hon Hops Hs Hset) as (_ & Hafter & _).
  rewrite (run_getCachedResponse this ops key url _ get Hon Hops Hget).
  cbn [snd]. rewrite Hafter, hash_at_cached.
  assert (Ht : truthy serialized = true).
  { pose proof (JSON_text_nonempty _ _ Hs). now destruct serialized. }
  now rewrite Ht.
Qed.
End Cache.

Lemma setCachedResponse_expiry_witness :
  let first := QManager.setCachedResponse QManager.constructor_ "scope" "/a" 200 in
  let second := AsyncManager.setCachedResponse QManager.constructor_ "scope" "/b" 304 in
  (run redis first ∅).1.1
  = [Req Redis_default (EXISTS "scope");
     Req Redis_default (HSET "scope" "/a" (StatusResponse.opening +:+ "200" +:+ StatusResponse.closing));
     Req Redis_default (EXPIRE "scope" 3600)]
  /\ ttl (database (run redis first ∅).2 0%N) !! "scope" = Some 3600
  /\ (let later :=
        <[0%N := elapse 600 (database (run redis first ∅).2 0%N)]> (run redis first ∅).2 in
      (run redis second later).1.1
      = [Req Redis_default (EXISTS "scope");
         Req Redis_default (HSET "scope" "/b" (StatusResponse.opening +:+ "304" +:+ StatusResponse.closing))]
      /\ ttl (database (run redis second later).2 0%N) !! "scope" = Some 3000).
Proof.
  intros first second.
  assert (Htext : forall n : Z, JSON_stringify n = StatusResponse.to_text n)
    by reflexivity.
  destruct (setCachedResponse_expiry (V:=Z) QManager.constructor_ Redis_default
              "scope" "/a" 200 (StatusResponse.opening +:+ "200" +:+ StatusResponse.closing)
              ∅ first eq_refl eq_refl
              ltac:(rewrite Htext; vm_compute; reflexivity) (or_introl eq_refl))
    as (_ & _ & Hnew & _ & Hlater).
  destruct (Hnew ltac:(reflexivity)) as [Hsent Httl].
  split; [exact Hsent|]. split; [exact Httl|].
  apply (Hlater 600 "/b" 304 (StatusResponse.opening +:+ "304" +:+ StatusResponse.closing)
           second).
  - reflexivity.
  - lia.
  - rewrite Htext. vm_compute. reflexivity.
  - right. reflexivity.
Defined.

(** ** JSON.stringify then JSON.parse *)

Module JsonFacts.
Import Json.

Ltac app := rewrite ?append_cons, ?append_nil_l.

(** *** Digits *)

Lemma all_digits_append a b : all_digits a -> all_digits b -> all_digits (a +:+ b).
Proof. induction a as [|c a IH]; [easy|]. app. cbn. intros [Hc Ha] Hb. auto. Qed.

Lemma span_digits_append a b :
  all_digits a -> no_digit_ahead b -> span_digits (a +:+ b) = (a, b).
Proof.
  intros Ha Hb. induction a as [|c a IH].
  - app. destruct b as [|c b]; [reflexivity|]. cbn in *. now rewrite Hb.
  - destruct Ha as [Hc Ha]. app. cbn. rewrite Hc, (IH Ha). reflexivity.
Qed.

Lemma digits_value_append a b acc :
  digits_value (a +:+ b) acc = digits_value b (digits_value a acc).
Proof.
  revert acc. induction a as [|c a IH]; intros acc; [reflexivity|]. app. cbn. apply IH.
Qed.

Lemma digit_char (d : N) :
  (d < 10)%N ->
  is_digit (ascii_of_N (48 + d)) = true
  /\ (N_of_ascii (ascii_of_N (48 + d)) - 48 = d)%N
  /\ (d <> 0%N -> Ascii.eqb (ascii_of_N (48 + d)) "0" = false).
Proof.
  intros Hd.
  assert (Hcases : (d = 0 \/ d = 1 \/ d = 2 \/ d = 3 \/ d = 4 \/ d = 5 \/ d = 6
                    \/ d = 7 \/ d = 8 \/ d = 9)%N) by lia.
  repeat (destruct Hcases as [-> | Hcases]); try subst d;
    (split; [reflexivity|]; split; [reflexivity|]); intros Hne;
    try reflexivity; now destruct Hne.
Qed.

(** What [digits_from] puts in front of [rest]. *)
Lemma digits_from_spec fuel n rest :
  (n < 10 ^ N.of_nat (S fuel))%N ->
  exists ds,
    digits_from fuel n rest = ds +:+ rest
    /\ all_digits ds
    /\ (forall acc, digits_value ds acc
                    = (acc * 10 ^ N.of_nat (String.length ds) + n)%N)
    /\ (exists c more, ds = String c more /\ (n <> 0%N -> Ascii.eqb c "0" = false))
    /\ (exists front, ds = front +:+ String (ascii_of_N (48 + n mod 10)) "").
Proof.
  revert n rest. induction fuel as [|fuel IH]; intros n rest Hn.
  - assert (Hlt : (n < 10)%N) by (change (10 ^ N.of_nat 1)%N with 10%N in Hn; exact Hn).
    destruct (digit_char n Hlt) as (Hd & Hv & Hz).
    exists (String (ascii_of_N (48 + n)) ""). cbn [digits_from].
    rewrite (N.mod_small n 10 Hlt).
    split; [reflexivity|]. split; [cbn; auto|]. split.
    + intros acc. cbn. rewrite Hv. lia.
    + split; [eauto | exists ""; reflexivity].
  - cbn [digits_from].
    assert (Hmod : (n mod 10 < 10)%N) by (apply N.mod_lt; lia).
    destruct (digit_char _ Hmod) as (Hd & Hv & Hz).
    destruct (N.eqb_spec (n / 10) 0) as [Hq|Hq].
    + assert (Hlt : (n < 10)%N) by (apply N.div_small_iff in Hq; lia).
      exists (String (ascii_of_N (48 + n mod 10)) "").
      split; [reflexivity|]. split; [cbn; auto|]. split.
      * intros acc. cbn. rewrite Hv, (N.mod_small n 10 Hlt). lia.
      * split; [|exists ""; reflexivity].
        eexists _, _. split; [reflexivity|]. intros Hne. apply Hz.
        now rewrite N.mod_small.
    + assert (Hdiv : (n / 10 < 10 ^ N.of_nat (S fuel))%N).
      { apply N.Div0.div_lt_upper_bound.
        replace (N.of_nat (S (S fuel))) with (N.succ (N.of_nat (S fuel))) in Hn by lia.
        now rewrite N.pow_succ_r' in Hn. }
      destruct (IH (n / 10)%N (String (ascii_of_N (48 + n mod 10)) rest) Hdiv)
        as (ds & Heq & Hall & Hval & (c & more & Hhead & Hnz) & _).
      exists (ds +:+ String (ascii_of_N (48 + n mod 10)) "").
      split; [rewrite Heq, append_assoc; reflexivity|].
      split; [apply all_digits_append; cbn; auto|]. split.
      * intros acc. rewrite digits_value_append, Hval. cbn [digits_value].
        rewrite Hv, length_append. cbn [String.length].
        replace (N.of_nat (String.length ds + 1)) with (N.succ (N.of_nat (String.length ds)))
          by lia.
        rewrite N.pow_succ_r'.
        pose proof (N.div_mod n 10 ltac:(lia)) as Hdm. nia.
      * split; [|eexists; reflexivity].
        subst ds. eexists _, _. split; [reflexivity|]. intros _. now apply Hnz.
Qed.

Lemma digits_spec n :
  exists c more,
    digits n = String c more
    /\ all_digits (digits n)
    /\ digits_value (digits n) 0 = n
    /\ (n <> 0%N -> Ascii.eqb c "0" = false)
    /\ exists front, digits n = front +:+ String (ascii_of_N (48 + n mod 10)) "".
Proof.
  unfold digits.
  assert (Hn : (n < 10 ^ N.of_nat (S (N.to_nat (N.log2 n))))%N).
  { destruct n as [|p]; [reflexivity|].
    pose proof (N.log2_spec (N.pos p) ltac:(lia)) as [_ Hlt].
    eapply N.lt_le_trans; [exact Hlt|].
    replace (N.of_nat (S (N.to_nat (N.log2 (N.pos p))))) with (N.succ (N.log2 (N.pos p)))
      by lia.
    apply N.pow_le_mono_l. lia. }
  destruct (digits_from_spec _ n "" Hn) as (ds & Heq & Hall & Hval & (c & more & Hhead & Hnz)
                                             & Hlast).
  rewrite append_nil_r in Heq. rewrite Heq.
  exists c, more. split; [exact Hhead|]. split; [exact Hall|]. split.
  - rewrite Hval. lia.
  - split; [exact Hnz | exact Hlast].
Qed.


Lemma zeros_spec n :
  all_digits (zeros n) /\ String.length (zeros n) = n
  /\ (forall a, digits_value (zeros n +:+ a) 0 = digits_value a 0)
  /\ strip_trailing_zeros (zeros n) = ("", n).
Proof.
  induction n as [|n (Hall & Hlen & Hval & Hstrip)].
  - repeat split.
  - split; [cbn; auto|]. split; [cbn; now rewrite Hlen|]. split.
    + intros a. cbn [zeros]. app. cbn [digits_value]. apply (Hval a).
    + cbn [zeros strip_trailing_zeros]. rewrite Hstrip. reflexivity.
Qed.

Lemma strip_trailing_zeros_append front c n :
  Ascii.eqb c "0" = false ->
  strip_trailing_zeros (front +:+ String c (zeros n)) = (front +:+ String c "", n).
Proof.
  intros Hc. induction front as [|x front IH]; app.
  - cbn [strip_trailing_zeros].
    destruct (zeros_spec n) as (_ & _ & _ & ->). now rewrite Hc.
  - cbn [strip_trailing_zeros]. rewrite IH.
    destruct front; reflexivity.
Qed.

Lemma split_at_spec n s :
  (n <= String.length s)%nat ->
  s = (split_at n s).1 +:+ (split_at n s).2
  /\ String.length (split_at n s).1 = n
  /\ String.length (split_at n s).2 = (String.length s - n)%nat
  /\ (all_digits s -> all_digits (split_at n s).1 /\ all_digits (split_at n s).2).
Proof.
  revert s. induction n as [|n IH]; intros s Hn.
  - assert (Hsplit : split_at 0 s = ("", s)) by now destruct s.
    rewrite Hsplit. cbn [fst snd String.length].
    split; [reflexivity|]. split; [reflexivity|]. split; [lia|]. now split.
  - destruct s as [|c s]; [cbn in Hn; lia|].
    cbn in Hn. destruct (IH s ltac:(lia)) as (Heq & Hl1 & Hl2 & Hall).
    cbn [split_at]. destruct (split_at n s) as [a b]. cbn [fst snd] in *.
    split; [app; now rewrite <- Heq|]. split; [cbn; now rewrite Hl1|].
    split; [cbn; exact Hl2|].
    intros [Hc Hs]. destruct (Hall Hs). cbn. auto.
Qed.

Lemma number_ends_no_digit s : number_ends s -> no_digit_ahead s.
Proof. destruct s; cbn; tauto. Qed.

Lemma parse_fraction_none rest :
  number_ends rest -> parse_fraction rest = Some ("", rest).
Proof. destruct rest as [|c rest]; [reflexivity|]. cbn. now intros (_ & -> & _). Qed.

Lemma parse_fraction_some frac rest :
  all_digits frac -> frac <> "" -> no_digit_ahead rest ->
  parse_fraction ("." +:+ frac +:+ rest) = Some (frac, rest).
Proof.
  intros Hall Hne Hrest. app. cbn [parse_fraction Ascii.eqb Bool.eqb].
  rewrite (span_digits_append _ _ Hall Hrest). now destruct frac.
Qed.

Lemma parse_exponent_none rest :
  number_ends rest -> parse_exponent rest = Some (0, rest).
Proof.
  destruct rest as [|c rest]; [reflexivity|]. cbn. now intros (_ & _ & -> & ->).
Qed.

Lemma parse_exponent_some e rest :
  no_digit_ahead rest ->
  parse_exponent ("e" +:+ (if 0 <=? e then "+" else "-")
                    +:+ digits (Z.to_N (Z.abs e)) +:+ rest) = Some (e, rest).
Proof.
  intros Hrest.
  destruct (digits_spec (Z.to_N (Z.abs e))) as (c & more & Hhead & Hall & Hval & _).
  destruct (Z.leb_spec 0 e); app; cbn [parse_exponent Ascii.eqb Bool.eqb orb];
    unfold parse_exponent_digits; rewrite (span_digits_append _ _ Hall Hrest);
    rewrite Hval, Hhead; f_equal; f_equal; lia.
Qed.

Lemma is_digit_not_minus c : is_digit c = true -> Ascii.eqb c "-" = false.
Proof.
  intros Hd. destruct (Ascii.eqb_spec c "-") as [->|]; [discriminate Hd | reflexivity].
Qed.


Lemma parse_unsigned_parts negative int tail frac tail' e rest :
  all_digits int -> int <> "" -> leading_zero int = false ->
  no_digit_ahead tail ->
  parse_fraction tail = Some (frac, tail') ->
  parse_exponent tail' = Some (e, rest) ->
  parse_unsigned negative (int +:+ tail)
  = Some (round_decimal negative
            (digits_value (strip_trailing_zeros (int +:+ frac)).1 0)
            (e - Z.of_nat (String.length frac)
             + Z.of_nat (strip_trailing_zeros (int +:+ frac)).2),
          rest).
Proof.
  intros Hall Hne Hlead Htail Hfrac Hexp. unfold parse_unsigned.
  rewrite (span_digits_append _ _ Hall Htail), Hlead, Hfrac, Hexp.
  destruct (strip_trailing_zeros (int +:+ frac)) as [ds z].
  now destruct int.
Qed.

(** Reading what [Number::toString] writes for [s * 10 ^ t] gives the
    Number value of [s * 10 ^ t]. *)
Lemma parse_unsigned_format negative s t rest :
  s <> 0%N -> (s mod 10)%N <> 0%N -> number_ends rest ->
  parse_unsigned negative (format (digits s) t +:+ rest)
  = Some (round_decimal negative s t, rest).
Proof.
  intros Hs Hlast Hrest.
  destruct (digits_spec s) as (c & more & Hhead & Hall & Hval & Hnz & front & Hfront).
  specialize (Hnz Hs).
  assert (Hmod : (s mod 10 < 10)%N) by (apply N.mod_lt; lia).
  destruct (digit_char _ Hmod) as (_ & _ & Hz). specialize (Hz Hlast).
  pose proof (number_ends_no_digit _ Hrest) as Hnd.
  assert (Hstrip : forall n, strip_trailing_zeros (digits s +:+ zeros n) = (digits s, n)).
  { intros n. rewrite Hfront at 1. rewrite append_assoc. app.
    rewrite (strip_trailing_zeros_append _ _ _ Hz). now rewrite <- Hfront. }
  assert (Hstrip0 : strip_trailing_zeros (digits s) = (digits s, O)).
  { rewrite <- (append_nil_r (digits s)) at 1. apply (Hstrip O). }
  unfold format.
  set (k := Z.of_nat (String.length (digits s))).
  assert (Hk : 1 <= k) by (unfold k; rewrite Hhead; cbn [String.length]; lia).
  destruct ((k <=? k + t) && (k + t <=? 21)) eqn:HA.
  { (* the digits, then zeros *)
    apply andb_prop in HA as [H1 H2]. apply Z.leb_le in H1, H2.
    replace (k + t - k) with t by lia.
    destruct (zeros_spec (Z.to_nat t)) as (Hzall & Hzlen & _ & _).
    rewrite (parse_unsigned_parts negative (digits s +:+ zeros (Z.to_nat t)) rest
               "" rest 0 rest).
    - rewrite append_nil_r, Hstrip. cbn [fst snd String.length].
      rewrite Hval. do 3 f_equal. lia.
    - now apply all_digits_append.
    - rewrite Hhead. app. discriminate.
    - rewrite Hhead. app. cbn [leading_zero].
      destruct (more +:+ zeros (Z.to_nat t)); [reflexivity | exact Hnz].
    - exact Hnd.
    - now apply parse_fraction_none.
    - now apply parse_exponent_none. }
  destruct ((0 <? k + t) && (k + t <=? 21)) eqn:HB.
  { (* a point inside the digits *)
    apply andb_prop in HB as [H1 H2]. apply Z.ltb_lt in H1. apply Z.leb_le in H2.
    apply andb_false_iff in HA. rewrite Z.leb_gt in HA.
    assert (Ht : t < 0) by (destruct HA as [HA|HA]; [lia | rewrite Z.leb_gt in HA; lia]).
    destruct (split_at_spec (Z.to_nat (k + t)) (digits s) ltac:(unfold k in *; lia))
      as (Heq & Hl1 & Hl2 & Hparts).
    destruct (Hparts Hall) as [Hint Hfrac].
    destruct (split_at (Z.to_nat (k + t)) (digits s)) as [int frac]. cbn [fst snd] in *.
    rewrite !append_assoc.
    rewrite (parse_unsigned_parts negative int ("." +:+ frac +:+ rest) frac rest 0 rest).
    - rewrite <- Heq, Hstrip0. cbn [fst snd]. rewrite Hval, Hl2.
      do 3 f_equal. unfold k in *. lia.
    - exact Hint.
    - intros ->. cbn in Hl1. lia.
    - rewrite Hhead in Heq. destruct int as [|x int]; [cbn in Hl1; lia|].
      rewrite append_cons in Heq. injection Heq as <- _. cbn [leading_zero].
      destruct int; [reflexivity | exact Hnz].
    - reflexivity.
    - apply parse_fraction_some; [exact Hfrac | | exact Hnd].
      intros ->. cbn in Hl2. unfold k in *. lia.
    - now apply parse_exponent_none. }
  destruct ((-6 <? k + t) && (k + t <=? 0)) eqn:HC.
  { (* after 0. and zeros *)
    apply andb_prop in HC as [H1 H2]. apply Z.ltb_lt in H1. apply Z.leb_le in H2.
    set (j := Z.to_nat (- (k + t))).
    destruct (zeros_spec (S j)) as (Hzall & Hzlen & Hzval & _).
    destruct (zeros_spec j) as (Hjall & Hjlen & _ & _).
    change ("0." +:+ zeros j +:+ digits s) with ("0" +:+ "." +:+ zeros j +:+ digits s).
    rewrite !append_assoc.
    rewrite (parse_unsigned_parts negative "0" ("." +:+ zeros j +:+ digits s +:+ rest)
               (zeros j +:+ digits s) rest 0 rest).
    - change ("0" +:+ zeros j +:+ digits s) with (zeros (S j) +:+ digits s).
      assert (Hs1 : strip_trailing_zeros (zeros (S j) +:+ digits s)
                    = (zeros (S j) +:+ digits s, O)).
      { rewrite Hfront, <- append_assoc.
        apply (strip_trailing_zeros_append (zeros (S j) +:+ front) _ O Hz). }
      rewrite Hs1. cbn [fst snd]. rewrite Hzval, Hval.
      rewrite length_append, Hjlen. do 3 f_equal. unfold j, k in *. lia.
    - cbn. auto.
    - discriminate.
    - reflexivity.
    - reflexivity.
    - rewrite <- (append_assoc (zeros j) (digits s) rest).
      apply parse_fraction_some; [ | | exact Hnd].
      + now apply all_digits_append.
      + rewrite Hhead. destruct (zeros j); discriminate.
    - now apply parse_exponent_none. }
  (* exponential notation *)
  set (e := k + t - 1).
  set (exponent := "e" +:+ (if 0 <=? e then "+" else "-")
                     +:+ digits (Z.to_N (Z.abs e)) +:+ rest).
  assert (Hexp : parse_exponent exponent = Some (e, rest))
    by apply parse_exponent_some, Hnd.
  assert (Hk1 : k = Z.of_nat (String.length (String c more))) by (unfold k; now rewrite Hhead).
  rewrite Hhead. rewrite Hhead in Hall, Hstrip0, Hval.
  destruct Hall as [Hc Hmore].
  destruct more as [|c' more'].
  - rewrite !append_assoc. fold exponent.
    rewrite (parse_unsigned_parts negative (String c "") exponent "" exponent e rest).
    + rewrite append_nil_r, Hstrip0. cbn [fst snd String.length].
      rewrite Hval. do 3 f_equal. unfold e. cbn [String.length] in Hk1. lia.
    + cbn; auto.
    + discriminate.
    + reflexivity.
    + reflexivity.
    + reflexivity.
    + exact Hexp.
  - match goal with
    | |- parse_unsigned _ ?text = _ =>
        replace text with (String c "" +:+ "." +:+ String c' more' +:+ exponent)
          by (unfold exponent;
              repeat (progress (rewrite ?append_cons, ?append_nil_l, ?append_assoc));
              reflexivity)
    end.
    rewrite (parse_unsigned_parts negative (String c "")
               ("." +:+ String c' more' +:+ exponent) (String c' more') exponent e rest).
    + app. rewrite Hstrip0. cbn [fst snd].
      rewrite Hval. do 3 f_equal. unfold e. cbn [String.length] in *. lia.
    + cbn; auto.
    + discriminate.
    + reflexivity.
    + reflexivity.
    + apply parse_fraction_some; [exact Hmore | discriminate | reflexivity].
    + exact Hexp.
Qed.


(** *** Numbers written and read *)

Lemma round_ratio_sign negative p q :
  round_ratio negative p q
  = match round_ratio false p q with
    | Finite _ m e => Finite negative m e
    | Zero _ => Zero negative
    | Infinite _ => Infinite negative
    | Not_a_number => Not_a_number
    end.
Proof.
  unfold round_ratio. cbv zeta.
  repeat match goal with |- context [if ?b then _ else _] => destruct b end; reflexivity.
Qed.

Lemma round_decimal_sign negative s t m e :
  round_decimal false s t = Finite false m e ->
  round_decimal negative s t = Finite negative m e.
Proof.
  unfold round_decimal. destruct (s =? 0)%N; [discriminate|].
  destruct (0 <=? t); rewrite (round_ratio_sign negative); intros ->; reflexivity.
Qed.

Lemma candidate_fits x num den t s :
  candidate x num den t = Some s ->
  s <> 0%N /\ (s mod 10)%N <> 0%N /\ round_decimal false s t = x.
Proof.
  unfold candidate. cbv zeta.
  assert (Hfits : forall s, fits x t s = true ->
            s <> 0%N /\ (s mod 10)%N <> 0%N /\ round_decimal false s t = x).
  { intros s'. unfold fits. intros [[H1 H2]%andb_prop H3]%andb_prop.
    apply negb_true_iff, N.eqb_neq in H1, H2. apply bool_decide_eq_true in H3. auto. }
  destruct (fits x t (Z.to_N (num / den))) eqn:Hlo,
           (fits x t (Z.to_N (num / den) + 1)%N) eqn:Hhi; try discriminate.
  - destruct (_ || _); intros [= <-]; auto.
  - intros [= <-]; auto.
  - intros [= <-]; auto.
Qed.

Lemma search_fits fuel x p q t0 s t :
  search fuel x p q t0 = Some (s, t) ->
  s <> 0%N /\ (s mod 10)%N <> 0%N /\ round_decimal false s t = x.
Proof.
  revert t0. induction fuel as [|fuel IH]; intros t0; [discriminate|].
  cbn [search].
  destruct (candidate x _ _ t0) as [s'|] eqn:Hc.
  - intros [= <- <-]. exact (candidate_fits _ _ _ _ _ Hc).
  - apply IH.
Qed.

Lemma parse_number_unsigned s x rest :
  parse_unsigned false s = Some (x, rest) -> parse_number s = Some (x, rest).
Proof.
  destruct s as [|c s]; [discriminate|]. cbn [parse_number].
  destruct (Ascii.eqb_spec c "-") as [->|]; [discriminate | auto].
Qed.

Lemma parse_number_text x rest :
  printable x -> number_ends rest ->
  parse_number (number_text x +:+ rest) = Some (x, rest).
Proof.
  intros Hx Hrest. destruct x as [|negative|negative|negative m e]; try contradiction.
  - cbn in Hx. subst negative. apply parse_number_unsigned.
    change (number_text (Zero false) +:+ rest) with ("0" +:+ rest).
    rewrite (parse_unsigned_parts false "0" rest "" rest 0 rest); try reflexivity.
    + cbn; auto.
    + discriminate.
    + now apply number_ends_no_digit.
    + now apply parse_fraction_none.
    + now apply parse_exponent_none.
  - destruct Hx as [[s t] Hst]. cbn [number_text]. rewrite Hst.
    change (default (exact_decimal m e) (Some (s, t))) with (s, t). cbv beta iota.
    unfold shortest_decimal in Hst.
    apply search_fits in Hst as (Hs & Hlast & Hround).
    destruct negative.
    + change (("-" +:+ format (digits s) t) +:+ rest)
        with (String "-" (format (digits s) t +:+ rest)).
      cbn [parse_number Ascii.eqb Bool.eqb].
      rewrite (parse_unsigned_format true s t rest Hs Hlast Hrest).
      now rewrite (round_decimal_sign true s t m e Hround).
    + apply parse_number_unsigned. app.
      rewrite (parse_unsigned_format false s t rest Hs Hlast Hrest).
      now rewrite Hround.
Qed.


(** *** Strings written and read *)

Lemma unquote_quote_char c tail :
  unquote (quote_char c +:+ tail) = prepend (String c "") (unquote tail).
Proof. destruct c as [[] [] [] [] [] [] [] []]; reflexivity. Qed.

Lemma unquote_quote_chars s rest :
  unquote (quote_chars s +:+ String dquote rest) = Some (s, rest).
Proof.
  induction s as [|c s IH]; [reflexivity|].
  cbn [quote_chars]. rewrite append_assoc, unquote_quote_char, IH. reflexivity.
Qed.


(** *** Values written and read *)

Ltac norm := repeat (progress (rewrite ?append_cons, ?append_nil_l, ?append_assoc)).

Lemma parse_number_head c s r :
  parse_number (String c s) = Some r -> is_digit c = true \/ c = "-"%char.
Proof.
  cbn [parse_number]. destruct (Ascii.eqb_spec c "-") as [->|_]; [now right|].
  unfold parse_unsigned. cbn [span_digits].
  destruct (is_digit c); [now left | discriminate].
Qed.

(** The first character of a number is no white space and opens or closes
    nothing else. *)
Lemma number_head_tests c :
  is_digit c = true \/ c = "-"%char ->
  is_white_space c = false
  /\ Ascii.eqb c "n" = false /\ Ascii.eqb c "t" = false /\ Ascii.eqb c "f" = false
  /\ Ascii.eqb c dquote = false /\ Ascii.eqb c "[" = false /\ Ascii.eqb c "{" = false
  /\ Ascii.eqb c "]" = false.
Proof.
  intros [Hd | ->]; [|repeat split; reflexivity].
  unfold is_white_space.
  repeat match goal with
    | |- context [Ascii.eqb c ?x] =>
        destruct (Ascii.eqb_spec c x) as [->|_]; [discriminate Hd|]
    end.
  repeat split.
Qed.

Lemma parse_value_number fuel s x rest :
  parse_number s = Some (x, rest) ->
  parse_value (S fuel) s = Some (JNumber x, rest).
Proof.
  intros Hn. destruct s as [|c s]; [discriminate|].
  destruct (number_head_tests c (parse_number_head _ _ _ Hn))
    as (Hw & H1 & H2 & H3 & H4 & H5 & H6 & _).
  cbn [parse_value skip_ws]. rewrite Hw, H1, H2, H3, H4, H5, H6, Hn. reflexivity.
Qed.

Lemma serializable_elements elements :
  fold_right (fun x rest => serializable x /\ rest) True elements
  <-> Forall serializable elements.
Proof.
  induction elements as [|x r IH]; cbn; [split; auto|].
  rewrite IH. split; [intros []; now constructor | intros [? ?]%Forall_cons; auto].
Qed.

Lemma serializable_members (members : list (string * value)) :
  fold_right (fun m rest => serializable m.2 /\ rest) True members
  <-> Forall (fun m => serializable m.2) members.
Proof.
  induction members as [|x r IH]; cbn; [split; auto|].
  rewrite IH. split; [intros []; now constructor | intros [? ?]%Forall_cons; auto].
Qed.

(** Where a written value starts. *)
Lemma print_head v :
  serializable v ->
  exists c tail,
    print v = String c tail /\ is_white_space c = false /\ Ascii.eqb c "]" = false.
Proof.
  destruct v as [|[]|x|s|elements|members]; intros Hv;
    try (eexists _, _; split; [reflexivity|]; split; reflexivity).
  cbn [print]. cbn [serializable] in Hv.
  pose proof (parse_number_text x "" Hv I) as Hp. rewrite append_nil_r in Hp.
  destruct (number_text x) as [|c tail]; [discriminate|].
  destruct (number_head_tests c (parse_number_head _ _ _ Hp)) as (Hw & _ & _ & _ & _ & _ & _ & Hb).
  eauto.
Qed.

Lemma number_ends_comma rest : number_ends (String "," rest).
Proof. repeat split. Qed.

Lemma number_ends_bracket rest : number_ends (String "]" rest).
Proof. repeat split. Qed.

Lemma number_ends_brace rest : number_ends (String "}" rest).
Proof. repeat split. Qed.

Lemma parse_elements_print elements :
  Forall reads_back elements -> Forall serializable elements ->
  elements <> [] ->
  forall fuel seen rest,
    (fold_right (fun x n => S (size x) + n) O elements <= fuel)%nat ->
    parse_elements fuel seen (join (map print elements) +:+ String "]" rest)
    = Some (JArray (rev seen ++ elements)%list, rest).
Proof.
  induction elements as [|x more IH]; [congruence|].
  intros [Hx Hmore]%Forall_cons [Sx Smore]%Forall_cons _ fuel seen rest Hfuel.
  cbn [fold_right] in Hfuel.
  destruct fuel as [|fuel]; [lia|]. cbn [parse_elements].
  destruct more as [|y more].
  - cbn [map join].
    rewrite (Hx Sx fuel (String "]" rest)) by (cbn in *; auto using number_ends_bracket; lia).
    reflexivity.
  - change (join (map print (x :: y :: more)))
      with (print x +:+ "," +:+ join (map print (y :: more))).
    norm.
    rewrite (Hx Sx fuel) by (auto using number_ends_comma; lia).
    cbn [skip_ws is_white_space Ascii.eqb Bool.eqb orb].
    rewrite (IH Hmore Smore ltac:(discriminate) fuel (x :: seen) rest) by lia.
    cbn [rev]. now rewrite <- app_assoc.
Qed.


(** *** Objects *)

Lemma ordered_keys_app keys keys' :
  ordered_keys (keys ++ keys')%list -> ordered_keys keys.
Proof.
  induction keys as [|k keys IH]; [easy|]. cbn.
  intros [[Hk _]%Forall_app Hrest]. auto.
Qed.

Lemma ordered_keys_snoc keys k :
  ordered_keys (keys ++ [k])%list -> Forall (fun k0 => follows k0 k) keys.
Proof.
  induction keys as [|k0 keys IH]; [constructor|]. cbn.
  intros [Hall Hrest]. rewrite Forall_app in Hall. destruct Hall as [_ Hk].
  rewrite Forall_singleton in Hk. constructor; [exact Hk | apply IH, Hrest].
Qed.

Lemma insert_index_last k i v (seen : list (string * value)) :
  array_index k = Some i ->
  Forall (fun m => follows m.1 k) seen ->
  insert_index k i v seen = (seen ++ [(k, v)])%list.
Proof.
  intros Hk. induction seen as [|m seen IH]; [reflexivity|].
  intros [[_ Hm] Hseen]%Forall_cons. cbn [insert_index]. rewrite Hk in Hm.
  destruct (array_index m.1) as [j|]; [|contradiction].
  apply N.ltb_lt in Hm. rewrite Hm, (IH Hseen). reflexivity.
Qed.

Lemma set_member_last k v (seen : list (string * value)) :
  Forall (fun m => follows m.1 k) seen ->
  set_member k v seen = (seen ++ [(k, v)])%list.
Proof.
  intros Hseen. unfold set_member.
  assert (Hfresh : existsb (fun m => String.eqb k m.1) seen = false).
  { induction Hseen as [|m seen [Hne _] _ IH]; [reflexivity|]. cbn.
    rewrite IH. destruct (String.eqb_spec k m.1); [congruence | reflexivity]. }
  rewrite Hfresh. destruct (array_index k) as [i|] eqn:Hk; [|reflexivity].
  now apply insert_index_last.
Qed.

Lemma parse_members_print (members : list (string * value)) :
  Forall (fun m => reads_back m.2) members ->
  Forall (fun m => serializable m.2) members ->
  members <> [] ->
  forall fuel seen rest,
    ordered_keys (map fst (seen ++ members)%list) ->
    (fold_right (fun m n => S (size m.2) + n) O members <= fuel)%nat ->
    parse_members fuel seen
      (join (map (fun m => quote m.1 +:+ ":" +:+ print m.2) members) +:+ String "}" rest)
    = Some (JObject (seen ++ members)%list, rest).
Proof.
  induction members as [|[k v] more IH]; [congruence|].
  intros [Hv Hmore]%Forall_cons [Sv Smore]%Forall_cons _ fuel seen rest Hord Hfuel.
  cbn [fold_right snd] in Hfuel. cbn [fst snd] in Hv, Sv.
  destruct fuel as [|fuel]; [lia|].
  assert (Hset : set_member k v seen = (seen ++ [(k, v)])%list).
  { apply set_member_last.
    replace (seen ++ (k, v) :: more)%list with ((seen ++ [(k, v)]) ++ more)%list in Hord
      by now rewrite <- app_assoc.
    rewrite map_app in Hord. apply ordered_keys_app in Hord.
    rewrite map_app in Hord. apply ordered_keys_snoc in Hord.
    now apply Forall_map in Hord. }
  destruct more as [|m' more].
  - cbn [map join fst snd]. unfold quote. norm.
    cbn [parse_members skip_ws].
    change (is_white_space dquote) with false. cbv iota.
    rewrite Ascii.eqb_refl, unquote_quote_chars.
    cbn [skip_ws is_white_space Ascii.eqb Bool.eqb orb].
    rewrite (Hv Sv fuel (String "}" rest)) by (auto using number_ends_brace; lia).
    cbn [skip_ws is_white_space Ascii.eqb Bool.eqb orb].
    now rewrite Hset.
  - change (join (map (fun m => quote m.1 +:+ ":" +:+ print m.2) ((k, v) :: m' :: more)))
      with ((quote k +:+ ":" +:+ print v) +:+ ","
            +:+ join (map (fun m => quote m.1 +:+ ":" +:+ print m.2) (m' :: more))).
    unfold quote at 1. norm.
    cbn [parse_members skip_ws].
    change (is_white_space dquote) with false. cbv iota.
    rewrite Ascii.eqb_refl, unquote_quote_chars.
    cbn [skip_ws is_white_space Ascii.eqb Bool.eqb orb].
    rewrite (Hv Sv fuel) by (auto using number_ends_comma; lia).
    cbn [skip_ws is_white_space Ascii.eqb Bool.eqb orb].
    rewrite Hset.
    rewrite (IH Hmore Smore ltac:(discriminate) fuel (seen ++ [(k, v)])%list rest).
    + now rewrite <- app_assoc.
    + now rewrite <- app_assoc.
    + lia.
Qed.


(** *** The round trip *)

Lemma reads_back_all v : reads_back v.
Proof.
  induction v as [|b|x|s|elements IH|members IH] using value_induction;
    intros Hv fuel rest Hfuel Hrest;
    (destruct fuel as [|fuel]; [cbn in Hfuel; lia|]).
  - reflexivity.
  - destruct b; reflexivity.
  - apply parse_value_number, parse_number_text; assumption.
  - cbn [print]. unfold quote. norm.
    cbn [parse_value skip_ws].
    change (is_white_space dquote) with false. cbv iota.
    change (Ascii.eqb dquote "n") with false. change (Ascii.eqb dquote "t") with false.
    change (Ascii.eqb dquote "f") with false. cbv iota.
    rewrite Ascii.eqb_refl, unquote_quote_chars. reflexivity.
  - cbn [serializable] in Hv. apply serializable_elements in Hv.
    cbn [size] in Hfuel. cbn [print]. norm.
    destruct elements as [|x more]; [reflexivity|].
    assert (Hx : serializable x) by now apply Forall_cons in Hv.
    destruct (print_head x Hx) as (c & tail & Hhead & Hw & Hb).
    cbn [parse_value skip_ws is_white_space Ascii.eqb Bool.eqb orb].
    transitivity (parse_elements fuel [] (join (map print (x :: more)) +:+ String "]" rest)).
    + destruct more; cbn [map join]; rewrite Hhead; norm;
        cbn [skip_ws]; rewrite Hw, Hb; reflexivity.
    + apply (parse_elements_print (x :: more) IH Hv ltac:(discriminate) fuel [] rest). lia.
  - cbn [serializable] in Hv. destruct Hv as [Hord Hv]. apply serializable_members in Hv.
    cbn [size] in Hfuel. cbn [print]. norm.
    destruct members as [|[k v] more]; [reflexivity|].
    cbn [parse_value skip_ws is_white_space Ascii.eqb Bool.eqb orb].
    transitivity (parse_members fuel []
                    (join (map (fun m => quote m.1 +:+ ":" +:+ print m.2) ((k, v) :: more))
                     +:+ String "}" rest)).
    + destruct more; cbn [map join fst]; unfold quote at 1; norm; reflexivity.
    + apply (parse_members_print ((k, v) :: more) IH Hv ltac:(discriminate) fuel [] rest
               Hord). lia.
Qed.

Lemma length_join {A} (text : A -> string) (weight : A -> nat) (l : list A) :
  Forall (fun x => (weight x <= String.length (text x))%nat) l ->
  (fold_right (fun x n => S (weight x) + n) O l
   <= String.length (join (map text l)) + 1)%nat.
Proof.
  induction l as [|x rest IH]; [cbn; lia|].
  intros [Hx Hrest]%Forall_cons. specialize (IH Hrest).
  destruct rest as [|y rest].
  - cbn [map join fold_right]. lia.
  - change (join (map text (x :: y :: rest)))
      with (text x +:+ "," +:+ join (map text (y :: rest))).
    rewrite !length_append. cbn [fold_right String.length] in *. lia.
Qed.

(** The length of its text is fuel enough for a value. *)
Lemma size_print v : serializable v -> (size v <= String.length (print v))%nat.
Proof.
  induction v as [|b|x|s|elements IH|members IH] using value_induction; intros Hv;
    try (destruct (print_head _ Hv) as (c & tail & -> & _); cbn; lia).
  - cbn [serializable] in Hv. apply serializable_elements in Hv.
    assert (Hall : Forall (fun x => (size x <= String.length (print x))%nat) elements).
    { apply Forall_forall. intros x Hx.
      rewrite Forall_forall in IH, Hv. auto. }
    pose proof (length_join print size elements Hall) as Hlen.
    cbn [size print]. rewrite !length_append. cbn [String.length]. lia.
  - cbn [serializable] in Hv. destruct Hv as [_ Hv]. apply serializable_members in Hv.
    assert (Hall : Forall (fun m : string * value =>
                             (size m.2 <= String.length (quote m.1 +:+ ":" +:+ print m.2))%nat)
                     members).
    { apply Forall_forall. intros m Hm.
      rewrite Forall_forall in IH, Hv. rewrite !length_append.
      specialize (IH m Hm (Hv m Hm)). lia. }
    pose proof (length_join (fun m : string * value => quote m.1 +:+ ":" +:+ print m.2)
                  (fun m => size m.2) members Hall) as Hlen.
    cbn [size print]. rewrite !length_append. cbn [String.length]. lia.
Qed.

(** [JSON.parse(JSON.stringify(v))] is [v], for every serializable [v]. *)
Lemma parse_print v : serializable v -> parse (print v) = Some v.
Proof.
  intros Hv. unfold parse.
  pose proof (reads_back_all v Hv (S (String.length (print v))) ""
                ltac:(pose proof (size_print v Hv); lia) I) as Hp.
  rewrite append_nil_r in Hp. rewrite Hp. reflexivity.
Qed.

(** *** Integers are printable *)

Lemma round_ratio_integer negative z :
  0 < z < 2 ^ 53 ->
  round_ratio negative z 1
  = Finite negative (Z.to_pos (z * 2 ^ (52 - Z.log2 z))) (Z.log2 z - 52).
Proof.
  intros [Hpos Hlt]. unfold round_ratio, binade.
  pose proof (Z.log2_spec z Hpos) as [Hlo Hhi].
  pose proof (Z.log2_nonneg z) as Hlog.
  assert (Hlog52 : Z.log2 z <= 52).
  { destruct (Z.le_gt_cases (Z.log2 z) 52) as [|Hgt]; [assumption|].
    assert (2 ^ 53 <= 2 ^ Z.log2 z) by (apply Z.pow_le_mono_r; lia). lia. }
  change (Z.log2 1) with 0. rewrite Z.sub_0_r.
  destruct (Z.leb_spec 0 (Z.log2 z)) as [_|]; [|lia].
  rewrite Z.mul_1_l. destruct (Z.leb_spec (2 ^ Z.log2 z) z) as [_|]; [|lia].
  rewrite Z.max_l by lia.
  set (e := Z.log2 z - 52).
  assert (Hm : 2 ^ 52 <= z * 2 ^ (- e) < 2 ^ 53).
  { replace (2 ^ 52) with (2 ^ Z.log2 z * 2 ^ (- e))
      by (rewrite <- Z.pow_add_r by lia; f_equal; lia).
    replace (2 ^ 53) with (2 ^ Z.succ (Z.log2 z) * 2 ^ (- e))
      by (rewrite <- Z.pow_add_r by lia; f_equal; lia).
    assert (0 < 2 ^ (- e)) by (apply Z.pow_pos_nonneg; lia). nia. }
  destruct (Z.leb_spec 0 e) as [He|He].
  - assert (e = 0) by lia. replace (- e) with 0 in Hm by lia.
    replace (2 ^ e) with 1 by (replace e with 0 by lia; reflexivity).
    rewrite Z.mul_1_r in *. rewrite Z.div_1_r, Z.mod_1_r, Z.mul_0_r.
    change (1 <? 0) with false. change (0 =? 1) with false. cbn [orb andb].
    destruct (Z.eqb_spec z (2 ^ 53)); [lia|].
    destruct (Z.eqb_spec z 0); [lia|].
    destruct (Z.ltb_spec 971 e); [lia|].
    unfold e. replace (52 - Z.log2 z) with 0 by lia.
    change (2 ^ 0) with 1. now rewrite Z.mul_1_r.
  - rewrite Z.div_1_r, Z.mod_1_r, Z.mul_0_r.
    change (1 <? 0) with false. change (0 =? 1) with false. cbn [orb andb].
    destruct (Z.eqb_spec (z * 2 ^ (- e)) (2 ^ 53)); [lia|].
    destruct (Z.eqb_spec (z * 2 ^ (- e)) 0); [lia|].
    destruct (Z.ltb_spec 971 e); [lia|].
    unfold e. replace (- (Z.log2 z - 52)) with (52 - Z.log2 z) by lia. reflexivity.
Qed.


Lemma digits_value_bound ds acc :
  all_digits ds ->
  (digits_value ds acc < (acc + 1) * 10 ^ N.of_nat (String.length ds))%N.
Proof.
  revert acc. induction ds as [|c ds IH]; intros acc Hall.
  - cbn. lia.
  - destruct Hall as [Hc Hall]. cbn [digits_value String.length].
    specialize (IH (10 * acc + (N_of_ascii c - 48))%N Hall).
    unfold is_digit in Hc. apply andb_prop in Hc as [Hlo Hhi].
    apply N.leb_le in Hlo, Hhi.
    replace (N.of_nat (S (String.length ds))) with (N.succ (N.of_nat (String.length ds)))
      by lia.
    rewrite N.pow_succ_r'. nia.
Qed.

Lemma digits_bound n : (n < 10 ^ N.of_nat (String.length (digits n)))%N.
Proof.
  destruct (digits_spec n) as (c & more & _ & Hall & Hval & _).
  pose proof (digits_value_bound (digits n) 0 Hall) as Hb.
  rewrite Hval in Hb. lia.
Qed.

(** A positive integer is a number not divisible by 10 times a power
    of 10. *)
Lemma without_trailing_zeros z :
  (0 < z)%N -> exists s t, z = (s * 10 ^ t)%N /\ (s mod 10)%N <> 0%N.
Proof.
  induction z as [z IH] using (well_founded_induction N.lt_wf_0). intros Hz.
  destruct (N.eq_dec (z mod 10)%N 0%N) as [Hmod|Hmod].
  - pose proof (N.div_mod z 10 ltac:(lia)) as Hdm. rewrite Hmod, N.add_0_r in Hdm.
    destruct (IH (z / 10)%N ltac:(lia) ltac:(lia)) as (s & t & Heq & Hs).
    exists s, (N.succ t). split; [|exact Hs].
    rewrite N.pow_succ_r', Hdm, Heq. lia.
  - exists z, 0%N. split; [cbn; lia | exact Hmod].
Qed.

Lemma search_reaches fuel x p q t t1 :
  t1 <= t -> (Z.to_nat (t - t1) < fuel)%nat ->
  candidate x (if 0 <=? t1 then p else p * 10 ^ (- t1))
              (if 0 <=? t1 then q * 10 ^ t1 else q) t1 <> None ->
  search fuel x p q t <> None.
Proof.
  revert t. induction fuel as [|fuel IH]; intros t Ht Hfuel Hc; [lia|].
  cbn [search].
  destruct (candidate x _ _ t) eqn:Hhere; [discriminate|].
  assert (t1 <> t) by (intros ->; contradiction).
  apply IH; [lia | lia | exact Hc].
Qed.

(** Every integer that a double holds together with its neighbours is
    printable. *)
Lemma integer_printable z : - 2 ^ 53 < z < 2 ^ 53 -> printable (integer z).
Proof.
  intros Hz. unfold integer, round_decimal.
  destruct (N.eqb_spec (Z.to_N (Z.abs z)) 0) as [Hzero|Hzero].
  { cbn. destruct (Z.ltb_spec z 0); [lia | reflexivity]. }
  change (0 <=? 0) with true. cbv iota. rewrite Z.pow_0_r, Z.mul_1_r, Z2N.id by lia.
  set (a := Z.abs z). assert (Ha : 0 < a < 2 ^ 53) by (unfold a; lia).
  rewrite (round_ratio_integer _ a Ha). cbn [printable].
  pose proof (Z.log2_spec a ltac:(lia)) as [Hlo Hhi].
  pose proof (Z.log2_nonneg a) as Hlog.
  assert (Hlog52 : Z.log2 a <= 52).
  { destruct (Z.le_gt_cases (Z.log2 a) 52) as [|Hgt]; [assumption|].
    assert (2 ^ 53 <= 2 ^ Z.log2 a) by (apply Z.pow_le_mono_r; lia). lia. }
  set (e := Z.log2 a - 52). set (q := 2 ^ (52 - Z.log2 a)).
  assert (Hq : 0 < q) by (apply Z.pow_pos_nonneg; lia).
  set (m := Z.to_pos (a * q)).
  assert (Hm : Z.pos m = a * q) by (unfold m; rewrite Z2Pos.id; nia).
  (* the quotient the search starts from is [a] *)
  unfold shortest_decimal.
  set (p' := if 0 <=? e then Z.pos m * 2 ^ e else Z.pos m).
  set (q' := if 0 <=? e then 1 else 2 ^ (- e)).
  assert (Hpq : p' = a * q' /\ 0 < q').
  { unfold p', q'. destruct (Z.leb_spec 0 e) as [He|He].
    - assert (He0 : e = 0) by (unfold e in *; lia).
      rewrite He0, Z.pow_0_r, Z.mul_1_r, Hm. unfold q.
      replace (52 - Z.log2 a) with 0 by (unfold e in *; lia). split; lia.
    - rewrite Hm. unfold q. replace (- e) with (52 - Z.log2 a) by (unfold e; lia).
      split; [reflexivity | exact Hq]. }
  destruct Hpq as [Hp' Hq'].
  assert (Hquot : p' / q' = a) by (rewrite Hp'; apply Z.div_mul; lia).
  rewrite Hquot.
  destruct (without_trailing_zeros (Z.to_N a) ltac:(lia)) as (s & t & Hst & Hs).
  set (t0 := Z.of_nat (String.length (digits (Z.to_N a)))).
  assert (Hstz : a = Z.of_N s * 10 ^ Z.of_N t).
  { rewrite <- (Z2N.id a) by lia. rewrite Hst, N2Z.inj_mul, N2Z.inj_pow. reflexivity. }
  assert (Hs0 : s <> 0%N) by (intros ->; apply Hs; reflexivity).
  assert (Ht0 : Z.of_N t <= t0).
  { pose proof (digits_bound (Z.to_N a)) as Hb. rewrite Hst in Hb at 1.
    assert (Hpow : (10 ^ t < 10 ^ N.of_nat (String.length (digits (Z.to_N a))))%N).
    { eapply N.le_lt_trans; [|exact Hb].
      rewrite <- (N.mul_1_l (10 ^ t)) at 1. apply N.mul_le_mono_r. lia. }
    apply N.pow_lt_mono_r_iff in Hpow; [|lia]. unfold t0. lia. }
  enough (Hsome : search (Z.to_nat (t0 + 345)) (Finite false m e) p' q' t0 <> None).
  { destruct (search _ _ _ _ _); [eauto | contradiction]. }
  apply (search_reaches _ _ _ _ _ (Z.of_N t) Ht0); [lia|].
  destruct (Z.leb_spec 0 (Z.of_N t)); [|lia].
  unfold candidate.
  assert (Hlow : Z.to_N (p' / (q' * 10 ^ Z.of_N t)) = s).
  { rewrite Hp', Hstz.
    replace (Z.of_N s * 10 ^ Z.of_N t * q') with (Z.of_N s * (q' * 10 ^ Z.of_N t)) by lia.
    rewrite Z.div_mul.
    - apply N2Z.id.
    - assert (0 < 10 ^ Z.of_N t) by (apply Z.pow_pos_nonneg; lia). nia. }
  rewrite Hlow.
  assert (Hfits : fits (Finite false m e) (Z.of_N t) s = true).
  { unfold fits. apply andb_true_intro. split; [apply andb_true_intro; split|].
    - now apply negb_true_iff, N.eqb_neq.
    - now apply negb_true_iff, N.eqb_neq.
    - apply bool_decide_eq_true. unfold round_decimal.
      destruct (N.eqb_spec s 0); [contradiction|].
      destruct (Z.leb_spec 0 (Z.of_N t)); [|lia].
      rewrite <- Hstz, (round_ratio_integer false a Ha). reflexivity. }
  rewrite Hfits. destruct (fits _ _ (s + 1)); [|discriminate].
  destruct (_ || _); discriminate.
Qed.

End JsonFacts.

(** ** setCachedResponse then getCachedResponse *)

Lemma response_serializable statusCode body :
  - 2 ^ 53 < statusCode < 2 ^ 53 -> Json.serializable body ->
  Json.serializable (Json.response statusCode body).
Proof.
  intros Hz Hbody. unfold Json.response.
  cbn [Json.serializable fold_right map fst snd].
  split; [|split; [now apply JsonFacts.integer_printable | split; [exact Hbody | exact I]]].
  cbn [Json.ordered_keys]. repeat split; repeat constructor; discriminate.
Qed.

Lemma sample_serializable : Json.serializable Json.sample.
Proof.
  apply response_serializable; [lia|].
  cbn [Json.serializable fold_right map fst snd Json.ordered_keys].
  repeat split; repeat constructor; try discriminate.
  vm_compute. eexists. reflexivity.
Qed.

(** The text of a response with a null body is the one the codec of
    status responses writes, [{"statusCode":200,"body":null}]. *)
Lemma print_status_response :
  Json.print (Json.response 200 Json.JNull)
  = StatusResponse.opening +:+ "200" +:+ StatusResponse.closing.
Proof. vm_compute. reflexivity. Qed.

(** What is not serializable does not come back as it was: [NaN] and the
    infinities come back as [null], the negative zero as the positive one,
    and an object built with an array index after another key comes back
    with the index first. *)
Lemma not_serializable_read_back :
  Json.parse (Json.print (Json.JNumber Json.Not_a_number)) = Some Json.JNull
  /\ Json.parse (Json.print (Json.JNumber (Json.Infinite false))) = Some Json.JNull
  /\ Json.parse (Json.print (Json.JNumber (Json.Zero true)))
     = Some (Json.JNumber (Json.Zero false))
  /\ Json.parse (Json.print (Json.JObject [("a", Json.JNull); ("1", Json.JNull)]))
     = Some (Json.JObject [("1", Json.JNull); ("a", Json.JNull)]).
Proof. repeat split; vm_compute; reflexivity. Qed.

(** C6. On an enabled manager, for every scope key and url and every
    serializable response, [setCachedResponse] is fulfilled and
    [getCachedResponse] on the same key and url afterwards is fulfilled
    with that response: [JSON.parse] of the text that [JSON.stringify]
    wrote is the response again.  The responses are plain data ([null],
    booleans, Numbers, strings, arrays and objects of these), and one is
    serializable when each of its Numbers is the positive zero or a finite
    Number that [Number::toString] writes by its shortest decimal (not
    [NaN], an infinity or the negative zero, which [JSON.stringify] writes
    as [null] and [0]), and the members of its objects are in the order of
    an object's properties, no key twice.  Every [{statusCode, body}] with
    an integer status code of magnitude below 2^53 and a serializable body
    is serializable.  Any pairing of the two revisions. *)
Theorem set_then_get_cached_response this ops key url :
  isEnabled this = true -> _opsClient this = Some ops ->
  (forall (response : Json.value) (srv : Server) set get,
     Json.serializable response ->
     is_setCachedResponse this key url response set ->
     is_getCachedResponse this key url get ->
     (run redis set srv).1.2 = Fulfilled tt
     /\ (run redis get (run redis set srv).2).1.2 = Fulfilled (Some response))
  /\ (forall statusCode body,
        - 2 ^ 53 < statusCode < 2 ^ 53 -> Json.serializable body ->
        Json.serializable (Json.response statusCode body)).
Proof.
  intros Hon Hops. split; [|exact response_serializable].
  intros response srv set get Hser Hset Hget.
  assert (Hs : JSON_stringify response = inr (Json.print response)) by reflexivity.
  destruct (run_setCachedResponse this ops key url response (Json.print response) srv set
              Hon Hops Hs Hset) as (Hrun & _).
  split; [now rewrite Hrun|].
  rewrite (get_after_set this ops key url response (Json.print response) srv set get
             Hon Hops Hs Hset Hget).
  cbn [JSON_parse Json.codec]. now rewrite (JsonFacts.parse_print response Hser).
Qed.

Lemma set_then_get_cached_response_witness :
  (run redis (AsyncManager.getCachedResponse QManager.constructor_ "scope" "/a")
     (run redis (QManager.setCachedResponse QManager.constructor_ "scope" "/a" Json.sample)
        ∅).2).1.2
  = Fulfilled (Some Json.sample).
Proof.
  apply (proj1 (set_then_get_cached_response QManager.constructor_ Redis_default
                  "scope" "/a" eq_refl eq_refl)).
  - exact sample_serializable.
  - left. reflexivity.
  - right. reflexivity.
Defined.

(** ** recordUpdate: one transaction *)

Lemma same_data_refl s : same_data s s.
Proof. intros i. reflexivity. Qed.

Lemma same_data_trans s1 s2 s3 : same_data s1 s2 -> same_data s2 s3 -> same_data s1 s3.
Proof. intros H12 H23 i. now rewrite H12. Qed.

Lemma redis_eq R conn (cmd : Cmd R) srv :
  redis R conn cmd srv
  = ((db_answer cmd (database srv (db conn))).1,
     <[db conn := (db_answer cmd (database srv (db conn))).2]> srv).
Proof. unfold redis. now destruct (db_answer cmd _). Qed.

Lemma redis_same_data R conn (cmd : Cmd R) s1 s2 :
  same_data s1 s2 ->
  (redis R conn cmd s1).1 = (redis R conn cmd s2).1
  /\ same_data (redis R conn cmd s1).2 (redis R conn cmd s2).2.
Proof.
  intros Hs. rewrite !redis_eq. cbn. rewrite (Hs (db conn)). split; [reflexivity|].
  intros i. rewrite !database_insert. destruct (decide _); [reflexivity | apply Hs].
Qed.

Lemma read_leaves_data R conn (cmd : Cmd R) srv :
  is_read cmd = true -> same_data (redis R conn cmd srv).2 srv.
Proof.
  intros Hr. rewrite redis_eq. cbn. intros i. rewrite database_insert.
  destruct (decide _) as [<-|]; [|reflexivity].
  destruct cmd; try discriminate Hr; reflexivity.
Qed.

Lemma advance_reads_only {A} (p p' : Promise A) srv srv' :
  reads_only p -> advance p srv = Some (srv', p') ->
  reads_only p' /\ same_data srv' srv.
Proof.
  destruct p as [a|e|e|R conn cmd k]; cbn; try discriminate.
  intros [Hr Hk]. pose proof (read_leaves_data R conn cmd srv Hr) as Hsame.
  destruct (redis R conn cmd srv) as [r s1]. intros [= <- <-]. split; [apply Hk | exact Hsame].
Qed.

Lemma getMetricsWithDeploymentKey_reads_only this deploymentKey :
  reads_only (QManager.getMetricsWithDeploymentKey this deploymentKey)
  /\ reads_only (AsyncManager.getMetricsWithDeploymentKey this deploymentKey).
Proof.
  unfold QManager.getMetricsWithDeploymentKey, AsyncManager.getMetricsWithDeploymentKey.
  destruct (isEnabled this), (_metricsClient this); cbn; repeat split;
    intros [?|?]; exact I.
Qed.

Lemma recordUpdate_one_command this metrics currentKey currentLabel previousKey
    previousLabel p :
  isEnabled this = true -> _metricsClient this = Some metrics ->
  truthy currentLabel = true -> truthy previousKey = true ->
  truthy previousLabel = true ->
  is_recordUpdate this currentKey currentLabel (Some previousKey) (Some previousLabel) p ->
  exists k,
    p = Send metrics
          (EXEC (transition currentKey currentLabel previousKey previousLabel)) k
    /\ (forall results, k (Ok results) = Resolve tt)
    /\ (forall reason, k (Failed reason) = Reject reason).
Proof.
  intros Hon Hm Hc Hpk Hpl Hp.
  destruct Hp as [-> | ->];
    unfold QManager.recordUpdate, AsyncManager.recordUpdate;
    rewrite Hon, Hm; cbn;
    unfold Utilities.getLabelActiveCountField; rewrite Hc, Hpk, Hpl; cbn;
    eexists; (split; [reflexivity|]); split; reflexivity.
Qed.

Lemma exec_answer batch srv metrics :
  redis _ metrics (EXEC batch) srv
  = (Ok (exec batch (database srv (db metrics))).1, committed metrics batch srv).
Proof.
  rewrite redis_eq. unfold committed. cbn.
  now destruct (exec batch (database srv (db metrics))).
Qed.

Lemma committed_same_data metrics batch s1 s2 :
  same_data s1 s2 -> same_data (committed metrics batch s1) (committed metrics batch s2).
Proof.
  intros Hs i. unfold committed. rewrite !database_insert, (Hs (db metrics)).
  destruct (decide _); [reflexivity | apply Hs].
Qed.

Lemma before_or_after_step {B} p batch metrics srv k
    (c c' : Server * Promise unit * list (Promise B)) :
  p = Send metrics (EXEC batch) k ->
  (forall results, k (Ok results) = Resolve tt) ->
  before_or_after p batch metrics srv c -> step c c' ->
  before_or_after p batch metrics srv c'.
Proof.
  intros Hp Hk [Hro Hst] Hstep.
  destruct Hstep as [s w readers s' w' Hadv | s w readers i r s' r' Hi Hadv];
    cbn in *.
  - split; [assumption|]. right.
    destruct Hst as [[-> Hs] | [-> Hs]]; [|discriminate Hadv].
    subst p. cbn in Hadv. rewrite exec_answer in Hadv.
    injection Hadv as <- <-. split; [apply Hk|].
    now apply committed_same_data.
  - assert (Hr : reads_only r).
    { rewrite Forall_lookup in Hro. exact (Hro i r Hi). }
    destruct (advance_reads_only r r' s s' Hr Hadv) as [Hr' Hsame].
    split.
    + apply Forall_insert; assumption.
    + destruct Hst as [[-> Hs] | [-> Hs]]; [left | right];
        (split; [reflexivity|]); exact (same_data_trans _ _ _ Hsame Hs).
Qed.

Lemma before_or_after_always {B} p batch metrics srv k
    (readers : list (Promise B)) c :
  p = Send metrics (EXEC batch) k ->
  (forall results, k (Ok results) = Resolve tt) ->
  Forall reads_only readers ->
  rtc step (srv, p, readers) c ->
  before_or_after p batch metrics srv c.
Proof.
  intros Hp Hk Hro Hsteps.
  revert c Hsteps. apply (rtc_ind_r (before_or_after p batch metrics srv)).
  - split; [exact Hro|]. left. split; [reflexivity | apply same_data_refl].
  - intros c1 c2 _ Hstep IH.
    exact (before_or_after_step p batch metrics srv k c1 c2 Hp Hk IH Hstep).
Qed.

(** *** What the transaction does to the counters *)

Lemma last_char_append s c t :
  last_char (s +:+ String c t) = last_char (String c t).
Proof.
  induction s as [|c' s IH]; [reflexivity|].
  change (String c' s +:+ String c t) with (String c' (s +:+ String c t)).
  cbn [last_char]. rewrite IH.
  destruct (s +:+ String c t) eqn:Hs; [|reflexivity].
  destruct s; discriminate Hs.
Qed.

Lemma active_field_not_succeeded l1 l2 :
  l1 +:+ ":Active" <> l2 +:+ ":DeploymentSucceeded".
Proof.
  intros Heq. apply (f_equal last_char) in Heq.
  rewrite !last_char_append in Heq. discriminate Heq.
Qed.

Lemma transition_applies (d : Db) currentKey currentLabel previousKey previousLabel
    (a s q : Z) :
  let hash2 := Utilities.getDeploymentKeyLabelsHash currentKey in
  let hash1 := Utilities.getDeploymentKeyLabelsHash previousKey in
  let batch := transition currentKey currentLabel previousKey previousLabel in
  counter d hash2 (currentLabel +:+ ":Active") = Some a ->
  counter d hash2 (currentLabel +:+ ":DeploymentSucceeded") = Some s ->
  counter d hash1 (previousLabel +:+ ":Active") = Some q ->
  a < LLONG_MAX -> s < LLONG_MAX -> LLONG_MIN < q ->
  Forall accepted (exec batch d).1
  /\ ttl (exec batch d).2 = ttl d
  /\ (forall key field,
        counter (exec batch d).2 key field
        = (fun v => v + net_delta batch key field) <$> counter d key field)
  /\ (forall key field,
        Forall (fun q => ~ aims_at key field q) batch ->
        hash_at (exec batch d).2 key !! field = hash_at d key !! field).
Proof.
  intros hash2 hash1 batch Ha Hs Hq Hra Hrs Hrq.
  pose proof (counter_range _ _ _ _ Ha) as Hba.
  pose proof (counter_range _ _ _ _ Hs) as Hbs.
  pose proof (counter_range _ _ _ _ Hq) as Hbq.
  set (fA := currentLabel +:+ ":Active") in *.
  set (fS := currentLabel +:+ ":DeploymentSucceeded") in *.
  set (fP := previousLabel +:+ ":Active") in *.
  assert (HAS : fA <> fS) by apply active_field_not_succeeded.
  assert (HPS : fP <> fS) by apply active_field_not_succeeded.
  (* first increment *)
  set (d1 := set_field hash2 fA (ll2string (a + 1)) d).
  assert (H1 : hincrby hash2 fA 1 d = (Ok (a + 1), d1))
    by (apply hincrby_accepted; [assumption | lia]).
  (* second increment *)
  assert (Hs1 : counter d1 hash2 fS = Some s).
  { unfold d1. rewrite counter_set_field by lia.
    rewrite decide_False by (intros [_ ?]; done). assumption. }
  set (d2 := set_field hash2 fS (ll2string (s + 1)) d1).
  assert (H2 : hincrby hash2 fS 1 d1 = (Ok (s + 1), d2))
    by (apply hincrby_accepted; [assumption | lia]).
  (* third increment: the counter may be the one of the first *)
  set (alias := if decide (hash2 = hash1 /\ fA = fP) then 1 else 0).
  assert (Hq2 : counter d2 hash1 fP = Some (q + alias)).
  { unfold d2. rewrite counter_set_field by lia.
    rewrite decide_False by (intros [_ ?]; done).
    unfold d1. rewrite counter_set_field by lia. unfold alias.
    destruct (decide (hash2 = hash1 /\ fA = fP)) as [[E1 E2]|].
    - rewrite <- E1, <- E2 in Hq. rewrite Ha in Hq. injection Hq as ->. reflexivity.
    - rewrite Hq. f_equal. lia. }
  assert (Halias : 0 <= alias <= 1) by (unfold alias; destruct (decide _); lia).
  set (d3 := set_field hash1 fP (ll2string (q + alias + -1)) d2).
  assert (H3 : hincrby hash1 fP (-1) d2 = (Ok (q + alias + -1), d3))
    by (apply hincrby_accepted; [assumption | lia]).
  assert (Hexec : exec batch d = ([Ok (a + 1); Ok (s + 1); Ok (q + alias + -1)], d3)).
  { unfold batch, transition. cbn [exec queued_exec toArg default].
    unfold id. fold fA fS fP hash2 hash1. rewrite H1, H2, H3. reflexivity. }
  rewrite Hexec. cbn [fst snd].
  split; [repeat constructor|]. split; [reflexivity|]. split.
  - intros key field. unfold batch, transition. cbn [net_delta toArg default].
    unfold id. fold fA fS fP hash2 hash1.
    unfold d3, d2, d1. rewrite !counter_set_field by lia.
    unfold alias.
    repeat destruct (decide _); destruct_and?; simplify_eq; cbn;
      rewrite ?Ha, ?Hs, ?Hq; cbn; try (f_equal; lia); try done;
      try (destruct (counter d key field); cbn; f_equal; lia);
      exfalso; tauto.
  - intros key field. unfold batch, transition. rewrite !Forall_cons.
    cbn [aims_at toArg default]. unfold id. fold fA fS fP hash2 hash1.
    intros (N1 & N2 & N3 & _).
    unfold d3, d2, d1. rewrite !lookup_set_field.
    rewrite !decide_False by assumption. reflexivity.
Qed.

(** *** One step, three deltas *)

(** C1, as the claim states it, fails, in two ways.  When the store
    refuses the increment of [v2:Active] (it would overflow), it applies
    the other two commands of the transaction all the same and the call is
    fulfilled: what readers see from then on has two of the three deltas.
    And when the current label is empty, no delta reaches the field
    [:Active]: the increment goes to the field with the empty name. *)
Lemma recordUpdate_not_three_deltas :
  (let call :=
     QManager.recordUpdate QManager.constructor_ "D2" "v2" (Some "D1") (Some "v1") in
   let before := database saturated_store METRICS_DB in
   let after := database (run redis call saturated_store).2 METRICS_DB in
   (run redis call saturated_store).1.2 = Fulfilled tt
   /\ hash_at after "deploymentKeyLabels:D2" !! "v2:Active"
      = hash_at before "deploymentKeyLabels:D2" !! "v2:Active"
   /\ counter before "deploymentKeyLabels:D2" "v2:DeploymentSucceeded" = Some 0
   /\ counter after "deploymentKeyLabels:D2" "v2:DeploymentSucceeded" = Some 1
   /\ counter before "deploymentKeyLabels:D1" "v1:Active" = Some 0
   /\ counter after "deploymentKeyLabels:D1" "v1:Active" = Some (-1))
  /\
  (let call :=
     QManager.recordUpdate QManager.constructor_ "D2" "" (Some "D1") (Some "v1") in
   let after := database (run redis call ∅).2 METRICS_DB in
   (run redis call ∅).1.2 = Fulfilled tt
   /\ hash_at after "deploymentKeyLabels:D2" !! ":Active" = None
   /\ hash_at after "deploymentKeyLabels:D2" !! "" = Some "1").
Proof. repeat split; vm_compute; reflexivity. Qed.

Lemma truthy_nonempty s : s <> "" -> truthy s = true.
Proof. now destruct s. Qed.

(** C1, amended. On an enabled manager, for every call
    [recordUpdate(D2, L2, D1, L1)] with a previous pair given and a current
    label that is not empty:
    - the call sends exactly one command, against any store: the
      transaction of the three increments, [L2:Active] by 1 and
      [L2:DeploymentSucceeded] by 1 in the labels hash of [D2],
      [L1:Active] by -1 in the labels hash of [D1];
    - however the call is interleaved with calls that only read, the store
      holds either the data from before the call or the data the whole
      transaction leaves, so that every answer a reader gets is the answer
      of the store before the call or of the store after the whole
      transaction;
    - when the three counters are absent or hold integers, the two to
      increment below the largest signed 64-bit integer and the one to
      decrement above the smallest, the store accepts the three
      increments; afterwards every counter stands at its old value plus
      the sum of the deltas aimed at it, fields no command aims at are as
      they were, and so are the times to live.
    Both revisions. *)
Theorem recordUpdate_transaction (this : RedisManager) (metrics : Redis)
    (currentKey currentLabel previousKey previousLabel : string) (p : Promise unit) :
  isEnabled this = true -> _metricsClient this = Some metrics ->
  currentLabel <> "" -> previousKey <> "" -> previousLabel <> "" ->
  is_recordUpdate this currentKey currentLabel (Some previousKey) (Some previousLabel) p ->
  let batch := transition currentKey currentLabel previousKey previousLabel in
  let hash2 := Utilities.getDeploymentKeyLabelsHash currentKey in
  let hash1 := Utilities.getDeploymentKeyLabelsHash previousKey in
  (forall (State : Type)
          (answer : forall R, Redis -> Cmd R -> State -> Reply R * State) (st : State),
     (run answer p st).1.1 = [Req metrics (EXEC batch)])
  /\ (forall (B : Type) (readers : list (Promise B)) (srv : Server)
             (c : Server * Promise unit * list (Promise B)),
        Forall reads_only readers ->
        rtc step (srv, p, readers) c ->
        Forall reads_only c.2
        /\ ((c.1.2 = p /\ same_data c.1.1 srv)
            \/ (c.1.2 = Resolve tt /\ same_data c.1.1 (committed metrics batch srv)))
        /\ (forall R conn (cmd : Cmd R),
              (redis R conn cmd c.1.1).1 = (redis R conn cmd srv).1
              \/ (redis R conn cmd c.1.1).1
                 = (redis R conn cmd (committed metrics batch srv)).1))
  /\ (forall (d : Db) (a s q : Z),
        counter d hash2 (currentLabel +:+ ":Active") = Some a ->
        counter d hash2 (currentLabel +:+ ":DeploymentSucceeded") = Some s ->
        counter d hash1 (previousLabel +:+ ":Active") = Some q ->
        a < LLONG_MAX -> s < LLONG_MAX -> LLONG_MIN < q ->
        Forall accepted (exec batch d).1
        /\ ttl (exec batch d).2 = ttl d
        /\ (forall key field,
              counter (exec batch d).2 key field
              = (fun v => v + net_delta batch key field) <$> counter d key field)
        /\ (forall key field,
              Forall (fun q => ~ aims_at key field q) batch ->
              hash_at (exec batch d).2 key !! field = hash_at d key !! field)).
Proof.
  intros Hon Hm Hc Hpk Hpl Hp batch hash2 hash1.
  destruct (recordUpdate_one_command this metrics currentKey currentLabel previousKey
              previousLabel p Hon Hm (truthy_nonempty _ Hc) (truthy_nonempty _ Hpk)
              (truthy_nonempty _ Hpl) Hp) as (k & Hsend & Hok & Hfail).
  fold batch in Hsend.
  split; [|split].
  - intros State answer st. rewrite Hsend. cbn.
    destruct (answer _ metrics (EXEC batch) st) as [[results|reason] st1].
    + now rewrite Hok.
    + now rewrite Hfail.
  - intros B readers srv c Hro Hsteps.
    destruct (before_or_after_always p batch metrics srv k readers c Hsend Hok Hro Hsteps)
      as [Hreaders Hdata].
    split; [exact Hreaders|]. split; [exact Hdata|].
    intros R conn cmd.
    destruct Hdata as [[_ Hs] | [_ Hs]]; [left | right];
      apply (redis_same_data R conn cmd _ _ Hs).
  - intros d a s q. apply transition_applies.
Qed.

Lemma recordUpdate_transaction_witness :
  let call := QManager.recordUpdate QManager.constructor_ "D2" "v2" (Some "D1") (Some "v1") in
  let reader := QManager.getMetricsWithDeploymentKey QManager.constructor_ "D2" in
  let batch := transition "D2" "v2" "D1" "v1" in
  (run redis call ∅).1.1 = [Req (Redis_new METRICS_DB) (EXEC batch)]
  /\ (forall c, rtc step (∅, call, [reader]) c ->
        Forall reads_only c.2
        /\ ((c.1.2 = call /\ same_data c.1.1 ∅)
            \/ (c.1.2 = Resolve tt
                /\ same_data c.1.1 (committed (Redis_new METRICS_DB) batch ∅))))
  /\ counter (exec batch empty_db).2 "deploymentKeyLabels:D2" "v2:Active" = Some 1
  /\ counter (exec batch empty_db).2 "deploymentKeyLabels:D2" "v2:DeploymentSucceeded"
     = Some 1
  /\ counter (exec batch empty_db).2 "deploymentKeyLabels:D1" "v1:Active" = Some (-1).
Proof.
  intros call reader batch.
  destruct (recordUpdate_transaction QManager.constructor_ (Redis_new METRICS_DB)
              "D2" "v2" "D1" "v1" call eq_refl eq_refl
              ltac:(discriminate) ltac:(discriminate) ltac:(discriminate)
              (or_introl eq_refl)) as (Hone & Hatomic & Hdeltas).
  split; [apply Hone|]. split.
  - intros c Hsteps.
    destruct (Hatomic _ [reader] ∅ c) as (Hreaders & Hdata & _);
      [|exact Hsteps|split; assumption].
    repeat constructor.
    apply (getMetricsWithDeploymentKey_reads_only QManager.constructor_ "D2").
  - destruct (Hdeltas empty_db 0 0 0 eq_refl eq_refl eq_refl
                ltac:(reflexivity) ltac:(reflexivity) ltac:(reflexivity))
      as (_ & _ & Hcounters & _).
    rewrite !Hcounters. repeat split; vm_compute; reflexivity.
Defined.

(** * Further properties *)

(** ** More of the store *)

Lemma hash_at_remove_key key d key' :
  hash_at (remove_key key d) key' = if decide (key = key') then ∅ else hash_at d key'.
Proof.
  unfold hash_at, remove_key. cbn. rewrite lookup_delete.
  now destruct (decide (key = key')).
Qed.

Lemma del_hashes keys d key :
  hashes (del keys d).2 !! key = if decide (key ∈ keys) then None else hashes d !! key.
Proof.
  revert d. induction keys as [|k rest IH]; intros d; cbn.
  - rewrite decide_False by apply not_elem_of_nil. reflexivity.
  - destruct (del rest (remove_key k d)) as [n d'] eqn:Hd. cbn.
    specialize (IH (remove_key k d)). rewrite Hd in IH. cbn in IH. rewrite IH.
    destruct (decide (key ∈ rest)) as [Hin|Hnin].
    + rewrite decide_True by (apply elem_of_cons; now right). reflexivity.
    + cbn. rewrite lookup_delete. destruct (decide (k = key)) as [->|Hne].
      * rewrite decide_True by (apply elem_of_cons; now left). reflexivity.
      * rewrite decide_False; [reflexivity|].
        intros [->|Hin]%elem_of_cons; [now apply Hne | now apply Hnin].
Qed.

Lemma del_ttl keys d key :
  ttl (del keys d).2 !! key = if decide (key ∈ keys) then None else ttl d !! key.
Proof.
  revert d. induction keys as [|k rest IH]; intros d; cbn.
  - rewrite decide_False by apply not_elem_of_nil. reflexivity.
  - destruct (del rest (remove_key k d)) as [n d'] eqn:Hd. cbn.
    specialize (IH (remove_key k d)). rewrite Hd in IH. cbn in IH. rewrite IH.
    destruct (decide (key ∈ rest)) as [Hin|Hnin].
    + rewrite decide_True by (apply elem_of_cons; now right). reflexivity.
    + cbn. rewrite lookup_delete. destruct (decide (k = key)) as [->|Hne].
      * rewrite decide_True by (apply elem_of_cons; now left). reflexivity.
      * rewrite decide_False; [reflexivity|].
        intros [->|Hin]%elem_of_cons; [now apply Hne | now apply Hnin].
Qed.

Lemma hash_at_del keys d key :
  hash_at (del keys d).2 key = if decide (key ∈ keys) then ∅ else hash_at d key.
Proof. unfold hash_at. rewrite del_hashes. now destruct (decide (key ∈ keys)). Qed.

Lemma hincrby_lookup key field delta d key' field' :
  ~ (key = key' /\ field = field') ->
  hash_at (hincrby key field delta d).2 key' !! field' = hash_at d key' !! field'.
Proof.
  intros Hne. unfold hincrby.
  destruct (match hash_at d key !! field with Some s => string2ll s | None => Some 0 end)
    as [v|]; [|reflexivity].
  destruct (_ && _); [|reflexivity].
  cbn [snd]. fold (set_field key field (ll2string (v + delta)) d).
  rewrite lookup_set_field. now rewrite decide_False.
Qed.

Lemma hincrby_ttl key field delta d : ttl (hincrby key field delta d).2 = ttl d.
Proof.
  unfold hincrby.
  destruct (match hash_at d key !! field with Some s => string2ll s | None => Some 0 end)
    as [v|]; [|reflexivity].
  now destruct (_ && _).
Qed.

Lemma hset_lookup key field value d key' field' :
  hash_at (hset key field value d).2 key' !! field'
  = if decide (key = key' /\ field = field') then Some value
    else hash_at d key' !! field'.
Proof. unfold hset. cbn [snd]. apply lookup_set_field. Qed.

Lemma queued_exec_lookup q d key field :
  ~ aims_at key field q ->
  hash_at (queued_exec q d).2 key !! field = hash_at d key !! field.
Proof.
  destruct q as [k f v|k f delta]; cbn [aims_at queued_exec]; intros Hne.
  - rewrite hset_lookup. now rewrite decide_False.
  - now apply hincrby_lookup.
Qed.

Lemma exec_lookup batch d key field :
  Forall (fun q => ~ aims_at key field q) batch ->
  hash_at (exec batch d).2 key !! field = hash_at d key !! field.
Proof.
  revert d. induction batch as [|q rest IH]; intros d Hall; [reflexivity|].
  apply Forall_cons in Hall as [Hq Hrest]. cbn [exec].
  destruct (queued_exec q d) as [r d1] eqn:H1.
  destruct (exec rest d1) as [rs d2] eqn:H2. cbn [snd].
  specialize (IH d1 Hrest). rewrite H2 in IH. cbn in IH. rewrite IH.
  pose proof (queued_exec_lookup q d key field Hq) as Hl. now rewrite H1 in Hl.
Qed.

Lemma redis_database R conn (cmd : Cmd R) srv i :
  database (redis R conn cmd srv).2 i
  = if decide (db conn = i) then (db_answer cmd (database srv (db conn))).2
    else database srv i.
Proof. rewrite redis_eq. cbn. apply database_insert. Qed.

Lemma redis_reply R conn (cmd : Cmd R) srv :
  (redis R conn cmd srv).1 = (db_answer cmd (database srv (db conn))).1.
Proof. now rewrite redis_eq. Qed.

(** ** getCachedResponse: what is stored decides *)

Section CacheReads.
Context `{JSON V}.

(** X1. Reading a scope key and url that hold nothing gives [null]: one
    HGET is sent, the promise is fulfilled with [null], and no database
    changes.  A stored empty text gives [null] as well, without parsing. *)
Theorem getCachedResponse_absent this ops key url (srv : Server) (p : Promise (option V)) :
  isEnabled this = true -> _opsClient this = Some ops ->
  is_getCachedResponse this key url p ->
  hash_at (database srv (db ops)) key !! url = None
  \/ hash_at (database srv (db ops)) key !! url = Some "" ->
  (run redis p srv).1 = ([Req ops (HGET key url)], Fulfilled None)
  /\ same_data (run redis p srv).2 srv.
Proof.
  intros Hon Hops Hp Hnone. split.
  - rewrite (run_getCachedResponse this ops key url srv p Hon Hops Hp).
    now destruct Hnone as [-> | ->].
  - destruct Hp as [-> | ->];
      unfold QManager.getCachedResponse, AsyncManager.getCachedResponse;
      rewrite Hon, Hops; cbn;
      destruct (hash_at (database srv (db ops)) key !! url) as [s|]; cbn;
      try (destruct (truthy s); cbn; unfold parse; try destruct (JSON_parse s); cbn);
      intros i; rewrite database_insert; destruct (decide _) as [<-|]; reflexivity.
Qed.

(** X2. A stored text that [JSON.parse] refuses makes the read fail with
    the error [JSON.parse] threw: the promise is rejected, nothing is
    thrown at the caller, in both revisions. *)
Theorem getCachedResponse_unparsable this ops key url (srv : Server) text reason
    (p : Promise (option V)) :
  isEnabled this = true -> _opsClient this = Some ops ->
  is_getCachedResponse this key url p ->
  hash_at (database srv (db ops)) key !! url = Some text ->
  text <> "" ->
  JSON_parse text = inl reason ->
  (run redis p srv).1 = ([Req ops (HGET key url)], Rejected reason).
Proof.
  intros Hon Hops Hp Hst Hne Hparse.
  rewrite (run_getCachedResponse this ops key url srv p Hon Hops Hp), Hst.
  rewrite (truthy_nonempty _ Hne). now rewrite Hparse.
Qed.

End CacheReads.

Section CacheWrites.
Context `{JSON V}.

(** X3. When [JSON.stringify] throws on the response, [setCachedResponse]
    on an enabled manager is rejected with that error before anything is
    sent: no command, the store as it was, nothing thrown at the caller. *)
Theorem setCachedResponse_unserializable this key url (response : V) reason
    (p : Promise unit) {State}
    (answer : forall R, Redis -> Cmd R -> State -> Reply R * State) (st : State) :
  isEnabled this = true ->
  JSON_stringify response = inl reason ->
  is_setCachedResponse this key url response p ->
  run answer p st = ([], Rejected reason, st).
Proof.
  intros Hon Hs [-> | ->];
    unfold QManager.setCachedResponse, AsyncManager.setCachedResponse;
    rewrite Hon; unfold stringify; rewrite Hs; reflexivity.
Qed.

(** X4. The three commands of [setCachedResponse] go one after the other
    and the first that the store rejects ends the call with its reason:
    after a rejected EXISTS nothing is written; after a rejected HSET no
    EXPIRE is sent; EXPIRE is sent exactly when EXISTS answered 0 and HSET
    was accepted, and when it is rejected the call fails although the field
    is written. *)
Theorem setCachedResponse_stops_at_first_failure this ops key url (response : V)
    serialized (p : Promise unit) {State}
    (answer : forall R, Redis -> Cmd R -> State -> Reply R * State) (st : State) :
  isEnabled this = true -> _opsClient this = Some ops ->
  JSON_stringify response = inr serialized ->
  is_setCachedResponse this key url response p ->
  let exists_ := Req ops (EXISTS key) in
  let hset_ := Req ops (HSET key url serialized) in
  let expire_ := Req ops (EXPIRE key 3600) in
  let '(r1, st1) := answer _ ops (EXISTS key) st in
  let '(r2, st2) := answer _ ops (HSET key url serialized) st1 in
  let '(r3, st3) := answer _ ops (EXPIRE key 3600) st2 in
  run answer p st
  = match r1, r2, r3 with
    | Failed e, _, _ => ([exists_], Rejected e, st1)
    | Ok _, Failed e, _ => ([exists_; hset_], Rejected e, st2)
    | Ok n, Ok _, Ok _ =>
        if n =? 0 then ([exists_; hset_; expire_], Fulfilled tt, st3)
        else ([exists_; hset_], Fulfilled tt, st2)
    | Ok n, Ok _, Failed e =>
        if n =? 0 then ([exists_; hset_; expire_], Rejected e, st3)
        else ([exists_; hset_], Fulfilled tt, st2)
    end.
Proof.
  intros Hon Hops Hs Hp exists_ hset_ expire_.
  destruct (answer _ ops (EXISTS key) st) as [r1 st1] eqn:H1.
  destruct (answer _ ops (HSET key url serialized) st1) as [r2 st2] eqn:H2.
  destruct (answer _ ops (EXPIRE key 3600) st2) as [r3 st3] eqn:H3.
  destruct Hp as [-> | ->];
    unfold QManager.setCachedResponse, AsyncManager.setCachedResponse;
    rewrite Hon, Hops; unfold stringify; rewrite Hs; cbn; rewrite H1;
    destruct r1 as [n|e1]; cbn; try reflexivity;
    rewrite H2; destruct r2 as [m|e2]; cbn; try reflexivity;
    destruct (n =? 0); cbn; unfold DEFAULT_EXPIRY; try rewrite H3;
    destruct r3; reflexivity.
Qed.

End CacheWrites.

Lemma getCachedResponse_absent_witness :
  (run redis (QManager.getCachedResponse (V:=Z) QManager.constructor_ "scope" "/a") ∅).1
  = ([Req Redis_default (HGET "scope" "/a")], Fulfilled None).
Proof.
  apply (getCachedResponse_absent (V:=Z) QManager.constructor_ Redis_default
           "scope" "/a" ∅ _ eq_refl eq_refl (or_introl eq_refl)).
  left. reflexivity.
Defined.

Lemma getCachedResponse_unparsable_witness :
  (run redis (AsyncManager.getCachedResponse (V:=Z) QManager.constructor_ "scope" "/a")
     garbled_cache).1
  = ([Req Redis_default (HGET "scope" "/a")], Rejected StatusResponse.SyntaxError).
Proof.
  apply (getCachedResponse_unparsable (V:=Z) QManager.constructor_ Redis_default
           "scope" "/a" garbled_cache "oops" StatusResponse.SyntaxError _
           eq_refl eq_refl (or_intror eq_refl)).
  - vm_compute. reflexivity.
  - discriminate.
  - vm_compute. reflexivity.
Defined.

Lemma setCachedResponse_unserializable_witness :
  run redis (QManager.setCachedResponse QManager.constructor_ "scope" "/a"
               (Payload.BigInt 7)) ∅
  = ([], Rejected Payload.TypeError_BigInt, ∅).
Proof.
  apply (setCachedResponse_unserializable (H:=Payload.codec) QManager.constructor_
           "scope" "/a" (Payload.BigInt 7) Payload.TypeError_BigInt _ redis ∅ eq_refl
           eq_refl (or_introl eq_refl)).
Defined.

Lemma setCachedResponse_stops_at_first_failure_witness :
  run (redis_outage 0) (QManager.setCachedResponse QManager.constructor_ "scope" "/a" 200) ∅
  = ([Req Redis_default (EXISTS "scope")], Rejected connection_closed, ∅).
Proof.
  pose proof (setCachedResponse_stops_at_first_failure (H:=StatusResponse.codec)
                QManager.constructor_
                Redis_default "scope" "/a" 200
                (StatusResponse.opening +:+ "200" +:+ StatusResponse.closing)
                _ (redis_outage 0) ∅ eq_refl eq_refl
                ltac:(vm_compute; reflexivity) (or_introl eq_refl)) as Hrun.
  exact Hrun.
Defined.

(** ** invalidateCache and the life of a scope key *)

Lemma lookup_cached key url serialized d key' url' :
  hash_at (cached key url serialized d) key' !! url'
  = if decide (key = key' /\ url = url') then Some serialized
    else hash_at d key' !! url'.
Proof.
  unfold cached. destruct (hashes d !! key); [apply lookup_set_field|].
  change (hash_at {| hashes := hashes (set_field key url serialized d); ttl := _ |} key')
    with (hash_at (set_field key url serialized d) key').
  apply lookup_set_field.
Qed.

Lemma elapse_expired t d key remaining :
  ttl d !! key = Some remaining -> remaining <= t ->
  hashes (elapse t d) !! key = None /\ ttl (elapse t d) !! key = None.
Proof.
  intros Ht Hle.
  assert (Hdead : expired t d key = true).
  { unfold expired. rewrite Ht. now apply Z.leb_le. }
  unfold elapse. cbn. split.
  - apply map_lookup_filter_None. right. intros h _. cbn. now rewrite Hdead.
  - rewrite lookup_fmap.
    assert (Hf : filter (fun kv : string * Z => expired t d kv.1 = false) (ttl d) !! key
                 = None).
    { apply map_lookup_filter_None. right. intros h _. cbn. now rewrite Hdead. }
    now rewrite Hf.
Qed.

Lemma run_invalidateCache this ops key (srv : Server) p :
  isEnabled this = true -> _opsClient this = Some ops ->
  one_of (QManager.invalidateCache this key) (AsyncManager.invalidateCache this key) p ->
  (run redis p srv).1 = ([Req ops (DEL [key])], Fulfilled tt)
  /\ database (run redis p srv).2 (db ops) = (del [key] (database srv (db ops))).2
  /\ forall i, i <> db ops -> database (run redis p srv).2 i = database srv i.
Proof.
  intros Hon Hops [-> | ->];
    unfold QManager.invalidateCache, AsyncManager.invalidateCache;
    rewrite Hon, Hops; cbn; unfold redis; cbn [db_answer];
    destruct (del [key] (database srv (db ops))) as [n d'] eqn:Hd; cbn;
    (split; [reflexivity|]); (split; [apply database_insert_eq|]);
    intros i Hi; now apply database_insert_ne.
Qed.

Section ScopeKeys.
Context `{JSON V}.

(** X5. [invalidateCache] sends one DEL of the scope key and is fulfilled
    whether or not the key existed.  Afterwards a read of any url under
    the key gives [null], the key has no time to live left over, and the
    other keys and the other databases are as they were. *)
Theorem invalidateCache_then_get this ops key (srv : Server) inv :
  isEnabled this = true -> _opsClient this = Some ops ->
  one_of (QManager.invalidateCache this key) (AsyncManager.invalidateCache this key) inv ->
  let before := database srv (db ops) in
  let after := database (run redis inv srv).2 (db ops) in
  (run redis inv srv).1 = ([Req ops (DEL [key])], Fulfilled tt)
  /\ (forall url (get : Promise (option V)),
        is_getCachedResponse this key url get ->
        (run redis get (run redis inv srv).2).1.2 = Fulfilled None)
  /\ ttl after !! key = None
  /\ (forall key', key' <> key ->
        hashes after !! key' = hashes before !! key'
        /\ ttl after !! key' = ttl before !! key')
  /\ (forall i, i <> db ops -> database (run redis inv srv).2 i = database srv i).
Proof.
  intros Hon Hops Hinv before after.
  destruct (run_invalidateCache this ops key srv inv Hon Hops Hinv)
    as (Hrun & Hafter & Hother).
  fold after in Hafter. fold before in Hafter.
  split; [exact Hrun|]. split; [|split; [|split; [|exact Hother]]].
  - intros url get Hget.
    rewrite (run_getCachedResponse this ops key url _ get Hon Hops Hget).
    fold after. rewrite Hafter, hash_at_del.
    rewrite decide_True by (apply list_elem_of_singleton; reflexivity).
    now rewrite lookup_empty.
  - rewrite Hafter, del_ttl.
    now rewrite decide_True by (apply list_elem_of_singleton; reflexivity).
  - intros key' Hne. rewrite Hafter, del_hashes, del_ttl.
    rewrite !decide_False by (intros ->%list_elem_of_singleton; now apply Hne).
    split; reflexivity.
Qed.

(** X6. After [invalidateCache] the next write to the scope key finds it
    new: it sends EXPIRE again and the key has 3600 seconds to live,
    however little it had left before. *)
Theorem setCachedResponse_after_invalidate this ops key url (response : V) serialized
    (srv : Server) inv set :
  isEnabled this = true -> _opsClient this = Some ops ->
  JSON_stringify response = inr serialized ->
  one_of (QManager.invalidateCache this key) (AsyncManager.invalidateCache this key) inv ->
  is_setCachedResponse this key url response set ->
  let cleared := (run redis inv srv).2 in
  (run redis set cleared).1.1
  = [Req ops (EXISTS key); Req ops (HSET key url serialized); Req ops (EXPIRE key 3600)]
  /\ ttl (database (run redis set cleared).2 (db ops)) !! key = Some 3600.
Proof.
  intros Hon Hops Hs Hinv Hset cleared.
  destruct (run_invalidateCache this ops key srv inv Hon Hops Hinv) as (_ & Hafter & _).
  destruct (run_setCachedResponse this ops key url response serialized cleared set
              Hon Hops Hs Hset) as (Hrun & Hdb & _).
  assert (Hnew : hashes (database cleared (db ops)) !! key = None).
  { unfold cleared. rewrite Hafter, del_hashes.
    now rewrite decide_True by (apply list_elem_of_singleton; reflexivity). }
  rewrite Hrun, Hdb. unfold cache_commands, cached. rewrite Hnew. cbn.
  split; [reflexivity | apply lookup_insert_eq].
Qed.

(** X7. A write to an existing scope key does not push its end back: when
    a key is created, written again [first] seconds later and then read
    [second] seconds after that, with [first + second] at least 3600, the
    key is gone and every url under it reads as [null], the one written
    last included. *)
Theorem late_write_expires_with_scope this ops key url (response : V) serialized
    url' (response' : V) serialized' (srv : Server) set set' first second :
  isEnabled this = true -> _opsClient this = Some ops ->
  JSON_stringify response = inr serialized ->
  JSON_stringify response' = inr serialized' ->
  is_setCachedResponse this key url response set ->
  is_setCachedResponse this key url' response' set' ->
  hashes (database srv (db ops)) !! key = None ->
  0 <= first < 3600 -> 3600 <= first + second ->
  let srv1 := (run redis set srv).2 in
  let srv2 := <[db ops := elapse first (database srv1 (db ops))]> srv1 in
  let srv3 := (run redis set' srv2).2 in
  let srv4 := <[db ops := elapse second (database srv3 (db ops))]> srv3 in
  forall any (get : Promise (option V)),
    is_getCachedResponse this key any get ->
    (run redis get srv4).1.2 = Fulfilled None.
Proof.
  intros Hon Hops Hs Hs' Hset Hset' Hnew Hfirst Hsum srv1 srv2 srv3 srv4 any get Hget.
  destruct (run_setCachedResponse this ops key url response serialized srv set
              Hon Hops Hs Hset) as (_ & H1 & _).
  fold srv1 in H1.
  set (d1 := cached key url serialized (database srv (db ops))) in *.
  assert (Httl1 : ttl d1 !! key = Some 3600).
  { unfold d1, cached. rewrite Hnew. cbn. apply lookup_insert_eq. }
  assert (H2 : database srv2 (db ops) = elapse first d1).
  { unfold srv2. now rewrite database_insert_eq, H1. }
  destruct (elapse_live first d1 key _ 3600 (hashes_cached key url serialized _) Httl1
              ltac:(lia)) as [Hlive2 Httl2].
  destruct (run_setCachedResponse this ops key url' response' serialized' srv2 set'
              Hon Hops Hs' Hset') as (_ & H3 & _).
  fold srv3 in H3. rewrite H2 in H3.
  assert (Httl3 : ttl (database srv3 (db ops)) !! key = Some (3600 - first)).
  { rewrite H3. unfold cached. now rewrite Hlive2. }
  destruct (elapse_expired second (database srv3 (db ops)) key _ Httl3 ltac:(lia))
    as [Hgone _].
  rewrite (run_getCachedResponse this ops key any srv4 get Hon Hops Hget).
  unfold srv4. rewrite database_insert_eq. unfold hash_at. rewrite Hgone. cbn.
  now rewrite lookup_empty.
Qed.

(** X8. A write touches the one url it names: a read of any other url, or
    of any url under another scope key, ends as it would have ended
    without the write. *)
Theorem setCachedResponse_other_entries this ops key url (response : V) serialized
    (srv : Server) set key' url' (get : Promise (option V)) :
  isEnabled this = true -> _opsClient this = Some ops ->
  JSON_stringify response = inr serialized ->
  is_setCachedResponse this key url response set ->
  is_getCachedResponse this key' url' get ->
  ~ (key = key' /\ url = url') ->
  (run redis get (run redis set srv).2).1.2 = (run redis get srv).1.2.
Proof.
  intros Hon Hops Hs Hset Hget Hne.
  destruct (run_setCachedResponse this ops key url response serialized srv set
              Hon Hops Hs Hset) as (_ & Hdb & _).
  rewrite !(run_getCachedResponse this ops key' url' _ get Hon Hops Hget).
  cbn [snd]. rewrite Hdb, lookup_cached. now rewrite decide_False.
Qed.

End ScopeKeys.

(** ** The clients hash and the labels hash *)

Lemma labels_hash_not_clients_hash a b :
  Utilities.getDeploymentKeyLabelsHash a <> Utilities.getDeploymentKeyClientsHash b.
Proof. cbv. congruence. Qed.

Lemma hdel_lookup key field d key' field' :
  hash_at (hdel key field d).2 key' !! field'
  = if decide (key = key' /\ field = field') then None else hash_at d key' !! field'.
Proof.
  unfold hdel. destruct (hash_at d key !! field) as [v|] eqn:Hv; cbn [snd].
  - destruct (decide (delete field (hash_at d key) = ∅)) as [Hempty|Hfull].
    + rewrite hash_at_remove_key.
      destruct (decide (key = key')) as [<-|Hk].
      * rewrite lookup_empty.
        destruct (decide (field = field')) as [<-|Hf].
        { now rewrite decide_True. }
        rewrite decide_False by (intros [_ ?]; done).
        rewrite <- (lookup_delete_ne (hash_at d key) field field') by done.
        now rewrite Hempty, lookup_empty.
      * now rewrite decide_False by (intros [? _]; done).
    + unfold hash_at at 1. cbn. rewrite lookup_insert.
      destruct (decide (key = key')) as [<-|Hk]; cbn.
      * rewrite lookup_delete. destruct (decide (field = field')) as [<-|Hf].
        { now rewrite decide_True. }
        now rewrite decide_False by (intros [_ ?]; done).
      * now rewrite decide_False by (intros [? _]; done).
  - destruct (decide (key = key' /\ field = field')) as [[<- <-]|]; [exact Hv | reflexivity].
Qed.

Lemma exec_cons q rest d :
  (exec (q :: rest) d).2 = (exec rest (queued_exec q d).2).2.
Proof.
  cbn [exec]. destruct (queued_exec q d) as [r d1]. cbn [snd].
  destruct (exec rest d1) as [rs d2]. reflexivity.
Qed.

Lemma run_getMetrics this metrics deploymentKey (srv : Server) p :
  isEnabled this = true -> _metricsClient this = Some metrics ->
  one_of (QManager.getMetricsWithDeploymentKey this deploymentKey)
         (AsyncManager.getMetricsWithDeploymentKey this deploymentKey) p ->
  (run redis p srv).1.2
  = Fulfilled (Some (parseInt10 <$>
                       delete "__proto__"
                         (hash_at (database srv (db metrics))
                            (Utilities.getDeploymentKeyLabelsHash deploymentKey)))).
Proof.
  intros Hon Hm [-> | ->];
    unfold QManager.getMetricsWithDeploymentKey, AsyncManager.getMetricsWithDeploymentKey;
    rewrite Hon, Hm; cbn; rewrite for_in_set_property; reflexivity.
Qed.

Lemma run_getCurrentActiveLabel this metrics deploymentKey clientUniqueId (srv : Server) p :
  isEnabled this = true -> _metricsClient this = Some metrics ->
  one_of (QManager.getCurrentActiveLabel this deploymentKey clientUniqueId)
         (AsyncManager.getCurrentActiveLabel this deploymentKey clientUniqueId) p ->
  (run redis p srv).1
  = ([Req metrics (HGET (Utilities.getDeploymentKeyClientsHash deploymentKey)
                     clientUniqueId)],
     Fulfilled (hash_at (database srv (db metrics))
                  (Utilities.getDeploymentKeyClientsHash deploymentKey)
                !! clientUniqueId)).
Proof.
  intros Hon Hm [-> | ->];
    unfold QManager.getCurrentActiveLabel, AsyncManager.getCurrentActiveLabel;
    rewrite Hon, Hm; reflexivity.
Qed.

(** X9. [clearMetricsForDeploymentKey] sends one DEL of the labels hash
    and the clients hash of the deployment key and is fulfilled whether or
    not they existed.  Afterwards the metrics of the key read as the empty
    mapping and no client of the key has a label, while the hashes of every
    other deployment key are as they were. *)
Theorem clearMetrics_then_read this metrics deploymentKey (srv : Server) clear :
  isEnabled this = true -> _metricsClient this = Some metrics ->
  one_of (QManager.clearMetricsForDeploymentKey this deploymentKey)
         (AsyncManager.clearMetricsForDeploymentKey this deploymentKey) clear ->
  let before := database srv (db metrics) in
  let after := database (run redis clear srv).2 (db metrics) in
  (run redis clear srv).1
  = ([Req metrics (DEL [Utilities.getDeploymentKeyLabelsHash deploymentKey;
                        Utilities.getDeploymentKeyClientsHash deploymentKey])],
     Fulfilled tt)
  /\ (forall read,
        one_of (QManager.getMetricsWithDeploymentKey this deploymentKey)
               (AsyncManager.getMetricsWithDeploymentKey this deploymentKey) read ->
        (run redis read (run redis clear srv).2).1.2 = Fulfilled (Some ∅))
  /\ (forall clientUniqueId read,
        one_of (QManager.getCurrentActiveLabel this deploymentKey clientUniqueId)
               (AsyncManager.getCurrentActiveLabel this deploymentKey clientUniqueId) read ->
        (run redis read (run redis clear srv).2).1.2 = Fulfilled None)
  /\ (forall other, other <> deploymentKey ->
        hash_at after (Utilities.getDeploymentKeyLabelsHash other)
        = hash_at before (Utilities.getDeploymentKeyLabelsHash other)
        /\ hash_at after (Utilities.getDeploymentKeyClientsHash other)
           = hash_at before (Utilities.getDeploymentKeyClientsHash other)).
Proof.
  intros Hon Hm Hclear before after.
  set (labels := Utilities.getDeploymentKeyLabelsHash deploymentKey).
  set (clients := Utilities.getDeploymentKeyClientsHash deploymentKey).
  assert (Hrun : (run redis clear srv).1 = ([Req metrics (DEL [labels; clients])], Fulfilled tt)
                 /\ after = (del [labels; clients] before).2).
  { unfold after, before.
    destruct Hclear as [-> | ->];
      unfold QManager.clearMetricsForDeploymentKey,
        AsyncManager.clearMetricsForDeploymentKey;
      rewrite Hon, Hm; cbn; unfold redis; cbn [db_answer]; fold labels clients;
      destruct (del [labels; clients] (database srv (db metrics))) as [n d'] eqn:Hd; cbn;
      (split; [reflexivity | apply database_insert_eq]). }
  destruct Hrun as [Hrun Hafter].
  split; [exact Hrun|]. split; [|split].
  - intros read Hread.
    rewrite (run_getMetrics this metrics deploymentKey _ read Hon Hm Hread).
    fold after labels. rewrite Hafter, hash_at_del.
    rewrite decide_True by (apply elem_of_cons; now left).
    now rewrite delete_empty, fmap_empty.
  - intros c read Hread.
    rewrite (run_getCurrentActiveLabel this metrics deploymentKey c _ read Hon Hm Hread).
    cbn [snd]. fold after clients. rewrite Hafter, hash_at_del.
    rewrite decide_True by (apply elem_of_cons; right; apply elem_of_cons; now left).
    now rewrite lookup_empty.
  - intros other Hne. rewrite Hafter, !hash_at_del.
    rewrite !decide_False; [split; reflexivity | |].
    + intros [Heq|[Heq|Hnil]%elem_of_cons]%elem_of_cons.
      * symmetry in Heq. now apply labels_hash_not_clients_hash in Heq.
      * now apply getDeploymentKeyClientsHash_inj in Heq.
      * now apply not_elem_of_nil in Hnil.
    + intros [Heq|[Heq|Hnil]%elem_of_cons]%elem_of_cons.
      * now apply getDeploymentKeyLabelsHash_inj in Heq.
      * now apply labels_hash_not_clients_hash in Heq.
      * now apply not_elem_of_nil in Hnil.
Qed.

Lemma run_updateActiveAppForClient this metrics deploymentKey clientUniqueId toLabel
    fromLabel (srv : Server) p :
  isEnabled this = true -> _metricsClient this = Some metrics ->
  one_of (QManager.updateActiveAppForClient this deploymentKey clientUniqueId toLabel
            fromLabel)
         (AsyncManager.updateActiveAppForClient this deploymentKey clientUniqueId toLabel
            fromLabel) p ->
  let batch := client_update deploymentKey clientUniqueId toLabel fromLabel in
  (run redis p srv).1 = ([Req metrics (EXEC batch)], Fulfilled tt)
  /\ database (run redis p srv).2 (db metrics)
     = (exec batch (database srv (db metrics))).2.
Proof.
  intros Hon Hm Hp batch.
  assert (Hbatch : forall k : Reply (list (Reply Z)) -> Promise unit,
             (forall results, k (Ok results) = Resolve tt) ->
             (run redis (Send metrics (EXEC batch) k) srv).1
             = ([Req metrics (EXEC batch)], Fulfilled tt)
             /\ database (run redis (Send metrics (EXEC batch) k) srv).2 (db metrics)
                = (exec batch (database srv (db metrics))).2).
  { intros k Hk. cbn [run]. rewrite exec_answer, Hk. cbn.
    split; [reflexivity | apply database_insert_eq]. }
  destruct Hp as [-> | ->];
    unfold QManager.updateActiveAppForClient, AsyncManager.updateActiveAppForClient;
    rewrite Hon, Hm; cbn [negb deref async];
    unfold batch, client_update;
    destruct fromLabel as [[|c from]|]; cbn [truthy_opt truthy default app queue];
    apply Hbatch; intros results; reflexivity.
Qed.

(** X10. [updateActiveAppForClient] sends one transaction: the client's
    label is set, the field [getLabelActiveCountField] names for the new
    label is incremented by 1 and, when a previous label is given and not
    empty, the field of that label by -1.  The call is fulfilled whatever
    the store makes of the increments, and afterwards
    [getCurrentActiveLabel] of the client gives the new label. *)
Theorem updateActiveAppForClient_then_get this metrics deploymentKey clientUniqueId
    toLabel fromLabel (srv : Server) update get :
  isEnabled this = true -> _metricsClient this = Some metrics ->
  one_of (QManager.updateActiveAppForClient this deploymentKey clientUniqueId toLabel
            fromLabel)
         (AsyncManager.updateActiveAppForClient this deploymentKey clientUniqueId toLabel
            fromLabel) update ->
  one_of (QManager.getCurrentActiveLabel this deploymentKey clientUniqueId)
         (AsyncManager.getCurrentActiveLabel this deploymentKey clientUniqueId) get ->
  (run redis update srv).1
  = ([Req metrics (EXEC (client_update deploymentKey clientUniqueId toLabel fromLabel))],
     Fulfilled tt)
  /\ (run redis get (run redis update srv).2).1.2 = Fulfilled (Some toLabel).
Proof.
  intros Hon Hm Hupd Hget.
  destruct (run_updateActiveAppForClient this metrics deploymentKey clientUniqueId
              toLabel fromLabel srv update Hon Hm Hupd) as [Hrun Hdb].
  split; [exact Hrun|].
  rewrite (run_getCurrentActiveLabel this metrics deploymentKey clientUniqueId _ get
             Hon Hm Hget).
  cbn [snd]. rewrite Hdb. f_equal.
  unfold client_update. cbn [app]. rewrite exec_cons.
  rewrite exec_lookup.
  - cbn [queued_exec]. rewrite hset_lookup. now rewrite decide_True.
  - destruct (truthy_opt fromLabel); repeat constructor;
      cbn [aims_at]; intros [Heq _]; now apply labels_hash_not_clients_hash in Heq.
Qed.

(** X11. [removeDeploymentKeyClientActiveLabel] sends one HDEL on the
    clients hash and is fulfilled whether or not the client was there.
    Afterwards the client has no label, the other clients keep theirs, and
    no field of any labels hash has changed: the active count of the label
    the client had is not taken down. *)
Theorem removeClientActiveLabel_effect this metrics deploymentKey clientUniqueId
    (srv : Server) remove :
  isEnabled this = true -> _metricsClient this = Some metrics ->
  one_of (QManager.removeDeploymentKeyClientActiveLabel this deploymentKey clientUniqueId)
         (AsyncManager.removeDeploymentKeyClientActiveLabel this deploymentKey
            clientUniqueId) remove ->
  let before := database srv (db metrics) in
  let after := database (run redis remove srv).2 (db metrics) in
  let clients := Utilities.getDeploymentKeyClientsHash deploymentKey in
  (run redis remove srv).1 = ([Req metrics (HDEL clients clientUniqueId)], Fulfilled tt)
  /\ (forall get,
        one_of (QManager.getCurrentActiveLabel this deploymentKey clientUniqueId)
               (AsyncManager.getCurrentActiveLabel this deploymentKey clientUniqueId) get ->
        (run redis get (run redis remove srv).2).1.2 = Fulfilled None)
  /\ (forall other, other <> clientUniqueId ->
        hash_at after clients !! other = hash_at before clients !! other)
  /\ (forall anyKey field,
        hash_at after (Utilities.getDeploymentKeyLabelsHash anyKey) !! field
        = hash_at before (Utilities.getDeploymentKeyLabelsHash anyKey) !! field).
Proof.
  intros Hon Hm Hrem before after clients.
  assert (Hrun : (run redis remove srv).1
                 = ([Req metrics (HDEL clients clientUniqueId)], Fulfilled tt)
                 /\ after = (hdel clients clientUniqueId before).2).
  { unfold after, before.
    destruct Hrem as [-> | ->];
      unfold QManager.removeDeploymentKeyClientActiveLabel,
        AsyncManager.removeDeploymentKeyClientActiveLabel;
      rewrite Hon, Hm; cbn; unfold redis; cbn [db_answer]; fold clients;
      destruct (hdel clients clientUniqueId (database srv (db metrics)))
        as [[n|e] d'] eqn:Hd; cbn;
      try (split; [reflexivity | apply database_insert_eq]);
      unfold hdel in Hd; destruct (hash_at _ clients !! clientUniqueId); discriminate Hd. }
  destruct Hrun as [Hrun Hafter].
  split; [exact Hrun|]. split; [|split].
  - intros get Hget.
    rewrite (run_getCurrentActiveLabel this metrics deploymentKey clientUniqueId _ get
               Hon Hm Hget).
    cbn [snd]. fold after clients. rewrite Hafter, hdel_lookup.
    now rewrite decide_True.
  - intros other Hne. rewrite Hafter, hdel_lookup.
    now rewrite decide_False by (intros [_ ?]; congruence).
  - intros anyKey field. rewrite Hafter, hdel_lookup.
    rewrite decide_False; [reflexivity|].
    intros [Heq _]. symmetry in Heq. now apply labels_hash_not_clients_hash in Heq.
Qed.

(** ** Field names *)

Lemma chars_append a b :
  list_ascii_of_string (a +:+ b) = (list_ascii_of_string a ++ list_ascii_of_string b)%list.
Proof.
  induction a as [|c a IH]; [reflexivity|].
  change (String c a +:+ b) with (String c (a +:+ b)). cbn. now rewrite IH.
Qed.

Lemma chars_inj a b : list_ascii_of_string a = list_ascii_of_string b -> a = b.
Proof.
  intros Heq. rewrite <- (string_of_list_ascii_of_string a),
    <- (string_of_list_ascii_of_string b). now rewrite Heq.
Qed.

(** Two strings that are equal read the same from the end. *)
Lemma reversed_append a s b t :
  a +:+ s = b +:+ t ->
  (List.rev (list_ascii_of_string s) ++ List.rev (list_ascii_of_string a))%list
  = (List.rev (list_ascii_of_string t) ++ List.rev (list_ascii_of_string b))%list.
Proof.
  intros Heq. apply (f_equal list_ascii_of_string) in Heq.
  rewrite !chars_append in Heq. apply (f_equal (@List.rev ascii)) in Heq.
  now rewrite !List.rev_app_distr in Heq.
Qed.

Lemma rev_chars_inj a b :
  List.rev (list_ascii_of_string a) = List.rev (list_ascii_of_string b) -> a = b.
Proof.
  intros Heq. apply chars_inj. apply (f_equal (@List.rev ascii)) in Heq.
  now rewrite !List.rev_involutive in Heq.
Qed.

Lemma valid_status_cases status :
  Utilities.isValidDeploymentStatus status = true ->
  status = DEPLOYMENT_SUCCEEDED \/ status = DEPLOYMENT_FAILED \/ status = DOWNLOADED.
Proof.
  unfold Utilities.isValidDeploymentStatus.
  intros [[Hs|Hs]%orb_prop|Hs]%orb_prop; apply String.eqb_eq in Hs; auto.
Qed.

Lemma status_field_inj label status label' status' :
  Utilities.isValidDeploymentStatus status = true ->
  Utilities.isValidDeploymentStatus status' = true ->
  label +:+ ":" +:+ status = label' +:+ ":" +:+ status' ->
  label = label' /\ status = status'.
Proof.
  intros Hv Hv' Heq.
  apply valid_status_cases in Hv, Hv'.
  apply reversed_append in Heq.
  destruct Hv as [->|[->| ->]], Hv' as [->|[->| ->]];
    first [ apply List.app_inv_head in Heq; split;
            [apply rev_chars_inj; exact Heq | reflexivity]
          | exfalso; cbv in Heq; discriminate Heq ].
Qed.

Lemma status_field_not_active label status label' :
  Utilities.isValidDeploymentStatus status = true ->
  label +:+ ":" +:+ status <> label' +:+ ":" +:+ ACTIVE.
Proof.
  intros Hv Heq. apply valid_status_cases in Hv.
  apply reversed_append in Heq.
  destruct Hv as [->|[->| ->]]; cbv in Heq; discriminate Heq.
Qed.

Lemma active_field_inj label label' :
  label +:+ ":" +:+ ACTIVE = label' +:+ ":" +:+ ACTIVE -> label = label'.
Proof.
  intros Heq. apply reversed_append in Heq.
  apply List.app_inv_head in Heq. now apply rev_chars_inj.
Qed.

(** X12. The field names are never confused: a status field comes from one
    label and one status only, an active-count field from one label only,
    and no status field is an active-count field, even when labels hold
    colons or end like a status. *)
Theorem field_names_injective (field : string) :
  (forall label status label' status',
     Utilities.getLabelStatusField label status = Some field ->
     Utilities.getLabelStatusField label' status' = Some field ->
     label = label' /\ status = status')
  /\ (forall label label',
        Utilities.getLabelActiveCountField label = Some field ->
        Utilities.getLabelActiveCountField label' = Some field ->
        label = label')
  /\ (forall label status label',
        Utilities.getLabelStatusField label status = Some field ->
        Utilities.getLabelActiveCountField label' <> Some field).
Proof.
  unfold Utilities.getLabelStatusField, Utilities.getLabelActiveCountField.
  split; [|split].
  - intros label status label' status'.
    destruct (Utilities.isValidDeploymentStatus status) eqn:Hv; [|discriminate].
    destruct (Utilities.isValidDeploymentStatus status') eqn:Hv'; [|discriminate].
    intros [= <-] [= Heq]. symmetry in Heq.
    exact (status_field_inj _ _ _ _ Hv Hv' Heq).
  - intros label label'.
    destruct (truthy label); [|discriminate].
    destruct (truthy label'); [|discriminate].
    intros [= <-] [= Heq]. symmetry in Heq. exact (active_field_inj _ _ Heq).
  - intros label status label'.
    destruct (Utilities.isValidDeploymentStatus status) eqn:Hv; [|discriminate].
    intros [= <-]. destruct (truthy label'); [|discriminate].
    intros [= Heq]. symmetry in Heq. exact (status_field_not_active _ _ _ Hv Heq).
Qed.

(** ** incrementLabelStatusCount and the other counters *)

Lemma run_incrementLabelStatusCount this metrics deploymentKey label status
    (srv : Server) p :
  isEnabled this = true -> _metricsClient this = Some metrics ->
  Utilities.isValidDeploymentStatus status = true ->
  one_of (QManager.incrementLabelStatusCount this deploymentKey label status)
         (AsyncManager.incrementLabelStatusCount this deploymentKey label status) p ->
  database (run redis p srv).2 (db metrics)
  = (hincrby (Utilities.getDeploymentKeyLabelsHash deploymentKey)
       (label +:+ ":" +:+ status) 1 (database srv (db metrics))).2
  /\ forall i, i <> db metrics -> database (run redis p srv).2 i = database srv i.
Proof.
  intros Hon Hm Hv [-> | ->];
    unfold QManager.incrementLabelStatusCount, AsyncManager.incrementLabelStatusCount,
      Utilities.getLabelStatusField;
    rewrite Hon, Hm, Hv; cbn [negb truthy_opt]; rewrite truthy_label_colon; cbn;
    unfold redis; cbn [db_answer toArg default]; unfold id;
    destruct (hincrby _ _ 1 (database srv (db metrics))) as [[n|e] d']; cbn;
    (split; [apply database_insert_eq | intros i Hi; now apply database_insert_ne]).
Qed.

Lemma run_incrementLabelStatusCount_idle this deploymentKey label status (srv : Server) p :
  isEnabled this = false \/ _metricsClient this = None
  \/ Utilities.isValidDeploymentStatus status = false ->
  one_of (QManager.incrementLabelStatusCount this deploymentKey label status)
         (AsyncManager.incrementLabelStatusCount this deploymentKey label status) p ->
  (run redis p srv).2 = srv.
Proof.
  intros Hidle [-> | ->];
    unfold QManager.incrementLabelStatusCount, AsyncManager.incrementLabelStatusCount,
      Utilities.getLabelStatusField;
    destruct (isEnabled this) eqn:Hon; try reflexivity;
    destruct (Utilities.isValidDeploymentStatus status) eqn:Hv; try reflexivity;
    destruct (_metricsClient this) eqn:Hm;
    try (destruct Hidle as [?|[?|?]]; discriminate);
    cbn [negb truthy_opt]; rewrite truthy_label_colon; reflexivity.
Qed.

Lemma status_field_not_proto label status :
  Utilities.isValidDeploymentStatus status = true ->
  label +:+ ":" +:+ status <> "__proto__".
Proof.
  intros Hv Heq. apply valid_status_cases in Hv.
  apply (f_equal last_char) in Heq.
  change (":" +:+ status) with (String ":" status) in Heq.
  rewrite last_char_append in Heq.
  destruct Hv as [->|[->| ->]]; discriminate Heq.
Qed.

(** X13. After [incrementLabelStatusCount] with a valid status, a read of
    the metrics of the deployment key shows the counter one higher, as a
    number, and every other field of the hash reads as before.  The
    counter was [v], with [v + 1] of magnitude below 2^53. *)
Theorem incrementLabelStatusCount_then_read this metrics deploymentKey label status
    (srv : Server) (v : Z) increment read :
  isEnabled this = true -> _metricsClient this = Some metrics ->
  Utilities.isValidDeploymentStatus status = true ->
  one_of (QManager.incrementLabelStatusCount this deploymentKey label status)
         (AsyncManager.incrementLabelStatusCount this deploymentKey label status)
         increment ->
  one_of (QManager.getMetricsWithDeploymentKey this deploymentKey)
         (AsyncManager.getMetricsWithDeploymentKey this deploymentKey) read ->
  let hash := Utilities.getDeploymentKeyLabelsHash deploymentKey in
  let field := label +:+ ":" +:+ status in
  counter (database srv (db metrics)) hash field = Some v ->
  - 2 ^ 53 < v + 1 < 2 ^ 53 ->
  exists before after,
    (run redis read srv).1.2 = Fulfilled (Some before)
    /\ (run redis read (run redis increment srv).2).1.2 = Fulfilled (Some after)
    /\ after !! field = Some (Num (v + 1))
    /\ forall other, other <> field -> after !! other = before !! other.
Proof.
  intros Hon Hm Hv Hinc Hread hash field Hc Hsmall.
  destruct (run_incrementLabelStatusCount this metrics deploymentKey label status srv
              increment Hon Hm Hv Hinc) as [Hdb _].
  fold hash field in Hdb.
  assert (Hrange : LLONG_MIN <= v + 1 <= LLONG_MAX).
  { unfold LLONG_MIN, LLONG_MAX.
    assert (2 ^ 53 < 2 ^ 63) by (apply Z.pow_lt_mono_r; lia). lia. }
  rewrite (hincrby_accepted _ _ _ _ _ Hc Hrange) in Hdb. cbn [snd] in Hdb.
  eexists _, _.
  split; [apply (run_getMetrics this metrics deploymentKey srv read Hon Hm Hread)|].
  split; [apply (run_getMetrics this metrics deploymentKey _ read Hon Hm Hread)|].
  fold hash. rewrite Hdb. split.
  - rewrite lookup_fmap, lookup_delete_ne
      by (apply not_eq_sym, status_field_not_proto, Hv).
    rewrite lookup_set_field, decide_True by done. cbn.
    now rewrite parseInt10_ll2string.
  - intros other Hne. rewrite !lookup_fmap.
    destruct (decide ("__proto__" = other)) as [<-|Hproto].
    + now rewrite !lookup_delete_eq.
    + rewrite !lookup_delete_ne by exact Hproto. rewrite lookup_set_field.
      now rewrite decide_False by (intros [_ ?]; congruence).
Qed.

(** X14. [incrementLabelStatusCount] never changes an active count and
    never changes a clients hash, whatever its arguments and whatever the
    state of the manager: every field named [label:Active] of every hash
    and every field of the clients hash of every deployment key is the
    same after the call, in every database. *)
Theorem incrementLabelStatusCount_spares_active this deploymentKey label status
    (srv : Server) p :
  one_of (QManager.incrementLabelStatusCount this deploymentKey label status)
         (AsyncManager.incrementLabelStatusCount this deploymentKey label status) p ->
  forall (i : N) (key field : string),
    (exists l, field = l +:+ ":" +:+ ACTIVE)
    \/ (exists k, key = Utilities.getDeploymentKeyClientsHash k) ->
    hash_at (database (run redis p srv).2 i) key !! field
    = hash_at (database srv i) key !! field.
Proof.
  intros Hp i key field Hspared.
  destruct (isEnabled this) eqn:Hon;
    [|now rewrite (run_incrementLabelStatusCount_idle this deploymentKey label status
                     srv p (or_introl Hon) Hp)].
  destruct (_metricsClient this) as [metrics|] eqn:Hm;
    [|now rewrite (run_incrementLabelStatusCount_idle this deploymentKey label status
                     srv p (or_intror (or_introl Hm)) Hp)].
  destruct (Utilities.isValidDeploymentStatus status) eqn:Hv;
    [|now rewrite (run_incrementLabelStatusCount_idle this deploymentKey label status
                     srv p (or_intror (or_intror Hv)) Hp)].
  destruct (run_incrementLabelStatusCount this metrics deploymentKey label status srv
              p Hon Hm Hv Hp) as [Hdb Hother].
  destruct (decide (i = db metrics)) as [->|Hi]; [|now rewrite Hother].
  rewrite Hdb. apply hincrby_lookup. intros [Hk Hf].
  destruct Hspared as [[l ->]|[k ->]].
  - exact (status_field_not_active _ _ _ Hv Hf).
  - exact (labels_hash_not_clients_hash _ _ Hk).
Qed.

(** ** checkHealth and close *)

(** X15. [checkHealth] on an enabled manager pings both connections, the
    metrics connection also when the ping of the other has failed, and
    sends nothing else.  It is fulfilled when both pings are answered and
    rejected otherwise, with the error of the ping that failed when only
    one did.  Against any store, in both revisions. *)
Theorem checkHealth_pings_both this ops metrics {State}
    (answer : forall R, Redis -> Cmd R -> State -> Reply R * State) (st : State) p :
  isEnabled this = true ->
  _opsClient this = Some ops -> _metricsClient this = Some metrics ->
  one_of (QManager.checkHealth this) (AsyncManager.checkHealth this) p ->
  let first := answer _ ops PING st in
  let second := answer _ metrics PING first.2 in
  (run answer p st).1.1 = [Req ops PING; Req metrics PING]
  /\ (run answer p st).2 = second.2
  /\ match first.1, second.1 with
     | Ok _, Ok _ => (run answer p st).1.2 = Fulfilled tt
     | Failed e, Ok _ | Ok _, Failed e => (run answer p st).1.2 = Rejected e
     | Failed _, Failed _ => exists e, (run answer p st).1.2 = Rejected e
     end.
Proof.
  intros Hon Hops Hm Hp first second. subst first second.
  destruct Hp as [-> | ->];
    unfold QManager.checkHealth, AsyncManager.checkHealth;
    rewrite Hon, Hops, Hm; cbn;
    destruct (answer _ ops PING st) as [[v1|e1] st1]; cbn;
    destruct (answer _ metrics PING st1) as [[v2|e2] st2]; cbn;
    repeat split; eauto.
Qed.

(** X16. [close] never throws, whether or not the manager is enabled, and
    the only commands it sends are QUITs on the clients the manager has.
    When the store answers every QUIT, each client that exists gets
    exactly one, the cache connection first, and the call is fulfilled.
    Against any store, in both revisions. *)
Theorem close_quits_clients this {State}
    (answer : forall R, Redis -> Cmd R -> State -> Reply R * State) (st : State) p :
  one_of (QManager.close this) (AsyncManager.close this) p ->
  (forall e, (run answer p st).1.2 <> Threw e)
  /\ Forall (fun req => exists conn,
               req = Req conn QUIT
               /\ (_opsClient this = Some conn \/ _metricsClient this = Some conn))
            (run answer p st).1.1
  /\ ((forall conn s, exists v, (answer _ conn QUIT s).1 = Ok v) ->
      (run answer p st).1.1
      = map (fun conn => Req conn QUIT)
            (option_list (_opsClient this) ++ option_list (_metricsClient this))
      /\ (run answer p st).1.2 = Fulfilled tt).
Proof.
  intros Hp.
  destruct Hp as [-> | ->]; unfold QManager.close, AsyncManager.close;
    destruct (_opsClient this) as [ops|], (_metricsClient this) as [metrics|]; cbn;
    repeat match goal with
      | |- context [answer ?R ?c QUIT ?s] =>
          let H := fresh "Ha" in
          destruct (answer R c QUIT s) as [[?|?] ?] eqn:H; cbn
      end;
    (split; [intros e; discriminate|]);
    (split; [repeat constructor; eauto|]);
    intros Hok;
    repeat match goal with
      | Ha : answer _ ?c QUIT ?s = (Failed _, _) |- _ =>
          destruct (Hok c s) as [? Hv]; rewrite Ha in Hv; discriminate Hv
      end;
    split; reflexivity.
Qed.

(** ** recordUpdate without a previous pair *)

(** X17. [recordUpdate] with no previous deployment key or no previous
    label, or with one of them empty, and a current label that is not
    empty, sends one transaction of two increments and nothing more: the
    active count and the count of succeeded deployments of the current
    label go up by 1, and no other field of any hash changes, so no
    counter is taken down.  Both revisions. *)
Theorem recordUpdate_without_previous this metrics currentKey currentLabel
    previousKey previousLabel p :
  isEnabled this = true -> _metricsClient this = Some metrics ->
  currentLabel <> "" ->
  truthy_opt previousKey && truthy_opt previousLabel = false ->
  is_recordUpdate this currentKey currentLabel previousKey previousLabel p ->
  let hash := Utilities.getDeploymentKeyLabelsHash currentKey in
  let active := currentLabel +:+ ":Active" in
  let succeeded := currentLabel +:+ ":DeploymentSucceeded" in
  let batch := [Q_hincrby hash (Some active) 1; Q_hincrby hash (Some succeeded) 1] in
  (forall (State : Type)
          (answer : forall R, Redis -> Cmd R -> State -> Reply R * State) (st : State),
     (run answer p st).1.1 = [Req metrics (EXEC batch)])
  /\ (forall (srv : Server) (a s : Z),
        counter (database srv (db metrics)) hash active = Some a ->
        counter (database srv (db metrics)) hash succeeded = Some s ->
        a < LLONG_MAX -> s < LLONG_MAX ->
        let after := database (run redis p srv).2 (db metrics) in
        (run redis p srv).1.2 = Fulfilled tt
        /\ counter after hash active = Some (a + 1)
        /\ counter after hash succeeded = Some (s + 1)
        /\ (forall key field,
              ~ (key = hash /\ (field = active \/ field = succeeded)) ->
              hash_at after key !! field
              = hash_at (database srv (db metrics)) key !! field)).
Proof.
  intros Hon Hm Hc Hprev Hp hash active succeeded batch.
  assert (Hsend : exists k,
             p = Send metrics (EXEC batch) k
             /\ (forall results, k (Ok results) = Resolve tt)
             /\ (forall reason, k (Failed reason) = Reject reason)).
  { destruct Hp as [-> | ->];
      unfold QManager.recordUpdate, AsyncManager.recordUpdate;
      rewrite Hon, Hm; cbn;
      unfold Utilities.getLabelActiveCountField; rewrite (truthy_nonempty _ Hc);
      destruct previousKey as [pk|], previousLabel as [pl|]; cbn in Hprev |- *;
      try rewrite Hprev; cbn;
      eexists; (split; [reflexivity|]); split; reflexivity. }
  destruct Hsend as (k & -> & Hok & Hfail).
  split.
  - intros State answer st. cbn.
    destruct (answer _ metrics (EXEC batch) st) as [[results|reason] st1].
    + now rewrite Hok.
    + now rewrite Hfail.
  - intros srv a s Ha Hs Hamax Hsmax after.
    pose proof (counter_range _ _ _ _ Ha) as Hra.
    pose proof (counter_range _ _ _ _ Hs) as Hrs.
    assert (Hafter : after
                     = set_field hash succeeded (ll2string (s + 1))
                         (set_field hash active (ll2string (a + 1))
                            (database srv (db metrics)))).
    { unfold after. cbn [run]. rewrite exec_answer, Hok. cbn [snd run].
      unfold committed. rewrite database_insert_eq.
      unfold batch. cbn [exec queued_exec toArg default]. unfold id.
      rewrite (hincrby_accepted _ _ _ _ _ Ha) by lia.
      rewrite (hincrby_accepted _ hash succeeded 1 s); [reflexivity| |lia].
      rewrite counter_set_field by lia.
      rewrite decide_False; [exact Hs|].
      intros [_ Heq]. exact (active_field_not_succeeded _ _ Heq). }
    split; [cbn [run]; rewrite exec_answer, Hok; reflexivity|].
    rewrite Hafter. split; [|split].
    + rewrite !counter_set_field by lia.
      rewrite decide_False
        by (intros [_ Heq]; symmetry in Heq; exact (active_field_not_succeeded _ _ Heq)).
      now rewrite decide_True.
    + rewrite counter_set_field by lia. now rewrite decide_True.
    + intros key field Hne. rewrite !lookup_set_field.
      rewrite !decide_False; [reflexivity| |]; intros [-> ->]; apply Hne; auto.
Qed.

(** ** Which connection a method uses *)

Lemma run_sent_through {A State} (client : option Redis) (p : Promise A)
    (answer : forall R, Redis -> Cmd R -> State -> Reply R * State) (st : State) :
  sent_through client p ->
  Forall (fun req => Some (connection req) = client) (run answer p st).1.1.
Proof.
  revert st. induction p as [a|e|e|R conn cmd k IH]; intros st Hp; cbn;
    try apply Forall_nil_2.
  destruct Hp as [-> Hk].
  destruct (answer R conn cmd st) as [r st1].
  specialize (IH r st1 (Hk r)).
  destruct (run answer (k r) st1) as [[sent out] st2]. cbn in *.
  now apply Forall_cons.
Qed.

Lemma run_sent_through_redis {A} (client : option Redis) (p : Promise A) (srv : Server) i :
  sent_through client p -> Some i <> db <$> client ->
  database (run redis p srv).2 i = database srv i.
Proof.
  revert srv. induction p as [a|e|e|R conn cmd k IH]; intros srv Hp Hi; cbn;
    try reflexivity.
  destruct Hp as [-> Hk]. cbn in Hi.
  pose proof (redis_database R conn cmd srv i) as Hd.
  destruct (redis R conn cmd srv) as [r srv1]. cbn [snd] in Hd.
  specialize (IH r srv1 (Hk r)).
  destruct (run redis (k r) srv1) as [[sent out] srv2]. cbn in *.
  rewrite IH by (cbn; exact Hi). rewrite Hd.
  now rewrite decide_False by congruence.
Qed.

Lemma metrics_call_sent_through this A (p : Promise A) :
  metrics_call this A p -> sent_through (_metricsClient this) p.
Proof.
  intros [k l s q Hq|k q Hq|k q Hq|ck cl pk pl q Hq|k c q Hq|k c q Hq|k c t f q Hq];
    destruct Hq as [-> | ->];
    unfold QManager.incrementLabelStatusCount, AsyncManager.incrementLabelStatusCount,
      QManager.clearMetricsForDeploymentKey, AsyncManager.clearMetricsForDeploymentKey,
      QManager.getMetricsWithDeploymentKey, AsyncManager.getMetricsWithDeploymentKey,
      QManager.recordUpdate, AsyncManager.recordUpdate,
      QManager.removeDeploymentKeyClientActiveLabel,
      AsyncManager.removeDeploymentKeyClientActiveLabel,
      QManager.getCurrentActiveLabel, AsyncManager.getCurrentActiveLabel,
      QManager.updateActiveAppForClient, AsyncManager.updateActiveAppForClient;
    destruct (isEnabled this), (_metricsClient this) as [metrics|]; cbn; try exact I;
    repeat match goal with
      | |- context [truthy_opt ?x] => destruct (truthy_opt x); cbn
      | |- context [truthy ?x] => destruct (truthy x); cbn
      | |- context [Utilities.getLabelStatusField ?x ?y] =>
          destruct (Utilities.getLabelStatusField x y); cbn
      | |- context [match ?x with Some _ => _ | None => _ end] => destruct x; cbn
      end;
    try exact I;
    (split; [reflexivity|]); intros [?|?]; cbn; exact I.
Qed.

(** X18. The methods that keep the metrics ([incrementLabelStatusCount],
    [clearMetricsForDeploymentKey], [getMetricsWithDeploymentKey],
    [recordUpdate], [removeDeploymentKeyClientActiveLabel],
    [getCurrentActiveLabel], [updateActiveAppForClient]) send every command
    through the metrics client, whatever the store answers; on the server
    every database but the one of that client is after the call as it was
    before.  The response cache is never touched by them. *)
Theorem metrics_calls_use_metrics_client this A (p : Promise A) :
  metrics_call this A p ->
  (forall (State : Type)
          (answer : forall R, Redis -> Cmd R -> State -> Reply R * State) (st : State),
     Forall (fun req => Some (connection req) = _metricsClient this)
            (run answer p st).1.1)
  /\ (forall (srv : Server) (i : N),
        Some i <> db <$> _metricsClient this ->
        database (run redis p srv).2 i = database srv i).
Proof.
  intros Hp%metrics_call_sent_through. split.
  - intros State answer st. now apply run_sent_through.
  - intros srv i Hi. now apply (run_sent_through_redis (_metricsClient this)).
Qed.

Section Connections.
Context `{JSON V}.

Lemma cache_call_sent_through this A (p : Promise A) :
  cache_call this A p -> sent_through (_opsClient this) p.
Proof.
  intros [k u q Hq|k u v q Hq|k q Hq];
    destruct Hq as [-> | ->];
    unfold QManager.getCachedResponse, AsyncManager.getCachedResponse,
      QManager.setCachedResponse, AsyncManager.setCachedResponse,
      QManager.invalidateCache, AsyncManager.invalidateCache, stringify, parse;
    destruct (isEnabled this), (_opsClient this) as [ops|]; cbn; try exact I;
    try (destruct (JSON_stringify v); cbn; try exact I);
    repeat first
      [ exact I
      | split; [reflexivity|]; intros [?|?]; cbn
      | match goal with
        | |- context [JSON_parse ?x] => destruct (JSON_parse x); cbn
        | |- context [truthy ?x] => destruct (truthy x); cbn
        | |- context [Z.eqb ?x ?y] => destruct (Z.eqb x y); cbn
        | |- context [match ?x with Some _ => _ | None => _ end] => destruct x; cbn
        end ].
Qed.

(** X19. The methods of the response cache ([getCachedResponse],
    [setCachedResponse], [invalidateCache]) send every command through the
    cache client, whatever the store answers; on the server every database
    but the one of that client is after the call as it was before.  The
    metrics are never touched by them. *)
Theorem cache_calls_use_ops_client this A (p : Promise A) :
  cache_call this A p ->
  (forall (State : Type)
          (answer : forall R, Redis -> Cmd R -> State -> Reply R * State) (st : State),
     Forall (fun req => Some (connection req) = _opsClient this)
            (run answer p st).1.1)
  /\ (forall (srv : Server) (i : N),
        Some i <> db <$> _opsClient this ->
        database (run redis p srv).2 i = database srv i).
Proof.
  intros Hp%cache_call_sent_through. split.
  - intros State answer st. now apply run_sent_through.
  - intros srv i Hi. now apply (run_sent_through_redis (_opsClient this)).
Qed.

(** ** Reads *)

Lemma run_same_data {A} (p : Promise A) (s1 s2 : Server) :
  same_data s1 s2 ->
  (run redis p s1).1 = (run redis p s2).1
  /\ same_data (run redis p s1).2 (run redis p s2).2.
Proof.
  revert s1 s2. induction p as [a|e|e|R conn cmd k IH]; intros s1 s2 Hs; cbn;
    try (split; [reflexivity | exact Hs]).
  destruct (redis_same_data R conn cmd s1 s2 Hs) as [Hr Hd].
  destruct (redis R conn cmd s1) as [r1 t1], (redis R conn cmd s2) as [r2 t2].
  cbn in Hr, Hd. subst r2.
  destruct (IH r1 t1 t2 Hd) as [H1 H2].
  destruct (run redis (k r1) t1) as [[sent1 out1] u1],
           (run redis (k r1) t2) as [[sent2 out2] u2].
  cbn in *. injection H1 as -> ->. split; [reflexivity | exact H2].
Qed.

Lemma run_reads_only {A} (p : Promise A) (srv : Server) :
  reads_only p -> same_data (run redis p srv).2 srv.
Proof.
  revert srv. induction p as [a|e|e|R conn cmd k IH]; intros srv Hp; cbn;
    try apply same_data_refl.
  destruct Hp as [Hr Hk].
  pose proof (read_leaves_data R conn cmd srv Hr) as Hd.
  destruct (redis R conn cmd srv) as [r srv1]. cbn [snd] in Hd.
  specialize (IH r srv1 (Hk r)).
  destruct (run redis (k r) srv1) as [[sent out] srv2]. cbn in *.
  exact (same_data_trans _ _ _ IH Hd).
Qed.

Lemma run_never_throws {A State} (p : Promise A)
    (answer : forall R, Redis -> Cmd R -> State -> Reply R * State) (st : State) e :
  never_throws p -> (run answer p st).1.2 <> Threw e.
Proof.
  revert st. induction p as [a|e'|e'|R conn cmd k IH]; intros st Hp; cbn;
    try discriminate; try contradiction.
  destruct (answer R conn cmd st) as [r st1].
  specialize (IH r st1 (Hp r)).
  destruct (run answer (k r) st1) as [[sent out] st2]. exact IH.
Qed.

Ltac unfold_methods :=
  unfold QManager.checkHealth, AsyncManager.checkHealth,
    QManager.close, AsyncManager.close,
    QManager.getCachedResponse, AsyncManager.getCachedResponse,
    QManager.setCachedResponse, AsyncManager.setCachedResponse,
    QManager.invalidateCache, AsyncManager.invalidateCache,
    QManager.incrementLabelStatusCount, AsyncManager.incrementLabelStatusCount,
    QManager.clearMetricsForDeploymentKey, AsyncManager.clearMetricsForDeploymentKey,
    QManager.getMetricsWithDeploymentKey, AsyncManager.getMetricsWithDeploymentKey,
    QManager.recordUpdate, AsyncManager.recordUpdate,
    QManager.removeDeploymentKeyClientActiveLabel,
    AsyncManager.removeDeploymentKeyClientActiveLabel,
    QManager.getCurrentActiveLabel, AsyncManager.getCurrentActiveLabel,
    QManager.updateActiveAppForClient, AsyncManager.updateActiveAppForClient,
    stringify, parse.

Ltac walk_call step :=
  repeat first
    [ exact I
    | step
    | match goal with
      | |- context [JSON_parse ?x] => destruct (JSON_parse x); cbn
      | |- context [JSON_stringify ?x] => destruct (JSON_stringify x); cbn
      | |- context [truthy_opt ?x] => destruct (truthy_opt x); cbn
      | |- context [truthy ?x] => destruct (truthy x); cbn
      | |- context [Utilities.getLabelStatusField ?x ?y] =>
          destruct (Utilities.getLabelStatusField x y); cbn
      | |- context [Z.eqb ?x ?y] => destruct (Z.eqb x y); cbn
      | |- context [match ?x with Some _ => _ | None => _ end] => destruct x; cbn
      end ].

Lemma read_call_reads_only this A (p : Promise A) : read_call this A p -> reads_only p.
Proof.
  intros [q Hq|k u q Hq|k q Hq|k c q Hq]; destruct Hq as [-> | ->]; unfold_methods;
    destruct (isEnabled this), (_opsClient this) as [ops|],
      (_metricsClient this) as [metrics|]; cbn;
    walk_call ltac:(split; [reflexivity|]; intros [?|?]; cbn).
Qed.

Lemma method_call_never_throws this A (p : Promise A) :
  constructed this -> method_call this A p -> never_throws p.
Proof.
  intros Hc Hp.
  assert (Hclients : isEnabled this = false
                     \/ (is_Some (_opsClient this) /\ is_Some (_metricsClient this))).
  { unfold constructed in Hc. destruct (isEnabled this); [right; now apply Hc | now left]. }
  destruct Hp as [A q Hq|A q Hq|q Hq|q Hq].
  - destruct Hq as [k l s q Hq|k q Hq|k q Hq|ck cl pk pl q Hq|k c q Hq|k c q Hq
                   |k c t f q Hq];
      destruct Hq as [-> | ->]; unfold_methods;
      (destruct Hclients as [Hoff | [[ops Hops] [metrics Hm]]];
       [rewrite ?Hoff | rewrite ?Hops, ?Hm]); cbn;
      try (destruct (isEnabled this); cbn);
      walk_call ltac:(intros [?|?]; cbn).
  - destruct Hq as [k u q Hq|k u v q Hq|k q Hq];
      destruct Hq as [-> | ->]; unfold_methods;
      (destruct Hclients as [Hoff | [[ops Hops] [metrics Hm]]];
       [rewrite ?Hoff | rewrite ?Hops, ?Hm]); cbn;
      try (destruct (isEnabled this); cbn);
      walk_call ltac:(intros [?|?]; cbn).
  - destruct Hq as [-> | ->]; unfold_methods;
      (destruct Hclients as [Hoff | [[ops Hops] [metrics Hm]]];
       [rewrite ?Hoff | rewrite ?Hops, ?Hm]); cbn;
      try (destruct (isEnabled this); cbn);
      walk_call ltac:(intros [?|?]; cbn).
  - destruct Hq as [-> | ->]; unfold_methods;
      destruct (_opsClient this), (_metricsClient this); cbn;
      walk_call ltac:(intros [?|?]; cbn).
Qed.

(** X20. [checkHealth], [getCachedResponse], [getMetricsWithDeploymentKey]
    and [getCurrentActiveLabel] leave no trace on the server: every
    database holds after the call what it held before, and any call made
    afterwards sends the commands and ends the way it would have without
    the read.  Both revisions, whatever the state of the manager. *)
Theorem reads_leave_no_trace this A (p : Promise A) B (q : Promise B) (srv : Server) :
  read_call this A p ->
  same_data (run redis p srv).2 srv
  /\ (run redis q (run redis p srv).2).1 = (run redis q srv).1.
Proof.
  intros Hp%read_call_reads_only.
  pose proof (run_reads_only p srv Hp) as Hsame.
  split; [exact Hsame | apply (run_same_data q _ _ Hsame)].
Qed.

(** X21. On a manager as the constructors leave it (enabled with both
    clients, or disabled), no method throws: whatever the store answers,
    every call of every method, [close] and [checkHealth] included, ends
    fulfilled or rejected, so a failure of the store or of the JSON codec
    always arrives as a rejection of the returned promise.  Both
    revisions. *)
Theorem methods_never_throw this A (p : Promise A) {State}
    (answer : forall R, Redis -> Cmd R -> State -> Reply R * State) (st : State) :
  constructed this -> method_call this A p ->
  (exists value, (run answer p st).1.2 = Fulfilled value)
  \/ (exists reason, (run answer p st).1.2 = Rejected reason).
Proof.
  intros Hc Hp.
  pose proof (method_call_never_throws this A p Hc Hp) as Hn.
  destruct ((run answer p st).1.2) as [value|reason|exn] eqn:Hout; eauto.
  exfalso. exact (run_never_throws p answer st exn Hn Hout).
Qed.

End Connections.

(** ** updateActiveAppForClient: the active counts *)

Lemma counter_hset key field value d key' field' :
  ~ (key = key' /\ field = field') ->
  counter (hset key field value d).2 key' field' = counter d key' field'.
Proof.
  intros Hne. unfold counter. rewrite hset_lookup. now rewrite decide_False.
Qed.

(** X22. [updateActiveAppForClient] from a label to another moves one
    active client: the active count of the new label goes up by 1, the
    active count of the old label goes down by 1 (so a move from a label
    to itself leaves its count where it was), every other field of the
    labels hashes is as before.  Both labels are not empty and the counts
    are integers the store can still move. *)
Theorem updateActiveAppForClient_moves_one this metrics deploymentKey clientUniqueId
    toLabel fromLabel (srv : Server) (a q : Z) update :
  isEnabled this = true -> _metricsClient this = Some metrics ->
  toLabel <> "" -> fromLabel <> "" ->
  one_of (QManager.updateActiveAppForClient this deploymentKey clientUniqueId toLabel
            (Some fromLabel))
         (AsyncManager.updateActiveAppForClient this deploymentKey clientUniqueId toLabel
            (Some fromLabel)) update ->
  let labels := Utilities.getDeploymentKeyLabelsHash deploymentKey in
  let before := database srv (db metrics) in
  let after := database (run redis update srv).2 (db metrics) in
  counter before labels (toLabel +:+ ":Active") = Some a ->
  counter before labels (fromLabel +:+ ":Active") = Some q ->
  a < LLONG_MAX -> LLONG_MIN < q ->
  counter after labels (toLabel +:+ ":Active")
  = Some (if decide (toLabel = fromLabel) then a else a + 1)
  /\ counter after labels (fromLabel +:+ ":Active")
     = Some (if decide (toLabel = fromLabel) then q else q - 1)
  /\ (forall anyKey field,
        ~ (anyKey = deploymentKey
           /\ (field = toLabel +:+ ":Active" \/ field = fromLabel +:+ ":Active")) ->
        hash_at after (Utilities.getDeploymentKeyLabelsHash anyKey) !! field
        = hash_at before (Utilities.getDeploymentKeyLabelsHash anyKey) !! field).
Proof.
  intros Hon Hm Hto Hfrom Hupd labels before after Ha Hq Hamax Hqmin.
  destruct (run_updateActiveAppForClient this metrics deploymentKey clientUniqueId
              toLabel (Some fromLabel) srv update Hon Hm Hupd) as [_ Hdb].
  fold after before in Hdb.
  set (clients := Utilities.getDeploymentKeyClientsHash deploymentKey) in *.
  set (d0 := (hset clients clientUniqueId toLabel before).2).
  assert (Hne : forall field, ~ (clients = labels /\ clientUniqueId = field)).
  { intros field [Heq _]. symmetry in Heq.
    now apply labels_hash_not_clients_hash in Heq. }
  assert (Ha0 : counter d0 labels (toLabel +:+ ":Active") = Some a)
    by (unfold d0; now rewrite counter_hset).
  assert (Hq0 : counter d0 labels (fromLabel +:+ ":Active") = Some q)
    by (unfold d0; now rewrite counter_hset).
  pose proof (counter_range _ _ _ _ Ha) as Hra.
  pose proof (counter_range _ _ _ _ Hq) as Hrq.
  set (d1 := set_field labels (toLabel +:+ ":Active") (ll2string (a + 1)) d0).
  assert (Hq1 : counter d1 labels (fromLabel +:+ ":Active")
                = Some (if decide (toLabel = fromLabel) then a + 1 else q)).
  { unfold d1. rewrite counter_set_field by lia.
    destruct (decide (toLabel = fromLabel)) as [->|Hdiff].
    - now rewrite decide_True.
    - rewrite decide_False; [exact Hq0|].
      intros [_ Heq]. apply Hdiff. now apply active_field_inj. }
  assert (Hafter : after
                   = set_field labels (fromLabel +:+ ":Active")
                       (ll2string ((if decide (toLabel = fromLabel) then a + 1 else q) - 1))
                       d1).
  { rewrite Hdb. unfold client_update, Utilities.getLabelActiveCountField.
    rewrite (truthy_nonempty _ Hto).
    cbn [truthy_opt default]. rewrite (truthy_nonempty _ Hfrom).
    cbn [app]. rewrite !exec_cons. cbn [exec queued_exec toArg default snd].
    fold clients labels. fold d0. unfold id.
    rewrite ?(truthy_nonempty _ Hfrom). cbn [toArg default from_option]. unfold id.
    change (toLabel +:+ ":" +:+ ACTIVE) with (toLabel +:+ ":Active").
    change (fromLabel +:+ ":" +:+ ACTIVE) with (fromLabel +:+ ":Active").
    rewrite (hincrby_accepted _ _ _ _ _ Ha0) by lia. cbn [snd]. fold d1.
    replace (_ - 1) with ((if decide (toLabel = fromLabel) then a + 1 else q) + -1) by lia.
    rewrite (hincrby_accepted _ _ _ _ _ Hq1); [reflexivity|].
    destruct (decide (toLabel = fromLabel)); lia. }
  assert (Hrange : LLONG_MIN
                   <= (if decide (toLabel = fromLabel) then a + 1 else q) - 1
                   <= LLONG_MAX)
    by (destruct (decide (toLabel = fromLabel)); lia).
  rewrite Hafter. split; [|split].
  - rewrite counter_set_field by exact Hrange.
    destruct (decide (toLabel = fromLabel)) as [->|Hdiff].
    + rewrite decide_True by done. f_equal. lia.
    + rewrite decide_False
        by (intros [_ Heq]; apply Hdiff; symmetry; now apply active_field_inj).
      unfold d1. rewrite counter_set_field by lia. now rewrite decide_True.
  - rewrite counter_set_field by exact Hrange.
    rewrite decide_True by done.
    destruct (decide (toLabel = fromLabel)) as [->|Hdiff]; [|reflexivity].
    rewrite Ha in Hq. injection Hq as ->. f_equal. lia.
  - intros anyKey field Hother. unfold d1, d0.
    rewrite !lookup_set_field, hset_lookup.
    rewrite !decide_False; [reflexivity| | |].
    + intros [Heq _]. symmetry in Heq. now apply labels_hash_not_clients_hash in Heq.
    + intros [Heq <-]. apply getDeploymentKeyLabelsHash_inj in Heq. apply Hother. auto.
    + intros [Heq <-]. apply getDeploymentKeyLabelsHash_inj in Heq. apply Hother. auto.
Qed.

(** ** The properties at work *)

Lemma invalidateCache_then_get_witness :
  (run redis (QManager.invalidateCache QManager.constructor_ "scope") garbled_cache).1
  = ([Req Redis_default (DEL ["scope"])], Fulfilled tt).
Proof.
  exact (proj1 (invalidateCache_then_get (V:=Z) QManager.constructor_ Redis_default
                  "scope" garbled_cache _ eq_refl eq_refl (or_introl eq_refl))).
Defined.

Lemma setCachedResponse_after_invalidate_witness :
  let cleared :=
    (run redis (AsyncManager.invalidateCache QManager.constructor_ "scope")
       garbled_cache).2 in
  let set := QManager.setCachedResponse QManager.constructor_ "scope" "/a" 200 in
  (run redis set cleared).1.1
  = [Req Redis_default (EXISTS "scope");
     Req Redis_default
       (HSET "scope" "/a" (StatusResponse.opening +:+ "200" +:+ StatusResponse.closing));
     Req Redis_default (EXPIRE "scope" 3600)]
  /\ ttl (database (run redis set cleared).2 0%N) !! "scope" = Some 3600.
Proof.
  apply (setCachedResponse_after_invalidate (H:=StatusResponse.codec)
           QManager.constructor_ Redis_default "scope" "/a" 200
           (StatusResponse.opening +:+ "200" +:+ StatusResponse.closing)
           garbled_cache _ _ eq_refl eq_refl ltac:(vm_compute; reflexivity)
           (or_intror eq_refl) (or_introl eq_refl)).
Defined.

Lemma late_write_expires_with_scope_witness :
  let this := QManager.constructor_ in
  let srv1 := (run redis (QManager.setCachedResponse this "scope" "/a" 200) ∅).2 in
  let srv2 := <[0%N := elapse 600 (database srv1 0%N)]> srv1 in
  let srv3 := (run redis (AsyncManager.setCachedResponse this "scope" "/b" 304) srv2).2 in
  let srv4 := <[0%N := elapse 3000 (database srv3 0%N)]> srv3 in
  (run redis (QManager.getCachedResponse (V:=Z) this "scope" "/b") srv4).1.2
  = Fulfilled None.
Proof.
  intros this srv1 srv2 srv3 srv4.
  apply (late_write_expires_with_scope (H:=StatusResponse.codec) this Redis_default
           "scope" "/a" 200
           (StatusResponse.opening +:+ "200" +:+ StatusResponse.closing)
           "/b" 304
           (StatusResponse.opening +:+ "304" +:+ StatusResponse.closing)
           ∅ _ _ 600 3000 eq_refl eq_refl
           ltac:(vm_compute; reflexivity) ltac:(vm_compute; reflexivity)
           (or_introl eq_refl) (or_intror eq_refl) eq_refl ltac:(lia) ltac:(lia)
           "/b" _ (or_introl eq_refl)).
Defined.

Lemma setCachedResponse_other_entries_witness :
  let get := AsyncManager.getCachedResponse (V:=Z) QManager.constructor_ "scope" "/a" in
  (run redis get
     (run redis (QManager.setCachedResponse QManager.constructor_ "scope" "/b" 200)
        garbled_cache).2).1.2
  = (run redis get garbled_cache).1.2.
Proof.
  intros get.
  apply (setCachedResponse_other_entries (H:=StatusResponse.codec) QManager.constructor_
           Redis_default "scope" "/b" 200
           (StatusResponse.opening +:+ "200" +:+ StatusResponse.closing)
           garbled_cache _ "scope" "/a" get eq_refl eq_refl
           ltac:(vm_compute; reflexivity) (or_introl eq_refl) (or_intror eq_refl)).
  intros [_ Heq]. discriminate Heq.
Defined.

Lemma clearMetrics_then_read_witness :
  (run redis (QManager.clearMetricsForDeploymentKey QManager.constructor_ "D")
     busy_store).1
  = ([Req (Redis_new METRICS_DB)
        (DEL ["deploymentKeyLabels:D"; "deploymentKeyClients:D"])], Fulfilled tt).
Proof.
  exact (proj1 (clearMetrics_then_read QManager.constructor_ (Redis_new METRICS_DB) "D"
                  busy_store _ eq_refl eq_refl (or_introl eq_refl))).
Defined.

Lemma updateActiveAppForClient_then_get_witness :
  (run redis (QManager.getCurrentActiveLabel QManager.constructor_ "D" "c1")
     (run redis
        (AsyncManager.updateActiveAppForClient QManager.constructor_ "D" "c1" "v2"
           (Some "v1")) busy_store).2).1.2
  = Fulfilled (Some "v2").
Proof.
  exact (proj2 (updateActiveAppForClient_then_get QManager.constructor_
                  (Redis_new METRICS_DB) "D" "c1" "v2" (Some "v1") busy_store _ _
                  eq_refl eq_refl (or_intror eq_refl) (or_introl eq_refl))).
Defined.

Lemma removeClientActiveLabel_effect_witness :
  (run redis
     (QManager.removeDeploymentKeyClientActiveLabel QManager.constructor_ "D" "c1")
     busy_store).1
  = ([Req (Redis_new METRICS_DB) (HDEL "deploymentKeyClients:D" "c1")], Fulfilled tt).
Proof.
  exact (proj1 (removeClientActiveLabel_effect QManager.constructor_
                  (Redis_new METRICS_DB) "D" "c1" busy_store _ eq_refl eq_refl
                  (or_introl eq_refl))).
Defined.

Lemma field_names_injective_witness :
  Utilities.getLabelActiveCountField "v1" <> Some "v1:Active:Downloaded".
Proof.
  exact (proj2 (proj2 (field_names_injective "v1:Active:Downloaded"))
           "v1:Active" "Downloaded" "v1" eq_refl).
Defined.

Lemma incrementLabelStatusCount_then_read_witness :
  exists before after,
    (run redis (QManager.getMetricsWithDeploymentKey QManager.constructor_ "D")
       busy_store).1.2 = Fulfilled (Some before)
    /\ (run redis (QManager.getMetricsWithDeploymentKey QManager.constructor_ "D")
          (run redis
             (AsyncManager.incrementLabelStatusCount QManager.constructor_ "D" "v1"
                "Downloaded") busy_store).2).1.2 = Fulfilled (Some after)
    /\ after !! "v1:Downloaded" = Some (Num 8)
    /\ forall other, other <> "v1:Downloaded" -> after !! other = before !! other.
Proof.
  apply (incrementLabelStatusCount_then_read QManager.constructor_
           (Redis_new METRICS_DB) "D" "v1" "Downloaded" busy_store 7 _ _
           eq_refl eq_refl eq_refl (or_intror eq_refl) (or_introl eq_refl)).
  - vm_compute. reflexivity.
  - lia.
Defined.

Lemma incrementLabelStatusCount_spares_active_witness :
  hash_at
    (database
       (run redis
          (QManager.incrementLabelStatusCount QManager.constructor_ "D" "v1" "Downloaded")
          busy_store).2 1%N) "deploymentKeyLabels:D" !! "v1:Active"
  = hash_at (database busy_store 1%N) "deploymentKeyLabels:D" !! "v1:Active".
Proof.
  apply (incrementLabelStatusCount_spares_active QManager.constructor_ "D" "v1"
           "Downloaded" busy_store _ (or_introl eq_refl)).
  left. exists "v1". reflexivity.
Defined.

Lemma checkHealth_pings_both_witness :
  (run (redis_outage 0) (AsyncManager.checkHealth QManager.constructor_) ∅).1.1
  = [Req Redis_default PING; Req (Redis_new METRICS_DB) PING].
Proof.
  exact (proj1 (checkHealth_pings_both QManager.constructor_ Redis_default
                  (Redis_new METRICS_DB) (redis_outage 0) ∅ _ eq_refl eq_refl eq_refl
                  (or_intror eq_refl))).
Defined.

Lemma close_quits_clients_witness :
  (run redis (AsyncManager.close QManager.constructor_) ∅).1
  = ([Req Redis_default QUIT; Req (Redis_new METRICS_DB) QUIT], Fulfilled tt).
Proof.
  destruct (proj2 (proj2 (close_quits_clients QManager.constructor_ redis ∅ _
                            (or_intror eq_refl))))
    as [Hsent Hout].
  - intros conn s. exists "OK". reflexivity.
  - destruct (run redis (AsyncManager.close QManager.constructor_) ∅) as [[sent out] s].
    cbn in Hsent, Hout. now rewrite Hsent, Hout.
Defined.

Lemma recordUpdate_without_previous_witness :
  (run redis (QManager.recordUpdate QManager.constructor_ "D" "v1" None None) ∅).1.1
  = [Req (Redis_new METRICS_DB)
       (EXEC [Q_hincrby "deploymentKeyLabels:D" (Some "v1:Active") 1;
              Q_hincrby "deploymentKeyLabels:D" (Some "v1:DeploymentSucceeded") 1])].
Proof.
  apply (proj1 (recordUpdate_without_previous QManager.constructor_
                  (Redis_new METRICS_DB) "D" "v1" None None _ eq_refl eq_refl
                  ltac:(discriminate) eq_refl (or_introl eq_refl))).
Defined.

Lemma metrics_calls_use_metrics_client_witness :
  database
    (run redis (QManager.clearMetricsForDeploymentKey QManager.constructor_ "D")
       garbled_cache).2 0%N
  = database garbled_cache 0%N.
Proof.
  apply (proj2 (metrics_calls_use_metrics_client QManager.constructor_ _ _
                  (call_clearMetricsForDeploymentKey _ "D" _ (or_introl eq_refl)))).
  discriminate.
Defined.

Lemma cache_calls_use_ops_client_witness :
  database
    (run redis (AsyncManager.invalidateCache QManager.constructor_ "deploymentKeyLabels:D")
       busy_store).2 1%N
  = database busy_store 1%N.
Proof.
  apply (proj2 (cache_calls_use_ops_client (V:=Z) QManager.constructor_ _ _
                  (call_invalidateCache _ "deploymentKeyLabels:D" _ (or_intror eq_refl)))).
  discriminate.
Defined.

Lemma reads_leave_no_trace_witness :
  same_data
    (run redis (QManager.getMetricsWithDeploymentKey QManager.constructor_ "D")
       busy_store).2 busy_store.
Proof.
  exact (proj1 (reads_leave_no_trace (V:=Z) QManager.constructor_ _ _ unit (Resolve tt)
                  busy_store
                  (read_getMetricsWithDeploymentKey _ "D" _ (or_introl eq_refl)))).
Defined.

Lemma methods_never_throw_witness :
  let p := QManager.setCachedResponse QManager.constructor_ "scope" "/a"
             (Payload.BigInt 7) in
  (exists value, (run redis p ∅).1.2 = Fulfilled value)
  \/ (exists reason, (run redis p ∅).1.2 = Rejected reason).
Proof.
  intros p.
  apply (methods_never_throw (H:=Payload.codec) QManager.constructor_ _ p redis ∅
           QManager_constructed).
  apply call_cache. apply (call_setCachedResponse _ "scope" "/a" (Payload.BigInt 7)).
  left. reflexivity.
Defined.

Lemma updateActiveAppForClient_moves_one_witness :
  let after :=
    database
      (run redis
         (QManager.updateActiveAppForClient QManager.constructor_ "D" "c1" "v2"
            (Some "v1")) busy_store).2 1%N in
  counter after "deploymentKeyLabels:D" "v2:Active" = Some 1
  /\ counter after "deploymentKeyLabels:D" "v1:Active" = Some 4.
Proof.
  intros after.
  destruct (updateActiveAppForClient_moves_one QManager.constructor_
              (Redis_new METRICS_DB) "D" "c1" "v2" "v1" busy_store 0 5 _
              eq_refl eq_refl ltac:(discriminate) ltac:(discriminate)
              (or_introl eq_refl) ltac:(vm_compute; reflexivity)
              ltac:(vm_compute; reflexivity) ltac:(vm_compute; reflexivity)
              ltac:(vm_compute; reflexivity))
    as (Hto & Hfrom & _).
  split; [exact Hto | exact Hfrom].
Defined.
